(** * Proton Mail Bridge: the SMTP send path and the safe ordered map

    A shallow embedding of the SMTP session of package [user] (the session
    itself, the sanitizer of parsed messages and the resolver of the parent
    message) and of the ordered map that the test of package [safe]
    exercises, with the properties the design document states about them. *)

From Stdlib Require Import Ascii String List ZArith Lia Permutation.
From stdpp Require Import base option list gmap strings fin_maps.

Local Open Scope list_scope.

(** ** Go's [strings] package, as far as the send path uses it *)

Module GoStrings.

(** [strings.Split(s, sep)] for a separator of one byte, which is how the
    code calls it (["@"] and ["+"]).  The result is never empty: a string
    without the separator comes back as its only element. *)
Fixpoint Split (s : string) (sep : ascii) : list string :=
  match s with
  | EmptyString => [EmptyString]
  | String c s' =>
      if Ascii.eqb c sep then EmptyString :: Split s' sep
      else match Split s' sep with
           | [] => [String c EmptyString]
           | piece :: rest => String c piece :: rest
           end
  end.

(** [strings.HasPrefix]. *)
Fixpoint HasPrefix (s prefix : string) : bool :=
  match prefix, s with
  | EmptyString, _ => true
  | String p prefix', String c s' => Ascii.eqb c p && HasPrefix s' prefix'
  | String _ _, EmptyString => false
  end.

(** [strings.Contains]: [substr] occurs somewhere within [s]. *)
Fixpoint Contains (s substr : string) : bool :=
  HasPrefix s substr ||
  match s with
  | EmptyString => false
  | String _ s' => Contains s' substr
  end.

(** [strings.HasSuffix]. *)
Definition HasSuffix (s suffix : string) : bool :=
  (String.length suffix <=? String.length s)%nat &&
  String.eqb (substring (String.length s - String.length suffix) (String.length suffix) s) suffix.

(** [strings.TrimSuffix]: [s] without the trailing [suffix], or [s] itself
    when it does not end with it. *)
Definition TrimSuffix (s suffix : string) : string :=
  if HasSuffix s suffix
  then substring 0 (String.length s - String.length suffix) s
  else s.

(** [slices.Contains] on strings (Go's [==]). *)
Definition slicesContains (l : list string) (x : string) : bool :=
  existsb (String.eqb x) l.

(** [xslices.IndexFunc]: the first position satisfying [f], if any (the Go
    function answers -1 for none). *)
Fixpoint IndexFunc {A} (l : list A) (f : A -> bool) : option nat :=
  match l with
  | [] => None
  | x :: l' => if f x then Some 0%nat else S <$> IndexFunc l' f
  end.

End GoStrings.

Import GoStrings.

(** ** Errors, results and the data the send path works on *)

Module SMTP.

(** The errors of the package: its sentinel values (declared in another
    file of the package; the session only returns and compares them), the
    error [sanitizeParsedMessage] builds with [fmt.Errorf], errors wrapped
    with ["...: %w"], and errors handed back by libraries and by the API. *)
Inductive error : Type :=
| ErrInvalidReturnPath
| ErrInvalidRecipient
| ErrNotImplemented
| ErrMissingAddrKey
| ErrAddressNotOwned (address : string)
| ErrWrapped (context : string) (cause : error)
| ErrUpstream (message : string).

(** A Go pair [(value, err)]. *)
Inductive result (A : Type) : Type :=
| Ok (value : A)
| Err (err : error).
Arguments Ok {A} value.
Arguments Err {A} err.

(** [fmt.Errorf(context + ": %w", err)] on the error of a result. *)
Definition wrapErr {A} (context : string) (r : result A) : result A :=
  match r with
  | Ok a => Ok a
  | Err e => Err (ErrWrapped context e)
  end.

(** Modelled from the spec: the type [vault.AddressMode], declared outside
    these sources; "addressMode∈{combined,split}". *)
Inductive AddressMode : Type := CombinedMode | SplitMode.

Definition isSplitMode (addrMode : AddressMode) : bool :=
  match addrMode with SplitMode => true | CombinedMode => false end.

(** [mail.Address]. *)
Record MailAddress : Type := { Name : string; Address : string }.

Definition withAddress (a : MailAddress) (address : string) : MailAddress :=
  {| Name := Name a; Address := address |}.

(** Modelled from the spec: [message.Attachment], declared outside these
    sources, with the fields [createAttachments] reads. *)
Record Attachment : Type := {
  AttName : string;
  AttContentID : string;
  AttMIMEType : string;
  AttDisposition : string;
  AttData : string
}.

(** Modelled from the spec: [message.Message], the parsed message, declared
    outside these sources, with the fields the send path reads and
    writes. *)
Record Message : Type := {
  MIMEBody : string;
  RichBody : string;
  PlainBody : string;
  Attachments : list Attachment;
  MIMEType : string;
  Subject : string;
  Sender : option MailAddress;
  ToList : list MailAddress;
  CCList : list MailAddress;
  BCCList : list MailAddress;
  References : list string;
  ExternalID : string
}.

Definition withSender (m : Message) (sender : MailAddress) : Message :=
  {| MIMEBody := MIMEBody m; RichBody := RichBody m; PlainBody := PlainBody m;
     Attachments := Attachments m; MIMEType := MIMEType m; Subject := Subject m;
     Sender := Some sender; ToList := ToList m; CCList := CCList m;
     BCCList := BCCList m; References := References m; ExternalID := ExternalID m |}.

Definition withToList (m : Message) (toList : list MailAddress) : Message :=
  {| MIMEBody := MIMEBody m; RichBody := RichBody m; PlainBody := PlainBody m;
     Attachments := Attachments m; MIMEType := MIMEType m; Subject := Subject m;
     Sender := Sender m; ToList := toList; CCList := CCList m;
     BCCList := BCCList m; References := References m; ExternalID := ExternalID m |}.

Definition withBCCList (m : Message) (bccList : list MailAddress) : Message :=
  {| MIMEBody := MIMEBody m; RichBody := RichBody m; PlainBody := PlainBody m;
     Attachments := Attachments m; MIMEType := MIMEType m; Subject := Subject m;
     Sender := Sender m; ToList := ToList m; CCList := CCList m;
     BCCList := bccList; References := References m; ExternalID := ExternalID m |}.

(** The address strings of a list of addresses. *)
Definition addresses (l : list MailAddress) : list string := map Address l.

(** [liteapi.MessageMetadata]; [IsDraft] is the answer of its method of
    that name.  [liteapi.Message] embeds it, and the send path reads
    nothing but the [ID] of a message. *)
Record MessageMetadata : Type := { ID : string; IsDraft : bool }.

(** The filter of a metadata query, [map[string][]string]. *)
Abbreviation Filter := (gmap string (list string)).

(** Modelled from the spec: the event [events.MessageSent], declared
    outside these sources; "MessageSent{userId, addressId, messageId}". *)
Inductive Event : Type :=
| MessageSent (UserID AddressID MessageID : string).

(** [smtp.MailOptions], the fields [Mail] reads. *)
Record MailOptions : Type := {
  RequireTLS : bool;
  UTF8 : bool;
  Auth : option string
}.

(** The unread bytes of the [io.Reader] passed to [Data]. *)
Abbreviation Reader := (list Byte.byte).

(** *** What the package takes from outside

    The parser, the keyrings and the request builder are libraries the
    session calls; none of them is opened here.  [Library] lists the calls
    the send path makes, at the types it makes them. *)
Class Library : Type := {
  Parser : Type;
  KeyRing : Type;
  Key : Type;
  MailSettings : Type;
  AttKeys : Type;
  SendRecipients : Type;
  SendDraftReq : Type;
  (** Modelled from the spec: the constant [message.InternalIDDomain], "the
      service's reserved id domain", declared outside these sources. *)
  InternalIDDomain : string;
  (** [parser.New(r)]: builds the parser from what it reads of [r]. *)
  parserNew : Reader -> result Parser * Reader;
  (** [parser.Root().Header.Get("From")]. *)
  headerFrom : Parser -> string;
  (** [rfc5322.ParseAddressList]. *)
  ParseAddressList : string -> result (list MailAddress);
  (** [settings.AttachPublicKey == liteapi.AttachPublicKeyEnabled]. *)
  attachPublicKeyEnabled : MailSettings -> bool;
  (** [addrKR.FirstKey()], [addrKR.GetKey(n)], [key.GetArmoredPublicKey()]
      and the name under which the key is attached. *)
  FirstKey : KeyRing -> result KeyRing;
  GetKey : KeyRing -> nat -> result Key;
  GetArmoredPublicKey : Key -> result string;
  publicKeyName : KeyRing -> Key -> string;
  (** [parser.AttachPublicKey(key, name)]. *)
  AttachPublicKey : Parser -> string -> string -> Parser;
  (** [message.ParseWithParser]. *)
  ParseWithParser : Parser -> result Message;
  (** [createSendReq]. *)
  createSendReq : KeyRing -> string -> string -> string -> SendRecipients -> AttKeys -> result SendDraftReq;
  (** [strings.EqualFold] of the Go library: equality of two strings under
      Unicode case folding.  The function and the folding tables of package
      [unicode] it reads are no part of these sources, so it stands here as
      it is called; what is known of it is stated apart, in [FoldLaws], and
      assumed only where a statement says so. *)
  EqualFold : string -> string -> bool;
  (** Modelled from the spec: the method [message.Recipients()], declared
      outside these sources.  The sanitizer treats it as the recipients
      named by the message: "any recipients not present in the ToList or
      CCList are BCC recipients", and the send packages cover
      "to, cc and bcc".  Only these two facts are used: it lists every To
      and Cc address, and nothing but To, Cc and Bcc addresses. *)
  Recipients : Message -> list string;
  Recipients_To_CC : forall (m : Message) (r : string),
    r ∈ addresses (ToList m) ++ addresses (CCList m) -> r ∈ Recipients m;
  Recipients_listed : forall (m : Message) (r : string),
    r ∈ Recipients m -> r ∈ addresses (ToList m) ++ addresses (CCList m) ++ addresses (BCCList m)
}.

(** The laws of [strings.EqualFold].  Go's function reads both strings
    rune by rune (a byte that starts no valid UTF-8 sequence counts as one
    rune of its own) and takes two runes for equal when one is reached
    from the other by [unicode.SimpleFold]; so it is an equivalence.  The
    bytes ['@'] and ['+'] are runes that fold to nothing but themselves, and
    no other rune holds one of these bytes; so two strings equal under
    folding split at such a byte into as many pieces, equal under folding
    one by one, and pieces equal under folding stay so when joined by such
    a byte.  Nothing is said of the length of the strings: a letter and a
    rune of several bytes may be equal under folding. *)
Class FoldLaws `{Library} : Prop := {
  EqualFold_refl : forall s : string, EqualFold s s = true;
  EqualFold_sym : forall s t : string, EqualFold s t = EqualFold t s;
  EqualFold_trans : forall s t u : string,
    EqualFold s t = true -> EqualFold t u = true -> EqualFold s u = true;
  EqualFold_Split : forall (sep : ascii) (s t : string),
    sep = "@"%char \/ sep = "+"%char -> EqualFold s t = true ->
    Forall2 (fun p q => EqualFold p q = true) (Split s sep) (Split t sep);
  EqualFold_join : forall (sep : ascii) (a b c d : string),
    sep = "@"%char \/ sep = "+"%char -> EqualFold a c = true -> EqualFold b d = true ->
    EqualFold (a +:+ String sep b) (c +:+ String sep d) = true
}.

(** Go leaves the order of a [range] over a map, and of [maps.Values],
    unspecified.  [rangeMap] and [mapsValues] stand for the orders the
    runtime picks; all that is known of them is that they enumerate the
    map.  One runtime gives one order to a map: a statement about two loops
    over the same map has to take a runtime for each. *)
Class GoRuntime : Type := {
  rangeMap : gmap string string -> list (string * string);
  mapsValues : gmap string string -> list string;
  rangeMap_perm : forall m, rangeMap m ≡ₚ map_to_list m;
  mapsValues_perm : forall m, mapsValues m ≡ₚ (map_to_list m).*2
}.

(** One call on the API client, with what it answered. *)
Inductive Call : Type :=
| CallGetAllMessageMetadata (filter : Filter) (answer : result (list MessageMetadata))
| CallDeleteMessage (id : string) (answer : result unit).

(** The [liteapi.Client] behind the session, as a machine over a state of
    its own.  [createDraftWithAttachments] and [getRecipients] are the two
    steps of this package that only encrypt, upload and look up keys; the
    session depends on their results alone, so they stand here next to
    the API calls. *)
Record Client `{Library} (S : Type) : Type := {
  GetAllMessageMetadata : Filter -> S -> result (list MessageMetadata) * S;
  DeleteMessage : string -> S -> result unit * S;
  SendDraft : string -> SendDraftReq -> S -> result MessageMetadata * S;
  createDraftWithAttachments : KeyRing -> Message -> string -> S -> result (MessageMetadata * AttKeys) * S;
  getRecipients : KeyRing -> MailSettings -> list string -> string -> S -> result SendRecipients * S
}.
Arguments GetAllMessageMetadata {_ S} _ _ _.
Arguments DeleteMessage {_ S} _ _ _.
Arguments SendDraft {_ S} _ _ _ _.
Arguments createDraftWithAttachments {_ S} _ _ _ _ _.
Arguments getRecipients {_ S} _ _ _ _ _ _.

(** What a session acts on: the API behind the client, the calls made on
    it so far, and the event channel. *)
Record World (S : Type) : Type := {
  api : S;
  calls : list Call;
  eventCh : list Event
}.
Arguments api {S} _.
Arguments calls {S} _.
Arguments eventCh {S} _.
Arguments Build_World {S} _ _ _.

(** *** Fallible steps over the world *)
Section Steps.
Context {S : Type}.

Definition M (A : Type) : Type := World S -> result A * World S.

Definition ret {A} (a : A) : M A := fun w => (Ok a, w).

Definition bind {A B} (m : M A) (k : A -> M B) : M B :=
  fun w => match m w with
           | (Ok a, w') => k a w'
           | (Err e, w') => (Err e, w')
           end.

(** A pure fallible step. *)
Definition lift {A} (r : result A) : M A := fun w => (r, w).

(** [if err != nil { return ..., fmt.Errorf(context + ": %w", err) }]. *)
Definition wrap {A} (context : string) (m : M A) : M A :=
  fun w => let '(r, w') := m w in (wrapErr context r, w').

(** A step on the API state that is not recorded. *)
Definition onAPI {A} (f : S -> result A * S) : M A :=
  fun w => let '(r, s) := f (api w) in
           (r, Build_World s (calls w) (eventCh w)).

(** A step on the API state, recorded with its answer. *)
Definition call {A} (f : S -> result A * S) (record : result A -> Call) : M A :=
  fun w => let '(r, s) := f (api w) in
           (r, Build_World s (calls w ++ [record r]) (eventCh w)).

(** [eventCh.Enqueue(event)]. *)
Definition Enqueue (event : Event) (w : World S) : World S :=
  Build_World (api w) (calls w) (eventCh w ++ [event]).

(** [for _, x := range xs { ... }] over a slice, with a variable [a]
    the body updates and an error that leaves the loop. *)
Fixpoint forRange {A X} (xs : list X) (body : A -> X -> M A) (a : A) : M A :=
  match xs with
  | [] => ret a
  | x :: xs' => bind (body a x) (forRange xs' body)
  end.

End Steps.
Arguments M S A : clear implicits.

Declare Scope steps_scope.
Delimit Scope steps_scope with steps.
Notation "'let*' x ':=' m 'in' k" := (bind m (fun x => k))
  (at level 10, x pattern, m at level 100, k at level 200) : steps_scope.

(** *** Addresses *)

(** [sanitizeEmail]: the address without its plus tag. *)
Definition sanitizeEmail (email : string) : string :=
  match Split email "@" with
  | [localPart; domain] => hd EmptyString (Split localPart "+") +:+ "@" +:+ domain
  | _ => email
  end.

(** [constructEmail]: the owned address carrying the plus tag of the
    header address. *)
Definition constructEmail (headerEmail addressEmail : string) : string :=
  match Split headerEmail "@" with
  | [headerLocal; _] =>
      match Split headerLocal "+" with
      | [_; tag] =>
          match Split addressEmail "@" with
          | [addressLocal; addressDomain] =>
              addressLocal +:+ "+" +:+ tag +:+ "@" +:+ addressDomain
          | _ => addressEmail
          end
      | _ => addressEmail
      end
  | _ => addressEmail
  end.

Section SendPath.
Context `{Library} `{GoRuntime}.

(** [getMessageSender]: the first address of the From header. *)
Definition getMessageSender (parser : Parser) : option string :=
  match ParseAddressList (headerFrom parser) with
  | Err _ => None
  | Ok [] => None
  | Ok (first :: _) => Some (Address first)
  end.

(** *** [sanitizeParsedMessage] *)

(** The body of the loop over the envelope recipients. *)
Definition addBCC (message : Message) (recipient : string) : Message :=
  if slicesContains (Recipients message) recipient then message
  else withBCCList message (BCCList message ++ [{| Name := EmptyString; Address := recipient |}]).

Definition sanitizeParsedMessage (message : Message) (from : string) (to emails : list string)
  : result Message :=
  (* Check sender: set the sender in the parsed message if it's missing. *)
  let sender :=
    match Sender message with
    | None => {| Name := EmptyString; Address := from |}
    | Some sender => if String.eqb (Address sender) EmptyString then withAddress sender from else sender
    end in
  (* Check that the sending address is owned by the user, and if so, properly capitalize it. *)
  match IndexFunc emails (fun email => EqualFold email (sanitizeEmail (Address sender))) with
  | None => Err (ErrAddressNotOwned (Address sender))
  | Some idx =>
      let sender := withAddress sender (constructEmail (Address sender) (nth idx emails EmptyString)) in
      let message := withSender message sender in
      (* Check ToList: ensure that ToList only contains addresses we actually plan to send to. *)
      let message := withToList message (List.filter (fun addr => slicesContains to (Address addr)) (ToList message)) in
      (* Check BCCList: any recipients not present in the ToList or CCList are BCC recipients. *)
      Ok (fold_left addBCC to message)
  end.

(** *** [getParentID] *)

(** The first loop: the internal and the external references. *)
Definition collectReferences (references : list string) : list string * list string :=
  fold_left
    (fun '(internal, external) ref =>
       if Contains ref InternalIDDomain
       then (internal ++ [TrimSuffix ref ("@" +:+ InternalIDDomain)], external)
       else (internal, external ++ [ref]))
    references ([], []).

(** The filter of a query: one key, and the address in split mode. *)
Definition metadataFilter (key value addrID : string) (addrMode : AddressMode) : Filter :=
  let filter : Filter := {[ key := [value] ]} in
  if isSplitMode addrMode then <["AddressID" := [addrID]]> filter else filter.

Section WithClient.
Context {S : Type} (client : Client S).
Local Open Scope steps_scope.

Definition getAllMessageMetadata (filter : Filter) : M S (list MessageMetadata) :=
  call (GetAllMessageMetadata client filter) (CallGetAllMessageMetadata filter).

Definition deleteMessage (id : string) : M S unit :=
  call (DeleteMessage client id) (CallDeleteMessage id).

(** The loop over the messages one internal reference resolves to. *)
Definition scanMetadata (parentID : string) (metadata : MessageMetadata) : M S string :=
  if negb (IsDraft metadata) then ret (ID metadata)
  else let* _ := wrap "failed to delete message" (deleteMessage (ID metadata)) in
       ret parentID.

(** The loop over the internal references. *)
Definition scanInternal (addrID : string) (addrMode : AddressMode)
           (parentID : string) (internal : string) : M S string :=
  let filter := metadataFilter "ID" internal addrID addrMode in
  let* metadata := wrap "failed to get message metadata" (getAllMessageMetadata filter) in
  forRange metadata scanMetadata parentID.

Definition getParentID (addrID : string) (addrMode : AddressMode) (references : list string)
  : M S string :=
  (* Collect all the internal and external references of the message. *)
  let '(internal, external) := collectReferences references in
  (* Try to find a parent ID in the internal references. *)
  let* parentID := forRange internal (scanInternal addrID addrMode) EmptyString in
  (* If no parent was found, try to find it in the last external reference. *)
  if String.eqb parentID EmptyString && (0 <? length external)%nat then
    let filter := metadataFilter "ExternalID" (List.last external EmptyString) addrID addrMode in
    let* metadata := wrap "failed to get message metadata" (getAllMessageMetadata filter) in
    match metadata with
    | [only] => ret (ID only)
    | _ => ret parentID
    end
  else ret parentID.

(** *** [sendWithKey] *)

Definition sendWithKey (addrID : string) (addrMode : AddressMode) (userKR addrKR : KeyRing)
           (settings : MailSettings) (from : string) (to emails : list string) (parser : Parser)
  : M S MessageMetadata :=
  let* parser :=
    (if attachPublicKeyEnabled settings then
       let* key := wrap "failed to get user public key" (lift (GetKey addrKR 0)) in
       let* pubKey := wrap "failed to get user public key" (lift (GetArmoredPublicKey key)) in
       ret (AttachPublicKey parser pubKey (publicKeyName addrKR key))
     else ret parser) in
  let* message := wrap "failed to parse message" (lift (ParseWithParser parser)) in
  let* message := wrap "failed to sanitize message" (lift (sanitizeParsedMessage message from to emails)) in
  let* parentID := wrap "failed to get parent ID" (getParentID addrID addrMode (References message)) in
  let* (draft, attKeys) := wrap "failed to create draft"
                             (onAPI (createDraftWithAttachments client addrKR message parentID)) in
  let* recipients := wrap "failed to get recipients"
                       (onAPI (getRecipients client userKR settings (Recipients message) (MIMEType message))) in
  let* req := wrap "failed to create packages"
                (lift (createSendReq addrKR (MIMEBody message) (RichBody message) (PlainBody message) recipients attKeys)) in
  let* res := wrap "failed to send draft" (onAPI (SendDraft client (ID draft) req)) in
  ret res.

End WithClient.

(** *** The session *)

Record smtpSession : Type := {
  userID : string;
  addrID : string;
  addrMode : AddressMode;
  emails : gmap string string;
  settings : MailSettings;
  userKR : KeyRing;
  addrKRs : gmap string KeyRing;
  fromAddrID : string;
  to : list string
}.

Definition withFromAddrID (session : smtpSession) (id : string) : smtpSession :=
  {| userID := userID session; addrID := addrID session; addrMode := addrMode session;
     emails := emails session; settings := settings session; userKR := userKR session;
     addrKRs := addrKRs session; fromAddrID := id; to := to session |}.

Definition withTo (session : smtpSession) (recipients : list string) : smtpSession :=
  {| userID := userID session; addrID := addrID session; addrMode := addrMode session;
     emails := emails session; settings := settings session; userKR := userKR session;
     addrKRs := addrKRs session; fromAddrID := fromAddrID session; to := recipients |}.

Definition newSMTPSession (userID addrID : string) (addrMode : AddressMode)
           (emails : gmap string string) (settings : MailSettings)
           (userKR : KeyRing) (addrKRs : gmap string KeyRing) : smtpSession :=
  {| userID := userID; addrID := addrID; addrMode := addrMode;
     emails := emails; settings := settings; userKR := userKR;
     addrKRs := addrKRs; fromAddrID := EmptyString; to := [] |}.

(** [Reset]: clear the from and to fields. *)
Definition Reset (session : smtpSession) : smtpSession :=
  withTo (withFromAddrID session EmptyString) [].

(** [Logout]: the deferred [Reset] runs, the answer is [nil]. *)
Definition Logout (session : smtpSession) : option error * smtpSession :=
  (None, Reset session).

(** [for addrID, email := range session.emails] with the test [matches]
    on the email, as [Mail] and [Data] have it: every match overwrites
    [fromAddrID]. *)
Definition selectFromAddrID (matches : string -> bool) (session : smtpSession) : smtpSession :=
  fold_left
    (fun session '(addrID, email) =>
       if matches email then withFromAddrID session addrID else session)
    (rangeMap (emails session)) session.

(** The switch at the head of [Mail]. *)
Definition unsupportedOptions (session : smtpSession) (opts : MailOptions) : bool :=
  if RequireTLS opts then true
  else if UTF8 opts then true
  else match Auth opts with
       | Some auth =>
           negb (String.eqb auth EmptyString) &&
           negb (String.eqb auth (default EmptyString (emails session !! addrID session)))
       | None => false
       end.

(** [Mail]: set the return path of the message being processed. *)
Definition Mail (session : smtpSession) (from : string) (opts : MailOptions)
  : option error * smtpSession :=
  if unsupportedOptions session opts then (Some ErrNotImplemented, session)
  else
    let session := selectFromAddrID (fun email => EqualFold from email) session in
    if String.eqb (fromAddrID session) EmptyString
    then (Some ErrInvalidReturnPath, session)
    else (None, session).

(** [Rcpt]: add a recipient to the message being processed. *)
Definition Rcpt (session : smtpSession) (recipient : string) : option error * smtpSession :=
  if String.eqb recipient EmptyString then (Some ErrInvalidRecipient, session)
  else if negb (slicesContains (to session) recipient)
       then (None, withTo session (to session ++ [recipient]))
       else (None, session).

(** [Data]: take the message from [r] and send it.  The answer comes
    with the session, the reader and the world as the call leaves
    them. *)
Definition Data {S : Type} (client : Client S) (session : smtpSession) (r : Reader) (w : World S)
  : option error * smtpSession * Reader * World S :=
  if String.eqb (fromAddrID session) EmptyString then (Some ErrInvalidReturnPath, session, r, w)
  else if (length (to session) =? 0)%nat then (Some ErrInvalidRecipient, session, r, w)
  else
    match parserNew r with
    | (Err err, r) => (Some (ErrWrapped "failed to create parser" err), session, r, w)
    | (Ok parser, r) =>
        (* If the message contains a sender, use it instead of the one from the return path. *)
        let session :=
          match getMessageSender parser with
          | Some sender =>
              selectFromAddrID (fun email => EqualFold email (sanitizeEmail sender)) session
          | None => session
          end in
        match addrKRs session !! fromAddrID session with
        | None => (Some ErrMissingAddrKey, session, r, w)
        | Some addrKR =>
            match FirstKey addrKR with
            | Err err => (Some (ErrWrapped "failed to get first key" err), session, r, w)
            | Ok firstAddrKR =>
                match sendWithKey client
                        (addrID session) (addrMode session) (userKR session) firstAddrKR
                        (settings session)
                        (sanitizeEmail (default EmptyString (emails session !! fromAddrID session)))
                        (to session) (mapsValues (emails session)) parser w with
                | (Err err, w) => (Some (ErrWrapped "failed to send message" err), session, r, w)
                | (Ok message, w) =>
                    (None, session, r,
                     Enqueue (MessageSent (userID session) (addrID session) (ID message)) w)
                end
            end
        end
    end.

End SendPath.

End SMTP.

(** ** The safe ordered map *)

Module Safe.

Section Map.
Context {K V : Type} `{EqDecision K}.

(** Modelled from the spec: the map type [safe.Map] and its methods,
    which are not among these sources (only their test is).  The model
    follows the design document: keys are unique, entries keep the
    order in which their keys were inserted, an update keeps the
    position, and values are handed to a visitor.  The test builds its map
    from an ordering on keys, of which the design document says nothing;
    it describes the order of the entries as the order of insertion, and
    for the keys of the test the two agree.  The lock is left out:
    every operation runs under it from start to end, so the operations
    of one map happen one after the other.  A visitor is a function on
    the caller's state [A]; an operation that does not call it leaves
    that state as it was. *)
Definition Map : Type := list (K * V).

Definition NewMap : Map := [].

Definition find (k : K) (m : Map) : option V :=
  snd <$> List.find (fun e => bool_decide (fst e = k)) m.

(** [Set]. *)
Fixpoint MapSet (k : K) (v : V) (m : Map) : Map :=
  match m with
  | [] => [(k, v)]
  | (k', v') :: m' => if decide (k' = k) then (k, v) :: m' else (k', v') :: MapSet k v m'
  end.

Definition remove (k : K) (m : Map) : Map :=
  List.filter (fun e => negb (bool_decide (fst e = k))) m.

Definition Has (k : K) (m : Map) : bool :=
  match find k m with Some _ => true | None => false end.

Definition HasFunc (pred : K -> V -> bool) (m : Map) : bool :=
  existsb (fun e => pred (fst e) (snd e)) m.

Definition Get {A} (k : K) (visit : V -> A -> A) (m : Map) (a : A) : bool * A :=
  match find k m with
  | Some v => (true, visit v a)
  | None => (false, a)
  end.

Definition Index {A} (i : Z) (visit : K -> V -> A -> A) (m : Map) (a : A) : bool * A :=
  if (i <? 0)%Z || (Z.of_nat (length m) <=? i)%Z then (false, a)
  else match m !! Z.to_nat i with
       | Some (k, v) => (true, visit k v a)
       | None => (false, a)
       end.

Definition GetDelete {A} (k : K) (visit : V -> A -> A) (m : Map) (a : A) : bool * A * Map :=
  match find k m with
  | Some v => (true, visit v a, remove k m)
  | None => (false, a, m)
  end.

Definition Values {A} (visit : list V -> A -> A) (m : Map) (a : A) : A :=
  visit (m.*2) a.

(** The value of the key [k] replaced where it stands. *)
Definition update (k : K) (v : V) (e : K * V) : K * V :=
  if decide (fst e = k) then (k, v) else e.

(** A history of the map: the sets and deletes made on it. *)
Inductive Op : Type :=
| OpSet (k : K) (v : V)
| OpDelete (k : K).

Definition apply (m : Map) (op : Op) : Map :=
  match op with
  | OpSet k v => MapSet k v m
  | OpDelete k => snd (GetDelete k (fun _ (a : unit) => a) m tt)
  end.

Definition run (ops : list Op) : Map := fold_left apply ops NewMap.

(** The design document's words, read off the history alone: a key
    survives a history when its last operation is a set; it was then
    inserted by the first set after its last delete, and carries the
    value of its last set.  [track k] walks the history with the
    position it is at and, while [k] survives, the position of its
    insertion and its value. *)
Definition track (k : K) (st : nat * option (nat * V)) (op : Op) : nat * option (nat * V) :=
  let '(now, cur) := st in
  (Datatypes.S now,
   match op with
   | OpSet k' v =>
       if decide (k' = k)
       then match cur with
            | Some (at_, _) => Some (at_, v)
            | None => Some (now, v)
            end
       else cur
   | OpDelete k' => if decide (k' = k) then None else cur
   end).

Definition surviving (k : K) (ops : list Op) : option (nat * V) :=
  snd (fold_left (track k) ops (0%nat, None)).

(** The entry the operation [op], made at the position [t], has left
    behind: a set inserts its key when that key survives and [t] is the
    position of its insertion.  [state] tells, for every key, whether it
    survives, since when and with which value. *)
Definition inserted (state : K -> option (nat * V)) (t : nat) (op : Op) : option (K * V) :=
  match op with
  | OpSet k _ =>
      match state k with
      | Some (at_, v) => if decide (at_ = t) then Some (k, v) else None
      | None => None
      end
  | OpDelete _ => None
  end.

Fixpoint collect (state : K -> option (nat * V)) (t : nat) (ops : list Op) : list (K * V) :=
  match ops with
  | [] => []
  | op :: ops' =>
      match inserted state t op with
      | Some entry => entry :: collect state (Datatypes.S t) ops'
      | None => collect state (Datatypes.S t) ops'
      end
  end.

(** The surviving entries of a history in the order of their insertion,
    read off the history from its first operation to its last. *)
Definition survivors (ops : list Op) : list (K * V) :=
  collect (fun k => surviving k ops) 0 ops.

End Map.
Arguments Map K V : clear implicits.
Arguments Op K V : clear implicits.

End Safe.

(** ** A directory kept in memory, to run the send path on *)

Module Fake.
Import SMTP.

(** [strings.EqualFold] as it acts on strings of ASCII bytes, where simple
    case folding identifies exactly the two cases of a letter: the folding
    of the library below, whose addresses are ASCII. *)
Definition toLower (c : ascii) : ascii :=
  let n := nat_of_ascii c in
  if (65 <=? n)%nat && (n <=? 90)%nat then ascii_of_nat (n + 32) else c.

Fixpoint EqualFoldASCII (s t : string) : bool :=
  match s, t with
  | EmptyString, EmptyString => true
  | String a s', String b t' => Ascii.eqb (toLower a) (toLower b) && EqualFoldASCII s' t'
  | _, _ => false
  end.

(** A library in which a message on the wire is just the address of its
    From header. *)
Definition parsed (from : string) : Message :=
  {| MIMEBody := EmptyString; RichBody := EmptyString; PlainBody := EmptyString;
     Attachments := []; MIMEType := "text/plain"; Subject := EmptyString;
     Sender := Some {| Name := EmptyString; Address := from |};
     ToList := []; CCList := []; BCCList := [];
     References := []; ExternalID := EmptyString |}.

Definition allRecipients (m : Message) : list string :=
  addresses (ToList m) ++ addresses (CCList m) ++ addresses (BCCList m).

#[refine] Instance library : Library := {|
  Parser := string;
  KeyRing := unit;
  Key := unit;
  MailSettings := bool;
  AttKeys := unit;
  SendRecipients := list string;
  SendDraftReq := list string;
  InternalIDDomain := "protonmail.internalid";
  parserNew := fun r => (Ok (string_of_list_byte r), []);
  headerFrom := fun parser => parser;
  ParseAddressList := fun s =>
    if String.eqb s EmptyString then Ok [] else Ok [{| Name := EmptyString; Address := s |}];
  attachPublicKeyEnabled := fun settings => settings;
  FirstKey := fun kr => Ok kr;
  GetKey := fun _ _ => Ok tt;
  GetArmoredPublicKey := fun _ => Ok "key";
  publicKeyName := fun _ _ => "publickey";
  AttachPublicKey := fun parser _ _ => parser;
  ParseWithParser := fun parser => Ok (parsed parser);
  createSendReq := fun _ _ _ _ recipients _ => Ok recipients;
  EqualFold := EqualFoldASCII;
  Recipients := allRecipients
|}.
Proof.
  - intros m r Hr. unfold allRecipients. rewrite !elem_of_app in *. tauto.
  - intros m r Hr. exact Hr.
Defined.

#[refine] Instance runtime : GoRuntime := {|
  rangeMap := map_to_list;
  mapsValues := fun m => (map_to_list m).*2
|}.
Proof.
  - intros m. reflexivity.
  - intros m. reflexivity.
Defined.

(** A stored message: its metadata, its external id and its address. *)
Record Stored : Type := {
  meta : MessageMetadata;
  storedExternalID : string;
  storedAddressID : string
}.

Definition keyMatches (filter : Filter) (key value : string) : bool :=
  match filter !! key with
  | Some values => slicesContains values value
  | None => true
  end.

Definition matches (filter : Filter) (m : Stored) : bool :=
  keyMatches filter "ID" (ID (meta m)) &&
  keyMatches filter "ExternalID" (storedExternalID m) &&
  keyMatches filter "AddressID" (storedAddressID m).

Definition client : Client (list Stored) := {|
  GetAllMessageMetadata := fun filter store => (Ok (map meta (List.filter (matches filter) store)), store);
  DeleteMessage := fun id store =>
    (Ok tt, List.filter (fun m => negb (String.eqb (ID (meta m)) id)) store);
  SendDraft := fun draftID _ store => (Ok {| ID := "sent:" +:+ draftID; IsDraft := false |}, store);
  createDraftWithAttachments := fun _ _ parentID store =>
    (Ok ({| ID := "draft"; IsDraft := true |}, tt), store);
  getRecipients := fun _ _ recipients _ store => (Ok recipients, store)
|}.

Definition world (store : list Stored) : World (list Stored) :=
  Build_World store [] [].

Definition session (emails : list (string * string)) (addrID fromAddrID : string) (to : list string)
  : smtpSession :=
  {| userID := "user"; addrID := addrID; addrMode := SplitMode;
     emails := list_to_map emails; settings := false; userKR := tt;
     addrKRs := list_to_map (map (fun e => (fst e, tt)) emails);
     fromAddrID := fromAddrID; to := to |}.

(** The addresses of the user, the options of a plain MAIL command, a
    mailbox with a draft and a message that came from outside, and a
    message with the given sender, To and Cc. *)
Definition owned : list (string * string) := [("a1", "alice@svc"); ("a2", "bob@svc")].

Definition noOptions : MailOptions := {| RequireTLS := false; UTF8 := false; Auth := None |}.

Definition mailbox : list Stored :=
  [ {| meta := {| ID := "abc"; IsDraft := true |};
       storedExternalID := ""; storedAddressID := "a1" |};
    {| meta := {| ID := "M"; IsDraft := false |};
       storedExternalID := "xyz@example.com"; storedAddressID := "a1" |} ].

Definition address (email : string) : MailAddress := {| Name := ""; Address := email |}.

Definition letter (from : string) (toList ccList : list string) : Message :=
  {| MIMEBody := ""; RichBody := ""; PlainBody := "";
     Attachments := []; MIMEType := "text/plain"; Subject := "hi";
     Sender := Some (address from);
     ToList := map address toList; CCList := map address ccList; BCCList := [];
     References := []; ExternalID := "" |}.

End Fake.

(** ** Vocabulary of the statements *)

Module Observe.
Import SMTP.

(** [made P m]: whatever the world, [m] only adds calls to the record,
    each of them satisfying [P], and leaves the event channel alone. *)
Definition made {S : Type} (P : Call -> Prop) {A} (m : M S A) : Prop :=
  forall w, exists new,
    calls (snd (m w)) = calls w ++ new /\ Forall P new /\
    eventCh (snd (m w)) = eventCh w.

(** A query carries the address filter the session asks for: none in
    combined mode, the one address [addrID] in split mode. *)
Definition addressScoped (addrID : string) (addrMode : AddressMode) (c : Call) : Prop :=
  match c with
  | CallGetAllMessageMetadata filter _ =>
      filter !! "AddressID" = if isSplitMode addrMode then Some [addrID] else None
  | CallDeleteMessage _ _ => True
  end.

(** The calls one internal reference gives rise to when the directory
    answers [answer]: the query on its id, then one deletion for every
    draft of the answer, in the order of the answer. *)
Definition internalCalls `{Library} (addrID : string) (addrMode : AddressMode)
           (internal : string) (answer : list MessageMetadata) : list Call :=
  CallGetAllMessageMetadata (metadataFilter "ID" internal addrID addrMode) (Ok answer)
  :: map (fun draft => CallDeleteMessage (ID draft) (Ok tt)) (List.filter IsDraft answer).

(** The parent the answers leave on record: the id of the last message
    among them that is not a draft, or [parentID] when there is none. *)
Definition recorded (parentID : string) (answers : list MessageMetadata) : string :=
  default parentID (ID <$> last (List.filter (fun m => negb (IsDraft m)) answers)).

(** The references the first loop of [getParentID] sorts as internal, with
    the domain trimmed, and as external. *)
Definition internalReferences `{Library} (references : list string) : list string :=
  map (fun ref => TrimSuffix ref ("@" +:+ InternalIDDomain))
      (List.filter (fun ref => Contains ref InternalIDDomain) references).

Definition externalReferences `{Library} (references : list string) : list string :=
  List.filter (fun ref => negb (Contains ref InternalIDDomain)) references.

(** How often the byte [c] occurs in [s]. *)
Fixpoint occurrences (c : ascii) (s : string) : nat :=
  match s with
  | EmptyString => 0
  | String x s' => (if Ascii.eqb x c then 1 else 0) + occurrences c s'
  end.

(** The address the sanitizer checks: the one of the [Sender], or the
    return path when the message has no sender or an empty one. *)
Definition senderAddress (message : Message) (from : string) : string :=
  match Sender message with
  | None => from
  | Some sender => if String.eqb (Address sender) EmptyString then from else Address sender
  end.

(** The design document's reading of a plus tag, "owned_local[+tag]@owned_domain
    preserving any user-supplied plus tag": the tag of an address is what
    stands between the first ['+'] of its local part and the ['@'], and
    [withPlusTag owned tag] is the owned address carrying that tag. *)
Definition plusTag (email : string) : option string :=
  match Split email "@" with
  | [localPart; _] =>
      match Split localPart "+" with
      | _ :: piece :: pieces => Some (String.concat "+" (piece :: pieces))
      | _ => None
      end
  | _ => None
  end.

Definition withPlusTag (owned : string) (tag : option string) : string :=
  match tag, Split owned "@" with
  | Some tag, [ownedLocal; ownedDomain] => ownedLocal +:+ "+" +:+ tag +:+ "@" +:+ ownedDomain
  | _, _ => owned
  end.

End Observe.

(** ** Vocabulary of the further statements *)

Module Reading.
Import SMTP.

(** A byte that the folding of ASCII leaves alone and maps no other byte
    to, as ['@'] and ['+'] are. *)
Definition caseless (c : ascii) : Prop :=
  forall x : ascii, Ascii.eqb (Fake.toLower x) (Fake.toLower c) = Ascii.eqb x c.

(** A list with every repetition of an element left out: what stays is
    the first occurrence of each. *)
Fixpoint firstOccurrences (l : list string) : list string :=
  match l with
  | [] => []
  | x :: l' => x :: List.filter (fun y => negb (String.eqb y x)) (firstOccurrences l')
  end.

(** The recipients of a session as [Rcpt] keeps them: no address twice,
    and never the empty address. *)
Definition tidyRecipients `{Library} (session : smtpSession) : Prop :=
  NoDup (to session) /\ "" ∉ to session.

(** An address the user does not own: it is not empty, and without its
    plus tag it equals none of the owned emails under [strings.EqualFold]. *)
Definition foreign `{Library} (emails : gmap string string) (address : string) : Prop :=
  address <> "" /\
  forall id email, emails !! id = Some email -> EqualFold email (sanitizeEmail address) = false.

(** The parsers [sendWithKey] may hand to [message.ParseWithParser]: the
    one it was given, or that one with a public key attached. *)
Definition handedOver `{Library} (parser p : Parser) : Prop :=
  p = parser \/ exists pubKey name, p = AttachPublicKey parser pubKey name.

(** [traced Q m]: whatever the world, [m] only adds calls to the record,
    and its answer and the calls it added satisfy [Q]. *)
Definition traced {S A : Type} (Q : result A -> list Call -> Prop) (m : M S A) : Prop :=
  forall w, exists new, calls (snd (m w)) = calls w ++ new /\ Q (fst (m w)) new.

(** A call the directory answered without error. *)
Definition answered (c : Call) : Prop :=
  match c with
  | CallGetAllMessageMetadata _ (Ok _) => True
  | CallDeleteMessage _ (Ok _) => True
  | _ => False
  end.

(** The error [getParentID] returns for a call the directory refused. *)
Definition refusal (c : Call) : option error :=
  match c with
  | CallGetAllMessageMetadata _ (Err e) => Some (ErrWrapped "failed to get message metadata" e)
  | CallDeleteMessage _ (Err e) => Some (ErrWrapped "failed to delete message" e)
  | _ => None
  end.

(** A run that stops at the first refusal: with an answer, every call
    was answered; with an error, every call but the last was answered, and
    the error is the one of the last call. *)
Definition stopsAtRefusal {A : Type} (r : result A) (new : list Call) : Prop :=
  match r with
  | Ok _ => Forall answered new
  | Err e => exists before c,
      new = before ++ [c] /\ Forall answered before /\ refusal c = Some e
  end.

Definition isQuery (c : Call) : bool :=
  match c with
  | CallGetAllMessageMetadata _ _ => true
  | CallDeleteMessage _ _ => false
  end.

(** Every deletion among [new] follows, within [new], a query on an id
    whose answer holds a draft of the deleted id. *)
Definition deletionsFollowDrafts (new : list Call) : Prop :=
  forall (before : list Call) (id : string) (answer : result unit) (after : list Call),
    new = before ++ CallDeleteMessage id answer :: after ->
    exists (filter : Filter) (found : list MessageMetadata) (draft : MessageMetadata),
      CallGetAllMessageMetadata filter (Ok found) ∈ before /\
      is_Some (filter !! "ID") /\
      draft ∈ found /\ IsDraft draft = true /\ ID draft = id.

End Reading.

(** ** The send preferences of a recipient *)

Module Contacts.
Import GoStrings.
Import SMTP (result, error).

(** [liteapi.ContactEmail], as far as this package reads it. *)
Record ContactEmail : Type := {
  Email : string;
  ContactID : string
}.

Class Library : Type := {
  KeyRing : Type;
  MailSettings : Type;
  MIMEType : Type;
  PublicKeys : Type;
  RecipientType : Type;
  Contact : Type;
  ContactSettings : Type;
  SendPreferences : Type;
  (** [recType == liteapi.RecipientTypeInternal]. *)
  isInternal : RecipientType -> bool;
  (** [liteapi.ContactSettings{}]. *)
  noContactSettings : ContactSettings;
  (** [contact.GetSettings(userKR, recipient)]. *)
  GetSettings : Contact -> KeyRing -> string -> result ContactSettings;
  (** [buildSendPrefs]. *)
  buildSendPrefs : ContactSettings -> MailSettings -> PublicKeys -> MIMEType -> bool
                   -> result SendPreferences
}.

(** The calls of these functions on the API, as they are made. *)
Inductive Request : Type :=
| AskPublicKeys (recipient : string)
| AskContactEmails (recipient : string)
| AskContact (contactID : string).

Record Client `{Library} (S : Type) : Type := {
  GetPublicKeys : string -> S -> result (PublicKeys * RecipientType) * S;
  GetAllContactEmails : string -> S -> result (list ContactEmail) * S;
  GetContact : string -> S -> result Contact * S
}.
Arguments GetPublicKeys {_ S} _ _ _.
Arguments GetAllContactEmails {_ S} _ _ _.
Arguments GetContact {_ S} _ _ _.

(** A step on the API state and the log of the requests made. *)
Definition Step (S A : Type) : Type := S * list Request -> result A * (S * list Request).

Definition ask {S A : Type} (f : S -> result A * S) (request : Request) : Step S A :=
  fun w => let '(r, s) := f (fst w) in (r, (s, snd w ++ [request])).

Section WithClient.
Context `{Library} {S : Type} (client : Client S).

Definition getContactSettings (userKR : KeyRing) (recipient : string) : Step S ContactSettings :=
  fun w =>
    match ask (GetAllContactEmails client recipient) (AskContactEmails recipient) w with
    | (SMTP.Err err, w) => (SMTP.Err (SMTP.ErrWrapped "failed to get contact data" err), w)
    | (SMTP.Ok contacts, w) =>
        match IndexFunc contacts (fun contact => String.eqb (Email contact) recipient) with
        | None => (SMTP.Ok noContactSettings, w)
        | Some idx =>
            let contactID :=
              ContactID (nth idx contacts {| Email := EmptyString; ContactID := EmptyString |}) in
            match ask (GetContact client contactID) (AskContact contactID) w with
            | (SMTP.Err err, w) => (SMTP.Err (SMTP.ErrWrapped "failed to get contact" err), w)
            | (SMTP.Ok contact, w) => (GetSettings contact userKR recipient, w)
            end
        end
    end.

Definition getSendPrefs (userKR : KeyRing) (settings : MailSettings) (recipient : string)
           (mimeType : MIMEType) : Step S SendPreferences :=
  fun w =>
    match ask (GetPublicKeys client recipient) (AskPublicKeys recipient) w with
    | (SMTP.Err err, w) => (SMTP.Err (SMTP.ErrWrapped "failed to get public keys" err), w)
    | (SMTP.Ok (pubKeys, recType), w) =>
        match getContactSettings userKR recipient w with
        | (SMTP.Err err, w) => (SMTP.Err (SMTP.ErrWrapped "failed to get contact settings" err), w)
        | (SMTP.Ok contactSettings, w) =>
            (buildSendPrefs contactSettings settings pubKeys mimeType (isInternal recType), w)
        end
    end.

End WithClient.

End Contacts.

(** An address book kept in memory: the contact emails, and the settings
    of a contact under its id. *)
Module FakeContacts.
Import Contacts.

Instance library : Library := {|
  KeyRing := unit;
  MailSettings := unit;
  MIMEType := string;
  PublicKeys := list string;
  RecipientType := bool;
  Contact := string;
  ContactSettings := string;
  SendPreferences := string * bool;
  isInternal := fun recType => recType;
  noContactSettings := EmptyString;
  GetSettings := fun contact _ _ => SMTP.Ok contact;
  buildSendPrefs := fun contactSettings _ _ _ internal => SMTP.Ok (contactSettings, internal)
|}.

Definition client : Client (list ContactEmail) := {|
  GetPublicKeys := fun _ book => (SMTP.Ok ([], true), book);
  GetAllContactEmails := fun _ book => (SMTP.Ok book, book);
  GetContact := fun contactID book => (SMTP.Ok ("settings of " +:+ contactID)%string, book)
|}.

Definition book : list ContactEmail :=
  [ {| Email := "Carol@example.com"; ContactID := "c1" |};
    {| Email := "carol@example.com"; ContactID := "c2" |};
    {| Email := "carol@example.com"; ContactID := "c3" |} ].

End FakeContacts.

(** * Properties *)

Import SMTP Observe Reading.

(** ** Facts about the string functions *)

Example Split_at_sign : Split "alice+work@svc" "@" = ["alice+work"; "svc"].
Proof. reflexivity. Qed.

Example Split_without_separator : Split "alice" "+" = ["alice"].
Proof. reflexivity. Qed.

Example Split_of_empty : Split "" "@" = [""].
Proof. reflexivity. Qed.

Example Split_at_both_ends : Split "@a@" "@" = [""; "a"; ""].
Proof. reflexivity. Qed.

Example EqualFold_ignores_case : Fake.EqualFoldASCII "Alice@svc" "alice@SVC" = true.
Proof. reflexivity. Qed.

Example TrimSuffix_present :
  TrimSuffix "abc@protonmail.internalid" "@protonmail.internalid" = "abc".
Proof. reflexivity. Qed.

Example TrimSuffix_absent :
  TrimSuffix "abc@example.com" "@protonmail.internalid" = "abc@example.com".
Proof. reflexivity. Qed.

Lemma slicesContains_elem_of (l : list string) (x : string) :
  slicesContains l x = true <-> x ∈ l.
Proof.
  unfold slicesContains. rewrite existsb_exists. split.
  - intros (y & Hy & Heq). apply String.eqb_eq in Heq. subst y.
    by apply list_elem_of_In.
  - intros Hx. exists x. split; [by apply list_elem_of_In | apply String.eqb_refl].
Qed.

Lemma slicesContains_not_elem_of (l : list string) (x : string) :
  slicesContains l x = false <-> x ∉ l.
Proof.
  rewrite <- slicesContains_elem_of. destruct (slicesContains l x); split; congruence.
Qed.

Lemma filter_none {A} (f : A -> bool) (l : list A) :
  (forall x, x ∈ l -> f x = false) -> List.filter f l = [].
Proof.
  induction l as [| x l IH]; intros Hall; simpl; [done |].
  rewrite (Hall x) by set_solver. apply IH. intros y Hy. apply Hall. set_solver.
Qed.

Lemma elem_of_concat {A} (x : A) (ls : list (list A)) :
  x ∈ concat ls <-> exists l, l ∈ ls /\ x ∈ l.
Proof.
  rewrite list_elem_of_In, in_concat. split; intros (l & Hl & Hx); exists l.
  - by rewrite !list_elem_of_In.
  - by rewrite <- !list_elem_of_In.
Qed.

(** ** The session: [Rcpt], [Mail] and the guards of [Data] *)

Section Session.
Context `{Library} `{GoRuntime}.

Lemma eqb_empty_false (s : string) : s <> "" -> String.eqb s "" = false.
Proof. intros Hs. by apply String.eqb_neq. Qed.

(** C6. [Rcpt] refuses the empty address with the invalid-recipient error
    and leaves the session as it was; any other address is accepted
    without error, and is appended to [to] exactly when it is not in [to]
    already (equality of strings, case and all).  A second [Rcpt] with the
    same argument changes nothing. *)
Theorem Rcpt_appends_unless_present (session : smtpSession) (recipient : string) :
  (recipient = "" -> Rcpt session recipient = (Some ErrInvalidRecipient, session)) /\
  (recipient <> "" ->
     Rcpt session recipient
     = (None, if bool_decide (recipient ∈ to session) then session
              else withTo session (to session ++ [recipient])) /\
     Rcpt (snd (Rcpt session recipient)) recipient = Rcpt session recipient).
Proof.
  split.
  - intros ->. reflexivity.
  - intros Hne.
    assert (Hstep : forall s, Rcpt s recipient
              = (None, if bool_decide (recipient ∈ to s) then s
                       else withTo s (to s ++ [recipient]))).
    { intros s. unfold Rcpt. rewrite (eqb_empty_false _ Hne).
      destruct (slicesContains (to s) recipient) eqn:Hin; simpl.
      - apply slicesContains_elem_of in Hin. by rewrite (bool_decide_eq_true_2 _ Hin).
      - apply slicesContains_not_elem_of in Hin. by rewrite (bool_decide_eq_false_2 _ Hin). }
    split; [apply Hstep |].
    rewrite !Hstep. simpl. f_equal.
    destruct (bool_decide (recipient ∈ to session)) eqn:Hin; simpl.
    + by rewrite Hin.
    + rewrite bool_decide_eq_true_2; [done | set_solver].
Qed.

(** C7. A [Mail] asking for REQUIRETLS, for SMTPUTF8, or naming in AUTH an
    address that is neither empty nor the email of the active address, is
    answered with the not-implemented error, and the session (so
    [fromAddrID] and [to]) is as before the call. *)
Theorem Mail_unsupported_option_frame (session : smtpSession) (from : string) (opts : MailOptions) :
  RequireTLS opts = true \/
  UTF8 opts = true \/
  (exists auth, Auth opts = Some auth /\ auth <> "" /\
                auth <> default "" (emails session !! addrID session)) ->
  Mail session from opts = (Some ErrNotImplemented, session).
Proof.
  intros Hopts. unfold Mail.
  assert (unsupportedOptions session opts = true) as ->; [| done].
  unfold unsupportedOptions.
  destruct (RequireTLS opts); [done |].
  destruct (UTF8 opts); [done |].
  destruct Hopts as [? | [? | (auth & -> & Hne & Hother)]]; [done | done |].
  apply andb_true_iff. split; apply negb_true_iff; by apply String.eqb_neq.
Qed.

(** What the loop of [Mail] and [Data] leaves in [fromAddrID]: the id of
    the last matching entry visited, or the former value. *)
Lemma selectFromAddrID_fold (matches : string -> bool) (entries : list (string * string))
      (session : smtpSession) :
  fold_left
    (fun session '(addrID, email) =>
       if matches email then withFromAddrID session addrID else session)
    entries session
  = withFromAddrID session
      (default (fromAddrID session)
               (fst <$> last (List.filter (fun e => matches (snd e)) entries))).
Proof.
  revert session. induction entries as [| [id email] entries IH]; intros session; simpl.
  - by destruct session.
  - rewrite IH. destruct (matches email) eqn:Hm; simpl; [| done].
    destruct (List.filter _ entries) as [| e rest]; simpl; [done |].
    destruct (last (e :: rest)) eqn:Hlast; [done | by apply last_None in Hlast].
Qed.

Lemma selectFromAddrID_frame (matches : string -> bool) (session : smtpSession) :
  let session' := selectFromAddrID matches session in
  userID session' = userID session /\ addrID session' = addrID session /\
  addrMode session' = addrMode session /\ emails session' = emails session /\
  to session' = to session.
Proof. unfold selectFromAddrID. rewrite selectFromAddrID_fold. simpl. done. Qed.

Lemma selectFromAddrID_no_match (matches : string -> bool) (session : smtpSession) :
  (forall id email, emails session !! id = Some email -> matches email = false) ->
  selectFromAddrID matches session = session.
Proof.
  intros Hnone. unfold selectFromAddrID. rewrite selectFromAddrID_fold.
  assert (List.filter (fun e => matches (snd e)) (rangeMap (emails session)) = []) as ->.
  { apply filter_none. intros [id email] Hin. simpl.
    rewrite rangeMap_perm in Hin.
    apply elem_of_map_to_list in Hin. by apply Hnone in Hin. }
  simpl. by destruct session.
Qed.

(** [Mail] on a fresh return path: when no owned email matches and no
    return path is set, the answer is the invalid-return-path error. *)
Lemma Mail_no_match_fresh (session : smtpSession) (from : string) (opts : MailOptions) :
  unsupportedOptions session opts = false ->
  fromAddrID session = "" ->
  (forall id email, emails session !! id = Some email -> EqualFold from email = false) ->
  Mail session from opts = (Some ErrInvalidReturnPath, session).
Proof.
  intros Hopts Hfresh Hnone. unfold Mail. rewrite Hopts.
  rewrite selectFromAddrID_no_match by done. by rewrite Hfresh.
Qed.

(** [Mail] on a session that holds a return path already: when no owned
    email matches, the answer is [nil] and the former return path stays. *)
Lemma Mail_no_match_stale (session : smtpSession) (from : string) (opts : MailOptions) :
  unsupportedOptions session opts = false ->
  fromAddrID session <> "" ->
  (forall id email, emails session !! id = Some email -> EqualFold from email = false) ->
  Mail session from opts = (None, session).
Proof.
  intros Hopts Hstale Hnone. unfold Mail. rewrite Hopts.
  rewrite selectFromAddrID_no_match by done. by rewrite (eqb_empty_false _ Hstale).
Qed.

(** [Mail] with one matching owned email: its id becomes [fromAddrID],
    whatever order the map is visited in. *)
Lemma Mail_sets_fromAddrID (session : smtpSession) (from : string) (opts : MailOptions)
      (id email : string) :
  unsupportedOptions session opts = false ->
  emails session !! id = Some email ->
  EqualFold from email = true ->
  (forall id' email', emails session !! id' = Some email' ->
                      EqualFold from email' = true -> id' = id) ->
  id <> "" ->
  Mail session from opts = (None, withFromAddrID session id).
Proof.
  intros Hopts Hid Hfold Huniq Hne. unfold Mail. rewrite Hopts.
  unfold selectFromAddrID. rewrite selectFromAddrID_fold.
  set (hits := List.filter (fun e => EqualFold from (snd e)) (rangeMap (emails session))).
  assert (Hhits : forall e, e ∈ hits -> fst e = id).
  { intros [id' email'] Hin. apply list_elem_of_In, List.filter_In in Hin as [Hin Hm].
    apply list_elem_of_In in Hin. rewrite rangeMap_perm in Hin.
    apply elem_of_map_to_list in Hin. simpl in *. eauto. }
  assert (Hin : (id, email) ∈ hits).
  { apply list_elem_of_In, List.filter_In. split; [| done].
    apply list_elem_of_In. rewrite rangeMap_perm. by apply elem_of_map_to_list. }
  destruct (last hits) as [e |] eqn:Hlast.
  - apply last_Some_elem_of, Hhits in Hlast. simpl. rewrite Hlast.
    by rewrite (eqb_empty_false _ Hne).
  - apply last_None in Hlast. rewrite Hlast in Hin. by apply elem_of_nil in Hin.
Qed.

(** [Reset] clears the return path and the recipients, and nothing
    else. *)
Lemma Reset_clears (session : smtpSession) :
  fromAddrID (Reset session) = "" /\ to (Reset session) = [] /\
  Reset session = newSMTPSession (userID session) (addrID session) (addrMode session)
                    (emails session) (settings session) (userKR session) (addrKRs session).
Proof. done. Qed.

(** The recipients of a session never hold an address twice. *)
Lemma Rcpt_NoDup (session : smtpSession) (recipient : string) :
  NoDup (to session) -> NoDup (to (snd (Rcpt session recipient))).
Proof.
  intros Hnodup. unfold Rcpt. destruct (String.eqb recipient ""); [done |].
  destruct (slicesContains (to session) recipient) eqn:Hin; simpl; [done |].
  apply slicesContains_not_elem_of in Hin. apply NoDup_app.
  split; [done |]. split; [| apply NoDup_singleton].
  intros r Hr ->%list_elem_of_singleton. done.
Qed.

End Session.

(** ** Laws of the steps *)

Section StepLaws.
Context {S : Type}.

Lemma bind_Ok {A B} (m : M S A) (k : A -> M S B) (w w' : World S) (b : B) :
  bind m k w = (Ok b, w') ->
  exists a w1, m w = (Ok a, w1) /\ k a w1 = (Ok b, w').
Proof.
  unfold bind. destruct (m w) as [[a | e] w1]; intros Heq; [eauto | discriminate].
Qed.

Lemma wrap_Ok {A} (context : string) (m : M S A) (w w' : World S) (a : A) :
  wrap context m w = (Ok a, w') -> m w = (Ok a, w').
Proof.
  unfold wrap. destruct (m w) as [[a1 | e] w1]; simpl; intros Heq; by simplify_eq.
Qed.

Lemma call_Ok {A} (f : S -> result A * S) (record : result A -> Call) (w w' : World S) (a : A) :
  call f record w = (Ok a, w') ->
  exists s, f (api w) = (Ok a, s) /\
            w' = Build_World s (calls w ++ [record (Ok a)]) (eventCh w).
Proof.
  unfold call. destruct (f (api w)) as [r s]. intros Heq. simplify_eq. eauto.
Qed.

Lemma made_ret P {A} (a : A) : made P (ret a : M S A).
Proof. intros w. exists []. simpl. by rewrite app_nil_r. Qed.

Lemma made_lift P {A} (r : result A) : made P (lift r : M S A).
Proof. intros w. exists []. simpl. by rewrite app_nil_r. Qed.

Lemma made_onAPI P {A} (f : S -> result A * S) : made P (onAPI f).
Proof.
  intros w. exists []. unfold onAPI. destruct (f (api w)). simpl. by rewrite app_nil_r.
Qed.

Lemma made_call (P : Call -> Prop) {A} (f : S -> result A * S) (record : result A -> Call) :
  (forall r, P (record r)) -> made P (call f record).
Proof.
  intros HP w. unfold call. destruct (f (api w)) as [r s]. exists [record r]. simpl.
  split; [done |]. split; [| done]. by constructor.
Qed.

Lemma made_wrap P {A} (context : string) (m : M S A) : made P m -> made P (wrap context m).
Proof.
  intros Hm w. destruct (Hm w) as (new & Hcalls & HP & Hev). exists new.
  unfold wrap. by destruct (m w).
Qed.

Lemma made_bind P {A B} (m : M S A) (k : A -> M S B) :
  made P m -> (forall a, made P (k a)) -> made P (bind m k).
Proof.
  intros Hm Hk w. destruct (Hm w) as (new & Hcalls & HP & Hev). unfold bind.
  destruct (m w) as [[a | e] w1]; simpl in *; [| by exists new].
  destruct (Hk a w1) as (new' & Hcalls' & HP' & Hev'). exists (new ++ new').
  rewrite Hcalls', Hcalls, Hev', Hev, app_assoc. split; [done |]. split; [| done].
  by apply Forall_app.
Qed.

Lemma made_forRange P {A X} (xs : list X) (body : A -> X -> M S A) (a : A) :
  (forall a x, made P (body a x)) -> made P (forRange xs body a).
Proof.
  intros Hbody. revert a. induction xs as [| x xs IH]; intros a; simpl.
  - apply made_ret.
  - apply made_bind; [apply Hbody | apply IH].
Qed.

End StepLaws.

(** ** The filters of the metadata queries *)

Section Filters.
Context `{Library} `{GoRuntime} {S : Type} (client : Client S).

Lemma metadataFilter_AddressID (key value addrID : string) (addrMode : AddressMode) :
  key <> "AddressID" ->
  metadataFilter key value addrID addrMode !! "AddressID"
  = if isSplitMode addrMode then Some [addrID] else None.
Proof.
  intros Hkey. unfold metadataFilter. destruct (isSplitMode addrMode).
  - apply lookup_insert_eq.
  - by apply lookup_singleton_ne.
Qed.

Lemma metadataFilter_key (key value addrID : string) (addrMode : AddressMode) :
  key <> "AddressID" ->
  metadataFilter key value addrID addrMode !! key = Some [value].
Proof.
  intros Hkey. unfold metadataFilter. destruct (isSplitMode addrMode).
  - rewrite lookup_insert_ne by done. apply lookup_singleton_eq.
  - apply lookup_singleton_eq.
Qed.

Lemma getAllMessageMetadata_made (key value addrID : string) (addrMode : AddressMode) :
  key <> "AddressID" ->
  made (addressScoped addrID addrMode)
       (getAllMessageMetadata client (metadataFilter key value addrID addrMode)).
Proof.
  intros Hkey. apply made_call. intros r. simpl. by apply metadataFilter_AddressID.
Qed.

Lemma getParentID_made (addrID : string) (addrMode : AddressMode) (references : list string) :
  made (addressScoped addrID addrMode) (getParentID client addrID addrMode references).
Proof.
  unfold getParentID. destruct (collectReferences references) as [internal external].
  apply made_bind.
  - apply made_forRange. intros parentID ref. unfold scanInternal.
    apply made_bind; [by apply made_wrap, getAllMessageMetadata_made |].
    intros metadata. apply made_forRange. intros p md. unfold scanMetadata.
    destruct (negb (IsDraft md)); [apply made_ret |].
    apply made_bind; [| intros; apply made_ret].
    apply made_wrap, made_call. by intros r.
  - intros parentID. destruct (_ && _); [| apply made_ret].
    apply made_bind; [by apply made_wrap, getAllMessageMetadata_made |].
    intros [| only [| ? ?]]; apply made_ret.
Qed.

Lemma sendWithKey_made (addrID : string) (addrMode : AddressMode) (userKR addrKR : KeyRing)
      (settings : MailSettings) (from : string) (to emails : list string) (parser : Parser) :
  made (addressScoped addrID addrMode)
       (sendWithKey client addrID addrMode userKR addrKR settings from to emails parser).
Proof.
  unfold sendWithKey.
  apply made_bind.
  { destruct (attachPublicKeyEnabled settings); [| apply made_ret].
    repeat (apply made_bind; [apply made_wrap, made_lift | intros ?]). apply made_ret. }
  intros parser'.
  apply made_bind; [apply made_wrap, made_lift | intros message].
  apply made_bind; [apply made_wrap, made_lift | intros message'].
  apply made_bind; [apply made_wrap, getParentID_made | intros parentID].
  apply made_bind; [apply made_wrap, made_onAPI | intros [draft attKeys]].
  apply made_bind; [apply made_wrap, made_onAPI | intros recipients].
  apply made_bind; [apply made_wrap, made_lift | intros req].
  apply made_bind; [apply made_wrap, made_onAPI | intros res].
  apply made_ret.
Qed.

(** What [Data] leaves in the world: the calls of [sendWithKey], and the
    event of a sent message when, and only when, it answers [nil]. *)
Lemma Data_world (session : smtpSession) (r : Reader) (w : World S) :
  let '(err, session', _, w') := Data client session r w in
  addrID session' = addrID session /\ userID session' = userID session /\
  addrMode session' = addrMode session /\
  (exists new, calls w' = calls w ++ new /\
               Forall (addressScoped (addrID session) (addrMode session)) new) /\
  match err with
  | None => exists messageID,
      eventCh w' = eventCh w ++ [MessageSent (userID session) (addrID session) messageID]
  | Some _ => eventCh w' = eventCh w
  end.
Proof.
  assert (Hnone : exists new : list Call,
             calls w = calls w ++ new /\
             Forall (addressScoped (addrID session) (addrMode session)) new).
  { exists []. by rewrite app_nil_r. }
  unfold Data.
  destruct (String.eqb (fromAddrID session) ""); [done |].
  destruct (length (to session) =? 0)%nat; [done |].
  destruct (parserNew r) as [[parser | e] r']; [| done].
  set (session' := match getMessageSender parser with
                   | Some sender => selectFromAddrID _ session
                   | None => session
                   end).
  assert (Hframe : userID session' = userID session /\ addrID session' = addrID session /\
                   addrMode session' = addrMode session /\ emails session' = emails session /\
                   to session' = to session).
  { subst session'. destruct (getMessageSender parser); [apply selectFromAddrID_frame | done]. }
  destruct Hframe as (Huser & Haddr & Hmode & Hemails & Hto).
  destruct (addrKRs session' !! fromAddrID session') as [addrKR |]; [| done].
  destruct (FirstKey addrKR) as [firstAddrKR | e]; [| done].
  match goal with
  | |- context [sendWithKey client ?a ?b ?c ?d ?e ?f ?g ?h ?i w] =>
      pose proof (sendWithKey_made a b c d e f g h i w) as (new & Hcalls & HP & Hev);
      destruct (sendWithKey client a b c d e f g h i w) as [[message | err] w']
  end; simpl in *; rewrite Haddr, Hmode in HP.
  - rewrite Huser, Haddr. repeat split; eauto. exists (ID message). by rewrite Hev.
  - repeat split; eauto.
Qed.

End Filters.

(** ** The resolver of the parent message *)

Section ParentID.
Context `{Library} `{GoRuntime} {S : Type} (client : Client S).

Lemma collectReferences_from (references internal external : list string) :
  fold_left
    (fun '(internal, external) ref =>
       if Contains ref InternalIDDomain
       then (internal ++ [TrimSuffix ref ("@" +:+ InternalIDDomain)], external)
       else (internal, external ++ [ref]))
    references (internal, external)
  = (internal ++ internalReferences references, external ++ externalReferences references).
Proof.
  revert internal external.
  induction references as [| ref references IH]; intros internal external; simpl.
  - unfold internalReferences, externalReferences. simpl. by rewrite !app_nil_r.
  - rewrite (surjective_pairing (if Contains ref InternalIDDomain then _ else _)).
    unfold internalReferences, externalReferences in *. simpl.
    destruct (Contains ref InternalIDDomain); simpl; rewrite IH; by rewrite <- app_assoc.
Qed.

(** The first loop keeps the order of the header on both sides. *)
Lemma collectReferences_sorted (references : list string) :
  collectReferences references = (internalReferences references, externalReferences references).
Proof. unfold collectReferences. by rewrite collectReferences_from. Qed.

Lemma recorded_app (parentID : string) (l1 l2 : list MessageMetadata) :
  recorded parentID (l1 ++ l2) = recorded (recorded parentID l1) l2.
Proof.
  unfold recorded. rewrite List.filter_app, last_app.
  by destruct (last (List.filter _ l2)).
Qed.

Lemma recorded_cons (parentID : string) (m : MessageMetadata) (l : list MessageMetadata) :
  recorded parentID (m :: l) = recorded (if IsDraft m then parentID else ID m) l.
Proof.
  unfold recorded. simpl. destruct (IsDraft m); simpl; [done |].
  destruct (List.filter _ l) as [| e rest]; simpl; [done |].
  destruct (last (e :: rest)) eqn:Hlast; [done | by apply last_None in Hlast].
Qed.

Lemma recorded_all_drafts (parentID : string) (l : list MessageMetadata) :
  Forall (fun m => IsDraft m = true) l -> recorded parentID l = parentID.
Proof.
  intros Hall. unfold recorded. rewrite filter_none; [done |].
  intros m Hm. rewrite Forall_forall in Hall. by rewrite (Hall m Hm).
Qed.

Lemma scanMetadata_loop (metadata : list MessageMetadata) (parentID parentID' : string)
      (w w' : World S) :
  forRange metadata (scanMetadata client) parentID w = (Ok parentID', w') ->
  calls w' = calls w ++ map (fun draft => CallDeleteMessage (ID draft) (Ok tt))
                            (List.filter IsDraft metadata) /\
  parentID' = recorded parentID metadata.
Proof.
  revert parentID w. induction metadata as [| md metadata IH]; intros parentID w; simpl.
  - unfold ret. intros Heq. simplify_eq. by rewrite app_nil_r.
  - intros Hrun. apply bind_Ok in Hrun as (p1 & w1 & Hstep & Hrest).
    apply IH in Hrest as [Hcalls Hparent]. unfold scanMetadata in Hstep.
    rewrite recorded_cons. destruct (IsDraft md); simpl in *.
    + apply bind_Ok in Hstep as ([] & w2 & Hdel & Hret).
      apply wrap_Ok, call_Ok in Hdel as (s & _ & ->).
      unfold ret in Hret. simplify_eq. simpl in Hcalls.
      by rewrite Hcalls, <- app_assoc.
    + unfold ret in Hstep. by simplify_eq.
Qed.

Lemma scanInternal_loop (addrID : string) (addrMode : AddressMode) (internal : list string)
      (parentID parentID' : string) (w w' : World S) :
  forRange internal (scanInternal client addrID addrMode) parentID w = (Ok parentID', w') ->
  exists answers : list (list MessageMetadata),
    length answers = length internal /\
    calls w' = calls w ++ concat (zip_with (internalCalls addrID addrMode) internal answers) /\
    parentID' = recorded parentID (concat answers).
Proof.
  revert parentID w. induction internal as [| ref internal IH]; intros parentID w; simpl.
  - unfold ret. intros Heq. simplify_eq. exists []. simpl. by rewrite app_nil_r.
  - intros Hrun. apply bind_Ok in Hrun as (p1 & w1 & Hstep & Hrest).
    apply IH in Hrest as (answers & Hlen & Hcalls & ->).
    unfold scanInternal in Hstep. apply bind_Ok in Hstep as (answer & w2 & Hget & Hscan).
    apply wrap_Ok, call_Ok in Hget as (s & _ & ->).
    apply scanMetadata_loop in Hscan as [Hcalls1 ->]. simpl in Hcalls1.
    exists (answer :: answers). simpl. split; [by rewrite Hlen |]. split.
    + rewrite Hcalls, Hcalls1. unfold internalCalls. simpl.
      by rewrite <- !app_assoc.
    + by rewrite recorded_app.
Qed.

(** C1, as the code has it.  A run of [getParentID] that comes back
    without error has made exactly these calls.  For each internal reference, in the order of the
    header, one query on its id; each draft of its answer is deleted and
    the scan goes on, each message that is not a draft is put on record as
    the parent.  Then, when the record is still empty and there is an
    external reference, one more query, on the last external reference,
    whose answer is taken as the parent exactly when it holds one message;
    otherwise no further call.  So answers made of drafts alone leave the
    record empty and every one of those drafts is deleted; the parent is
    then empty unless the last external reference resolves to exactly one
    message, and in particular when there is no external reference. *)
Theorem getParentID_resolution (addrID : string) (addrMode : AddressMode)
        (references : list string) (w w' : World S) (parentID : string) :
  getParentID client addrID addrMode references w = (Ok parentID, w') ->
  let internal := internalReferences references in
  let external := externalReferences references in
  exists answers : list (list MessageMetadata),
    length answers = length internal /\
    let scan := concat (zip_with (internalCalls addrID addrMode) internal answers) in
    let found := recorded "" (concat answers) in
    (found = "" -> external <> [] ->
       exists matching : list MessageMetadata,
         calls w' = calls w ++ scan ++
                    [CallGetAllMessageMetadata
                       (metadataFilter "ExternalID" (List.last external "") addrID addrMode)
                       (Ok matching)] /\
         parentID = match matching with [only] => ID only | _ => "" end) /\
    (found <> "" \/ external = [] -> calls w' = calls w ++ scan /\ parentID = found) /\
    (Forall (fun m => IsDraft m = true) (concat answers) ->
       found = "" /\
       (forall draft, draft ∈ concat answers -> CallDeleteMessage (ID draft) (Ok tt) ∈ scan) /\
       (external = [] -> parentID = "")).
Proof.
  intros Hrun internal external. unfold getParentID in Hrun.
  rewrite collectReferences_sorted in Hrun. fold internal external in Hrun.
  clearbody internal external.
  apply bind_Ok in Hrun as (found & w1 & Hscan & Hrest).
  apply scanInternal_loop in Hscan as (answers & Hlen & Hcalls & ->).
  exists answers. split; [done |]. simpl.
  remember (recorded "" (concat answers)) as found eqn:Hrecorded.
  set (scan := concat (zip_with (internalCalls addrID addrMode) internal answers)) in *.
  assert (Hlate : found <> "" \/ external = [] -> calls w' = calls w ++ scan /\ parentID = found).
  { intros Hskip.
    assert (String.eqb found "" && (0 <? length external)%nat = false) as Hno.
    { destruct Hskip as [Hf | ->]; [| apply andb_false_r].
      apply String.eqb_neq in Hf. by rewrite Hf. }
    rewrite Hno in Hrest. unfold ret in Hrest. by simplify_eq. }
  split; [| split; [exact Hlate |]].
  - intros Hf He.
    assert (String.eqb found "" && (0 <? length external)%nat = true) as Hyes.
    { rewrite Hf. by destruct external. }
    rewrite Hyes in Hrest.
    apply bind_Ok in Hrest as (matching & w2 & Hget & Hret).
    apply wrap_Ok, call_Ok in Hget as (s & _ & ->).
    exists matching. split.
    + assert (calls w' = calls w1 ++ [CallGetAllMessageMetadata
                (metadataFilter "ExternalID" (List.last external "") addrID addrMode)
                (Ok matching)]) as ->.
      { destruct matching as [| only [| ? ?]]; unfold ret in Hret; by simplify_eq. }
      by rewrite Hcalls, <- app_assoc.
    + rewrite Hf in Hret.
      destruct matching as [| only [| ? ?]]; unfold ret in Hret; by simplify_eq.
  - intros Hdrafts.
    assert (Hempty : found = "") by (rewrite Hrecorded; by apply recorded_all_drafts).
    split; [done |]. split.
    + intros draft Hdraft. subst scan.
      apply elem_of_concat in Hdraft as (answer & Hanswer & Hin).
      apply list_elem_of_lookup in Hanswer as (i & Hi).
      destruct (lookup_lt_is_Some_2 internal i) as (ref & Href).
      { rewrite <- Hlen. by eapply lookup_lt_Some. }
      apply elem_of_concat. exists (internalCalls addrID addrMode ref answer). split.
      * apply list_elem_of_lookup. exists i. rewrite lookup_zip_with, Href. simpl. by rewrite Hi.
      * unfold internalCalls. apply list_elem_of_further, list_elem_of_fmap.
        exists draft. split; [done |]. apply list_elem_of_In, List.filter_In.
        split; [by apply list_elem_of_In |].
        rewrite Forall_forall in Hdrafts. apply Hdrafts.
        apply elem_of_concat. eauto using list_elem_of_lookup_2.
    + intros He. destruct Hlate as [_ ->]; [by right | done].
Qed.

(** A directory that answers every call lets [getParentID] come back
    with a parent: the resolver itself never fails. *)
Lemma getParentID_returns (addrID : string) (addrMode : AddressMode)
      (references : list string) (w : World S) :
  (forall filter s, exists answer s', GetAllMessageMetadata client filter s = (Ok answer, s')) ->
  (forall id s, exists s', DeleteMessage client id s = (Ok tt, s')) ->
  exists parentID w', getParentID client addrID addrMode references w = (Ok parentID, w').
Proof.
  intros Hget Hdel.
  assert (Hmeta : forall metadata p w0, exists p' w0',
             forRange metadata (scanMetadata client) p w0 = (Ok p', w0')).
  { induction metadata as [| md metadata IH]; intros p w0; simpl; [by eexists _, _ |].
    unfold bind, scanMetadata. destruct (IsDraft md); simpl; [| apply IH].
    unfold bind, wrap, deleteMessage, call.
    destruct (Hdel (ID md) (api w0)) as (s' & ->). simpl. apply IH. }
  assert (Hint : forall internal p w0, exists p' w0',
             forRange internal (scanInternal client addrID addrMode) p w0 = (Ok p', w0')).
  { induction internal as [| ref internal IH]; intros p w0; simpl; [by eexists _, _ |].
    unfold bind at 1. unfold scanInternal at 1. unfold bind, wrap, getAllMessageMetadata, call.
    destruct (Hget (metadataFilter "ID" ref addrID addrMode) (api w0)) as (answer & s' & ->).
    simpl.
    match goal with
    | |- context [forRange answer (scanMetadata client) p ?w1] =>
        destruct (Hmeta answer p w1) as (p1 & w2 & ->)
    end. apply IH. }
  unfold getParentID. destruct (collectReferences references) as [internal external].
  unfold bind at 1. destruct (Hint internal "" w) as (p & w1 & ->).
  destruct (_ && _); [| by eexists _, _].
  unfold bind, wrap, getAllMessageMetadata, call.
  match goal with
  | |- context [GetAllMessageMetadata client ?f ?s] =>
      destruct (Hget f s) as (answer & s' & ->)
  end. simpl.
  destruct answer as [| only [| ? ?]]; by eexists _, _.
Qed.

End ParentID.

(** ** [Data]: the guards, the queries and the event *)

Section DataProps.
Context `{Library} `{GoRuntime} {S : Type} (client : Client S).

Lemma addressScoped_filter (addrID : string) (addrMode : AddressMode)
      (filter : Filter) (answer : result (list MessageMetadata)) :
  addressScoped addrID addrMode (CallGetAllMessageMetadata filter answer) ->
  (is_Some (filter !! "AddressID") <-> addrMode = SplitMode) /\
  (forall values, filter !! "AddressID" = Some values -> values = [addrID]).
Proof.
  simpl. intros ->. destruct addrMode; simpl.
  - split; [| done]. split; [by intros [? ?] | done].
  - split; [by eauto |]. intros values Heq. by simplify_eq.
Qed.

(** C8. Every metadata query of [getParentID], on an internal reference
    or on the last external one, carries the key [AddressID] in its
    filter exactly when the address mode is split, and then with the one
    value [activeID]; [Data] runs the resolver with the address mode and the
    active address of the session, so the same holds of every query a
    [Data] makes, for [addrMode session] and [addrID session]. *)
Theorem metadata_queries_address_filter
        (activeID : string) (mode : AddressMode) (references : list string) (w : World S)
        (session : smtpSession) (r : Reader) :
  (exists new,
      calls (snd (getParentID client activeID mode references w)) = calls w ++ new /\
      forall filter answer,
        CallGetAllMessageMetadata filter answer ∈ new ->
        (is_Some (filter !! "AddressID") <-> mode = SplitMode) /\
        (forall values, filter !! "AddressID" = Some values -> values = [activeID])) /\
  (exists new,
      calls (snd (Data client session r w)) = calls w ++ new /\
      forall filter answer,
        CallGetAllMessageMetadata filter answer ∈ new ->
        (is_Some (filter !! "AddressID") <-> addrMode session = SplitMode) /\
        (forall values, filter !! "AddressID" = Some values -> values = [addrID session])).
Proof.
  split.
  - destruct (getParentID_made client activeID mode references w) as (new & Hcalls & HP & _).
    exists new. split; [done |]. intros filter answer Hin.
    rewrite Forall_forall in HP. apply (addressScoped_filter _ _ _ answer). by apply HP.
  - pose proof (Data_world client session r w) as Hw.
    destruct (Data client session r w) as [[[err session'] r'] w'].
    destruct Hw as (_ & _ & _ & (new & Hcalls & HP) & _).
    exists new. split; [done |]. intros filter answer Hin.
    rewrite Forall_forall in HP. apply (addressScoped_filter _ _ _ answer). by apply HP.
Qed.

(** C4, as the code has it.  [Data] on a session without return path
    answers the invalid-return-path error; on a session with a return path
    and no recipient it answers the invalid-recipient error.  Either way
    the reader comes back as it was passed, and so do the session and the
    world: nothing was read and nothing was sent. *)
Theorem Data_rejects_before_reading (session : smtpSession) (r : Reader) (w : World S) :
  (fromAddrID session = "" ->
     Data client session r w = (Some ErrInvalidReturnPath, session, r, w)) /\
  (fromAddrID session <> "" -> to session = [] ->
     Data client session r w = (Some ErrInvalidRecipient, session, r, w)).
Proof.
  unfold Data. split.
  - by intros ->.
  - intros Hfrom Hto. by rewrite (eqb_empty_false _ Hfrom), Hto.
Qed.

(** C10. A [Data] that answers [nil] has put exactly one event on the
    channel: [MessageSent] for the user of the session and for its active
    address [addrID], which the call does not change.  The address the
    message was sent from, [fromAddrID], plays no part in the event. *)
Theorem Data_event_names_active_address (session session' : smtpSession) (r r' : Reader)
        (w w' : World S) :
  Data client session r w = (None, session', r', w') ->
  addrID session' = addrID session /\
  exists messageID,
    eventCh w' = eventCh w ++ [MessageSent (userID session) (addrID session) messageID].
Proof.
  intros Hrun. pose proof (Data_world client session r w) as Hw. rewrite Hrun in Hw.
  by destruct Hw as (Haddr & _ & _ & _ & Hevent).
Qed.

End DataProps.

(** ** The session on the directory kept in memory *)

Section Scenarios.
#[local] Existing Instances Fake.library Fake.runtime.

Import Fake (owned, noOptions, mailbox, address, letter).

Lemma Rcpt_appends_unless_present_witness :
  let session := Fake.session owned "a1" "a1" ["carol@example.com"] in
  to (snd (Rcpt session "dave@example.com")) = ["carol@example.com"; "dave@example.com"] /\
  Rcpt (snd (Rcpt session "dave@example.com")) "dave@example.com"
  = Rcpt session "dave@example.com".
Proof.
  intros session.
  destruct (Rcpt_appends_unless_present session "dave@example.com") as [_ Hadd].
  destruct Hadd as [Hfirst Hsecond]; [discriminate |].
  split; [by rewrite Hfirst | exact Hsecond].
Defined.

Lemma Mail_unsupported_option_frame_witness :
  let session := Fake.session owned "a1" "" [] in
  Mail session "alice@svc" {| RequireTLS := true; UTF8 := false; Auth := None |}
  = (Some ErrNotImplemented, session).
Proof.
  intros session. apply Mail_unsupported_option_frame. left. reflexivity.
Defined.

(** C5, where the code departs from it.  A session that already holds a
    return path answers [nil] to a [Mail] whose address matches none of
    the owned emails, and goes on with the former return path: the test
    after the loop looks at [fromAddrID], which the loop has not reset. *)
Theorem Mail_keeps_stale_return_path :
  let session := Fake.session owned "a1" "a1" [] in
  let from := "mallory@elsewhere.example" in
  existsb (fun entry => EqualFold from (snd entry)) (map_to_list (emails session)) = false /\
  Mail session from noOptions = (None, session).
Proof. split; vm_compute; reflexivity. Qed.

Lemma Data_without_envelope_counterexample :
  let session := Fake.session owned "a1" "" [] in
  to session = [] /\
  fst (fst (fst (Data Fake.client session [] (Fake.world [])))) = Some ErrInvalidReturnPath /\
  fst (fst (fst (Data Fake.client session [] (Fake.world [])))) <> Some ErrInvalidRecipient.
Proof.
  intros session. split; [reflexivity |]. split; [vm_compute; reflexivity |].
  vm_compute. discriminate.
Qed.

Lemma Data_rejects_before_reading_witness :
  let session := Fake.session owned "a1" "a1" [] in
  let r := list_byte_of_string "alice@svc" in
  Data Fake.client session r (Fake.world []) = (Some ErrInvalidRecipient, session, r, Fake.world []).
Proof.
  intros session r.
  apply (proj2 (Data_rejects_before_reading Fake.client session r (Fake.world []))).
  - discriminate.
  - reflexivity.
Defined.

(** The message of bob@svc goes out over the session of the address
    [a1]: the return path is [a2], the event names [a1]. *)
Lemma Data_event_names_active_address_witness :
  let session := Fake.session owned "a1" "a2" ["carol@example.com"] in
  let out := Data Fake.client session (list_byte_of_string "bob@svc") (Fake.world []) in
  fromAddrID (snd (fst (fst out))) = "a2" /\
  addrID (snd (fst (fst out))) = "a1" /\
  exists messageID, eventCh (snd out) = [MessageSent "user" "a1" messageID].
Proof.
  intros session out. split; [vm_compute; reflexivity |].
  apply (Data_event_names_active_address Fake.client session (snd (fst (fst out)))
           (list_byte_of_string "bob@svc") (snd (fst out)) (Fake.world []) (snd out)).
  vm_compute. reflexivity.
Defined.

(** Reply threading: the internal reference resolves to a draft, which is
    deleted; the external one to the single message [M]. *)
Lemma getParentID_resolution_witness :
  let references := ["abc@protonmail.internalid"; "xyz@example.com"] in
  let out := getParentID Fake.client "a1" SplitMode references (Fake.world mailbox) in
  fst out = Ok "M" /\
  map (fun m => ID (Fake.meta m)) (api (snd out)) = ["M"] /\
  exists answers : list (list MessageMetadata), length answers = 1%nat.
Proof.
  intros references out. split; [vm_compute; reflexivity |].
  split; [vm_compute; reflexivity |].
  destruct (getParentID_resolution Fake.client "a1" SplitMode references
              (Fake.world mailbox) (snd out) "M") as (answers & Hlen & _).
  - vm_compute. reflexivity.
  - exists answers. exact Hlen.
Defined.

(** The same run, read against the sentence "a References list whose
    internal ids all resolve to drafts yields an empty parent": the one
    internal reference resolves to a draft and to nothing else, and the
    parent is [M]. *)
Lemma getParentID_external_parent_counterexample :
  let references := ["abc@protonmail.internalid"; "xyz@example.com"] in
  let out := getParentID Fake.client "a1" SplitMode references (Fake.world mailbox) in
  internalReferences references = ["abc"] /\
  fst (GetAllMessageMetadata Fake.client (metadataFilter "ID" "abc" "a1" SplitMode) mailbox)
  = Ok [{| ID := "abc"; IsDraft := true |}] /\
  CallDeleteMessage "abc" (Ok tt) ∈ calls (snd out) /\
  fst out = Ok "M" /\
  fst out <> Ok "".
Proof.
  intros references out. split; [reflexivity |]. split; [vm_compute; reflexivity |].
  split; [| split].
  - assert (calls (snd out)
            = [CallGetAllMessageMetadata (metadataFilter "ID" "abc" "a1" SplitMode)
                 (Ok [{| ID := "abc"; IsDraft := true |}]);
               CallDeleteMessage "abc" (Ok tt);
               CallGetAllMessageMetadata
                 (metadataFilter "ExternalID" "xyz@example.com" "a1" SplitMode)
                 (Ok [{| ID := "M"; IsDraft := false |}])]) as ->.
    { vm_compute. reflexivity. }
    apply elem_of_cons. right. apply elem_of_cons. by left.
  - vm_compute. reflexivity.
  - vm_compute. discriminate.
Qed.

Lemma metadata_queries_address_filter_witness :
  let references := ["abc@protonmail.internalid"; "xyz@example.com"] in
  let out := getParentID Fake.client "a1" SplitMode references (Fake.world mailbox) in
  exists new, calls (snd out) = new /\ length new = 3%nat /\
    forall filter answer,
      CallGetAllMessageMetadata filter answer ∈ new -> filter !! "AddressID" = Some ["a1"].
Proof.
  intros references out.
  destruct (metadata_queries_address_filter Fake.client "a1" SplitMode references
              (Fake.world mailbox) (Fake.session owned "a1" "" []) [])
    as [(new & Hcalls & Hnew) _].
  exists new. split; [exact Hcalls |]. split.
  - transitivity (length (calls (snd out))).
    + symmetry. exact (f_equal length Hcalls).
    + vm_compute. reflexivity.
  - intros filter answer Hin. destruct (Hnew filter answer Hin) as [Hsome Hvalue].
    destruct (proj2 Hsome eq_refl) as [values Hvalues].
    rewrite Hvalues. f_equal. by apply Hvalue.
Defined.

End Scenarios.

(** ** The sanitizer: recipients *)

(** A part of a list without repetition, taken in order, that holds
    exactly the elements passing a test is the list filtered by the test. *)
Lemma sublist_filter_exact {A} (P : A -> bool) (part whole : list A) :
  part `sublist_of` whole -> NoDup whole ->
  (forall x, x ∈ part <-> x ∈ whole /\ P x = true) ->
  part = List.filter P whole.
Proof.
  induction 1 as [| x part whole Hsub IH | x part whole Hsub IH]; intros Hnodup Hexact.
  - done.
  - apply NoDup_cons in Hnodup as [Hx Hwhole]. simpl.
    assert (P x = true) as ->.
    { apply (Hexact x). apply elem_of_cons. by left. }
    f_equal. apply IH; [done |]. intros y. split.
    + intros Hy. assert (y ∈ whole) as Hin by exact (elem_of_sublist _ _ _ Hy Hsub).
      split; [done |]. apply (Hexact y). apply elem_of_cons. by right.
    + intros [Hy HP]. assert (y ∈ x :: part) as Hin.
      { apply Hexact. split; [apply elem_of_cons; by right | done]. }
      apply elem_of_cons in Hin as [-> | Hin]; done.
  - apply NoDup_cons in Hnodup as [Hx Hwhole]. simpl.
    assert (Hpart : x ∉ part) by (intros Hin; exact (Hx (elem_of_sublist _ _ _ Hin Hsub))).
    destruct (P x) eqn:HP.
    + exfalso. apply Hpart, Hexact. split; [apply elem_of_cons; by left | done].
    + apply IH; [done |]. intros y. split.
      * intros Hy. split; [exact (elem_of_sublist _ _ _ Hy Hsub) | by apply (Hexact y)].
      * intros [Hy HPy]. apply Hexact. split; [apply elem_of_cons; by right | done].
Qed.

Lemma slicesContains_app (l1 l2 : list string) (x : string) :
  slicesContains (l1 ++ l2) x = slicesContains l1 x || slicesContains l2 x.
Proof. unfold slicesContains. apply existsb_app. Qed.

Lemma filter_and {A} (P Q : A -> bool) (l : list A) :
  List.filter P (List.filter Q l) = List.filter (fun x => P x && Q x) l.
Proof.
  induction l as [| x l IH]; simpl; [done |].
  destruct (Q x); simpl; [| by rewrite andb_false_r].
  rewrite andb_true_r. destruct (P x); by rewrite IH.
Qed.

(** Leaving out repetitions and filtering can be done in either order. *)
Lemma firstOccurrences_filter (P : string -> bool) (l : list string) :
  firstOccurrences (List.filter P l) = List.filter P (firstOccurrences l).
Proof.
  induction l as [| x l IH]; simpl; [done |].
  destruct (P x) eqn:HP; simpl.
  - rewrite IH, !filter_and. f_equal. apply List.filter_ext. intros y. apply andb_comm.
  - rewrite IH, filter_and. apply List.filter_ext. intros y.
    destruct (String.eqb y x) eqn:Hy; simpl; [| by rewrite andb_true_r].
    apply String.eqb_eq in Hy as ->. by rewrite HP.
Qed.

Section SanitizeRecipients.
Context `{Library}.

Lemma addBCC_loop (to : list string) (message : Message) :
  let sanitized := fold_left addBCC to message in
  Sender sanitized = Sender message /\
  ToList sanitized = ToList message /\
  CCList sanitized = CCList message /\
  exists added : list string,
    BCCList sanitized
    = BCCList message ++ map (fun r => {| Name := ""; Address := r |}) added /\
    added `sublist_of` to /\
    (forall r, r ∈ added -> r ∉ addresses (ToList message) ++ addresses (CCList message)) /\
    (forall r, r ∈ to -> r ∉ addresses (ToList message) ++ addresses (CCList message) ->
               r ∈ addresses (BCCList sanitized)).
Proof.
  revert message. induction to as [| r to IH]; intros message; simpl.
  - do 3 (split; [done |]). exists []. simpl. rewrite app_nil_r.
    split; [done |]. split; [constructor |].
    split; intros r Hr; by apply elem_of_nil in Hr.
  - specialize (IH (addBCC message r)). simpl in IH.
    destruct IH as (Hsender & Hto & Hcc & added & Hbcc & Hsub & Hfresh & Hcover).
    assert (Hstep : addBCC message r
                    = if slicesContains (Recipients message) r then message
                      else withBCCList message
                             (BCCList message ++ [{| Name := ""; Address := r |}])) by done.
    rewrite Hstep in *. clear Hstep.
    destruct (slicesContains (Recipients message) r) eqn:Hin.
    + do 3 (split; [done |]). exists added.
      split; [done |]. split; [by apply sublist_cons |]. split; [done |].
      intros r' Hr' Hnew. apply elem_of_cons in Hr' as [-> | Hr']; [| by apply Hcover].
      apply slicesContains_elem_of, Recipients_listed in Hin.
      rewrite Hbcc. unfold addresses in *. rewrite fmap_app.
      rewrite !elem_of_app in *. tauto.
    + simpl in *. do 3 (split; [done |]). exists (r :: added).
      split; [by rewrite Hbcc, <- app_assoc |]. split; [by apply sublist_skip |]. split.
      * intros r' Hr'. apply elem_of_cons in Hr' as [-> | Hr']; [| by apply Hfresh].
        apply slicesContains_not_elem_of in Hin. intros Hold. apply Hin.
        by apply Recipients_To_CC.
      * intros r' Hr' Hnew. apply elem_of_cons in Hr' as [-> | Hr']; [| by apply Hcover].
        rewrite Hbcc. unfold addresses. rewrite !fmap_app. set_solver.
Qed.

(** The loop to the letter, for a library whose [Recipients()] lists the
    Bcc addresses as well: appended are the recipients of the envelope
    that no list of the message names, each once, in the order of the
    envelope. *)
Lemma addBCC_loop_exact (to : list string) (message : Message) :
  (forall (m : Message) (r : string), r ∈ addresses (BCCList m) -> r ∈ Recipients m) ->
  BCCList (fold_left addBCC to message)
  = BCCList message
    ++ map (fun r => {| Name := ""; Address := r |})
         (firstOccurrences
            (List.filter
               (fun r => negb (slicesContains
                                 (addresses (ToList message) ++ addresses (CCList message)
                                  ++ addresses (BCCList message)) r))
               to)).
Proof.
  intros Hbcc.
  assert (Hlisted : forall m r,
             slicesContains (Recipients m) r
             = slicesContains (addresses (ToList m) ++ addresses (CCList m)
                               ++ addresses (BCCList m)) r).
  { intros m r. destruct (slicesContains (addresses (ToList m) ++ _) r) eqn:Hin.
    - apply slicesContains_elem_of. apply slicesContains_elem_of in Hin.
      rewrite app_assoc in Hin. apply elem_of_app in Hin as [Hin | Hin].
      + by apply Recipients_To_CC.
      + by apply Hbcc.
    - apply slicesContains_not_elem_of. apply slicesContains_not_elem_of in Hin.
      intros Hr. by apply Hin, Recipients_listed. }
  revert message. induction to as [| r to IH]; intros message; simpl.
  - by rewrite app_nil_r.
  - rewrite IH. unfold addBCC at 1 2 3 4. rewrite Hlisted.
    destruct (slicesContains (addresses (ToList message) ++ _) r) eqn:Hin; simpl; [done |].
    rewrite <- app_assoc. simpl. do 3 f_equal.
    rewrite <- firstOccurrences_filter, filter_and. f_equal.
    apply List.filter_ext. intros y. unfold addresses. rewrite !fmap_app. simpl.
    unfold slicesContains. rewrite !existsb_app. simpl.
    change (Address <$> BCCList message) with (map Address (BCCList message)).
    destruct (existsb (String.eqb y) (map Address (ToList message)));
      destruct (existsb (String.eqb y) (map Address (CCList message)));
      destruct (existsb (String.eqb y) (map Address (BCCList message)));
      by destruct (String.eqb y r).
Qed.

(** What [sanitizeParsedMessage] does to the recipients when it accepts
    the sender. *)
Lemma sanitizeParsedMessage_Ok (message sanitized : Message) (from : string)
      (to emails : list string) :
  sanitizeParsedMessage message from to emails = Ok sanitized ->
  exists sender : MailAddress,
    sanitized
    = fold_left addBCC to
        (withToList (withSender message sender)
           (List.filter (fun addr => slicesContains to (Address addr)) (ToList message))).
Proof.
  unfold sanitizeParsedMessage. destruct (IndexFunc emails _) as [idx |]; [| done].
  intros Heq. simplify_eq. eauto.
Qed.

Lemma kept_addresses (to : list string) (l : list MailAddress) (r : string) :
  r ∈ to ->
  (r ∈ addresses (List.filter (fun addr => slicesContains to (Address addr)) l)
   <-> r ∈ addresses l).
Proof.
  intros Hr. unfold addresses. rewrite !list_elem_of_fmap. split.
  - intros (addr & -> & Hin). exists addr. split; [done |].
    apply list_elem_of_In, List.filter_In in Hin as [Hin _]. by apply list_elem_of_In.
  - intros (addr & -> & Hin). exists addr. split; [done |].
    apply list_elem_of_In, List.filter_In. split; [by apply list_elem_of_In |].
    by apply slicesContains_elem_of.
Qed.

(** C2, as the code has it.  When the sanitizer accepts a message, its
    [ToList] is the header To list restricted to the addresses named in
    the envelope [to], and its [CCList] is untouched.  Its [BCCList] is the
    former one followed by envelope recipients, in envelope order, none of
    which is a To or Cc address of the header, and every envelope
    recipient that is neither a To nor a Cc address of the header is in it
    afterwards.  What is appended is decided by [message.Recipients()]: for
    a library in which it lists the Bcc addresses too, the [BCCList] is
    the former one followed by the envelope recipients that are no To, Cc
    or Bcc address of the header, each once, in the order of their first
    occurrence in the envelope; so a recipient the header names in Bcc is
    not appended again.  For an envelope without repetition and a header
    without Bcc, the [BCCList] is, in every library, the list of the
    envelope recipients that are no To or Cc address; for the envelope
    [a, b, c] and a header with To [a], Cc [b] and no Bcc, it is [c]. *)
Theorem sanitizeParsedMessage_recipients (message sanitized : Message) (from : string)
        (to emails : list string) :
  sanitizeParsedMessage message from to emails = Ok sanitized ->
  ToList sanitized
  = List.filter (fun addr => slicesContains to (Address addr)) (ToList message) /\
  (forall addr, addr ∈ ToList sanitized <-> addr ∈ ToList message /\ Address addr ∈ to) /\
  CCList sanitized = CCList message /\
  (exists added : list string,
      BCCList sanitized
      = BCCList message ++ map (fun r => {| Name := ""; Address := r |}) added /\
      added `sublist_of` to /\
      (forall r, r ∈ added -> r ∉ addresses (ToList message) ++ addresses (CCList message)) /\
      (forall r, r ∈ to -> r ∉ addresses (ToList message) ++ addresses (CCList message) ->
                 r ∈ addresses (BCCList sanitized))) /\
  ((forall (m : Message) (r : string), r ∈ addresses (BCCList m) -> r ∈ Recipients m) ->
   BCCList sanitized
   = BCCList message
     ++ map (fun r => {| Name := ""; Address := r |})
          (firstOccurrences
             (List.filter
                (fun r => negb (slicesContains
                                  (addresses (ToList message) ++ addresses (CCList message)
                                   ++ addresses (BCCList message)) r))
                to))) /\
  (NoDup to -> BCCList message = [] ->
   BCCList sanitized
   = map (fun r => {| Name := ""; Address := r |})
         (List.filter
            (fun r => negb (slicesContains
                              (addresses (ToList message) ++ addresses (CCList message)) r))
            to)) /\
  (forall a b c : string,
      to = [a; b; c] -> c <> a -> c <> b ->
      addresses (ToList message) = [a] -> addresses (CCList message) = [b] ->
      BCCList message = [] ->
      BCCList sanitized = [{| Name := ""; Address := c |}]).
Proof.
  intros Hrun. apply sanitizeParsedMessage_Ok in Hrun as (sender & ->).
  match goal with
  | |- context [fold_left addBCC to ?m] => pose proof (addBCC_loop to m) as Hloop
  end.
  simpl in Hloop. destruct Hloop as (_ & Hto & Hcc & added & Hbcc & Hsub & Hfresh & Hcover).
  assert (Hadded : forall r, r ∈ added ->
            r ∉ addresses (ToList message) ++ addresses (CCList message)).
  { intros r Hr Hold. apply (Hfresh r Hr).
    assert (r ∈ to) as Hin by exact (elem_of_sublist _ _ _ Hr Hsub).
    rewrite elem_of_app in *. rewrite (kept_addresses to _ r Hin). done. }
  assert (Hall : forall r, r ∈ to ->
            r ∉ addresses (ToList message) ++ addresses (CCList message) ->
            r ∈ addresses (BCCList (fold_left addBCC to
                (withToList (withSender message sender)
                   (List.filter (fun addr => slicesContains to (Address addr))
                                (ToList message)))))).
  { intros r Hr Hnew. apply (Hcover r Hr). intros Hold. apply Hnew.
    rewrite elem_of_app in *. by rewrite <- (kept_addresses to _ r Hr). }
  split; [done |]. split.
  { intros addr. rewrite Hto. rewrite list_elem_of_In, List.filter_In.
    by rewrite slicesContains_elem_of, <- list_elem_of_In. }
  split; [done |]. split; [by exists added |].
  split.
  { intros Hlists.
    match goal with
    | |- context [fold_left addBCC to ?m] => rewrite (addBCC_loop_exact to m Hlists)
    end.
    simpl. do 3 f_equal. apply List.filter_ext_in. intros r Hr%list_elem_of_In.
    rewrite !slicesContains_app. do 2 f_equal.
    pose proof (kept_addresses to (ToList message) r Hr) as Hkept.
    rewrite <- !slicesContains_elem_of in Hkept.
    destruct (slicesContains (addresses (ToList message)) r);
      destruct (slicesContains (addresses (List.filter _ (ToList message))) r);
      try done; [by apply Hkept | symmetry; by apply Hkept]. }
  split.
  { intros Hnodup Hnone. rewrite Hbcc, Hnone. simpl. f_equal.
    apply sublist_filter_exact; [done | done |]. intros r. split.
    - intros Hr. split; [exact (elem_of_sublist _ _ _ Hr Hsub) |].
      apply negb_true_iff, slicesContains_not_elem_of. by apply Hadded.
    - intros [Hr Hnew]. apply negb_true_iff, slicesContains_not_elem_of in Hnew.
      specialize (Hall r Hr Hnew). rewrite Hbcc, Hnone in Hall. simpl in Hall.
      unfold addresses in Hall. rewrite <- list_fmap_compose in Hall.
      simpl in Hall. by rewrite list_fmap_id in Hall. }
  intros a b c -> Hca Hcb Ha Hb Hnone.
  rewrite Hbcc, Hnone. simpl. rewrite Ha, Hb in Hadded, Hall. rewrite Hbcc, Hnone in Hall.
  simpl in Hall.
  assert (Hc : c ∈ added).
  { specialize (Hall c). unfold addresses in Hall. rewrite <- list_fmap_compose in Hall.
    simpl in Hall. rewrite list_fmap_id in Hall. apply Hall.
    - rewrite !elem_of_cons. by right; right; left.
    - rewrite !elem_of_cons, elem_of_nil. intros [? | [? | []]]; done. }
  assert (Hnot_a : a ∉ added).
  { intros Hin. apply (Hadded a Hin). rewrite elem_of_app, !list_elem_of_singleton. by left. }
  assert (Hnot_b : b ∉ added).
  { intros Hin. apply (Hadded b Hin). rewrite elem_of_app, !list_elem_of_singleton. by right. }
  repeat (rewrite sublist_cons_r in Hsub). rewrite sublist_nil_r in Hsub.
  destruct Hsub as [[[-> | (? & -> & ->%sublist_nil_r)] | (l1 & -> & Hl1)] | (l1 & -> & Hl1)].
  - by apply elem_of_nil in Hc.
  - done.
  - exfalso. apply Hnot_b. apply elem_of_cons. by left.
  - exfalso. apply Hnot_a. apply elem_of_cons. by left.
Qed.

End SanitizeRecipients.

(** ** The sanitizer: the sender *)

Lemma append_nil (t : string) : "" +:+ t = t.
Proof. reflexivity. Qed.

Lemma append_cons (x : ascii) (s t : string) : String x s +:+ t = String x (s +:+ t).
Proof. reflexivity. Qed.

Lemma append_assoc (s t u : string) : (s +:+ t) +:+ u = s +:+ (t +:+ u).
Proof. induction s as [| x s IH]; [done | by rewrite !append_cons, IH]. Qed.

Lemma occurrences_app (c : ascii) (s t : string) :
  occurrences c (s +:+ t) = occurrences c s + occurrences c t.
Proof.
  induction s as [| x s IH]; [done |]. rewrite append_cons. simpl. rewrite IH. lia.
Qed.

Lemma occurrences_cons_0 (c x : ascii) (s : string) :
  occurrences c (String x s) = 0 -> Ascii.eqb x c = false /\ occurrences c s = 0.
Proof. simpl. destruct (Ascii.eqb x c); [discriminate | done]. Qed.

(** A string without the separator is its own single piece. *)
Lemma Split_none (c : ascii) (s : string) :
  occurrences c s = 0 -> Split s c = [s].
Proof.
  induction s as [| x s IH]; [done |].
  intros [Hx Hs]%occurrences_cons_0. simpl. by rewrite Hx, (IH Hs).
Qed.

(** The first piece ends at the first separator. *)
Lemma Split_app (c : ascii) (l r : string) :
  occurrences c l = 0 -> Split (l +:+ String c r) c = l :: Split r c.
Proof.
  induction l as [| x l IH].
  - intros _. rewrite append_nil. simpl. by rewrite Ascii.eqb_refl.
  - intros [Hx Hl]%occurrences_cons_0. rewrite append_cons. simpl. by rewrite Hx, (IH Hl).
Qed.

Lemma Split_length (c : ascii) (s : string) :
  length (Split s c) = Datatypes.S (occurrences c s).
Proof.
  induction s as [| x s IH]; [done |]. simpl.
  destruct (Ascii.eqb x c); simpl; [by rewrite IH |].
  destruct (Split s c); simpl in *; lia.
Qed.

(** What [Split] leaves of a string: its first piece holds no separator,
    and either is the whole string or is followed by a separator and the
    string the other pieces come from. *)
Lemma Split_cons_inv (c : ascii) (s piece : string) (pieces : list string) :
  Split s c = piece :: pieces ->
  occurrences c piece = 0 /\
  ((pieces = [] /\ s = piece) \/
   (exists rest, s = piece +:+ String c rest /\ Split rest c = pieces)).
Proof.
  revert piece pieces. induction s as [| x s IH]; intros piece pieces; simpl.
  - intros Heq. simplify_eq. split; [done |]. by left.
  - destruct (Ascii.eqb x c) eqn:Hx.
    + intros Heq. simplify_eq. apply Ascii.eqb_eq in Hx as ->. split; [done |].
      right. by exists s.
    + destruct (Split s c) as [| p ps] eqn:Hs; intros Heq; simplify_eq.
      * pose proof (Split_length c s) as Hlen. rewrite Hs in Hlen. simpl in Hlen. lia.
      * destruct (IH p pieces eq_refl) as [Hfree Hshape]. split.
        { simpl. by rewrite Hx, Hfree. }
        destruct Hshape as [[-> ->] | (rest & -> & Hrest)]; [by left |].
        right. exists rest. by rewrite append_cons.
Qed.

Lemma Split_two_inv (c : ascii) (s l d : string) :
  Split s c = [l; d] ->
  s = l +:+ String c d /\ occurrences c l = 0 /\ occurrences c d = 0.
Proof.
  intros Hs. destruct (Split_cons_inv c s l [d] Hs) as [Hl [[? _] | (rest & -> & Hrest)]];
    [done |].
  destruct (Split_cons_inv c rest d [] Hrest) as [Hd [[_ ->] | (rest' & _ & Hnil)]].
  - done.
  - pose proof (Split_length c rest') as Hlen. rewrite Hnil in Hlen. simpl in Hlen. lia.
Qed.

(** The first piece is a piece of every longer string as well. *)
Lemma hd_Split_app (c : ascii) (a b : string) :
  hd "" (Split (a +:+ String c b) c) = hd "" (Split a c).
Proof.
  induction a as [| x a IH].
  - rewrite append_nil. simpl. by rewrite Ascii.eqb_refl.
  - rewrite append_cons. simpl. destruct (Ascii.eqb x c); [done |].
    destruct (Split (a +:+ String c b) c) as [| p ps] eqn:Hab;
      destruct (Split a c) as [| q qs] eqn:Ha; simpl in *; by subst.
Qed.

(** The first piece holds no more of any byte than the string does. *)
Lemma hd_Split_occurrences (c c' : ascii) (s : string) :
  occurrences c' (hd "" (Split s c)) <= occurrences c' s.
Proof.
  induction s as [| x s IH]; simpl; [done |].
  destruct (Ascii.eqb x c); simpl; [lia |].
  destruct (Split s c) as [| p ps]; simpl in *; lia.
Qed.

Lemma hd_Split_free (c : ascii) (s : string) : occurrences c (hd "" (Split s c)) = 0.
Proof.
  destruct (Split s c) as [| p ps] eqn:Hs; [done |].
  by destruct (Split_cons_inv c s p ps Hs) as [Hfree _].
Qed.

Lemma sanitizeEmail_tagged (l t d : string) :
  occurrences "+" l = 0 -> occurrences "@" l = 0 ->
  occurrences "@" t = 0 -> occurrences "@" d = 0 ->
  sanitizeEmail (l +:+ "+" +:+ t +:+ "@" +:+ d) = l +:+ "@" +:+ d.
Proof.
  intros Hpl Hal Hat Had. unfold sanitizeEmail.
  assert (Hlocal : occurrences "@" (l +:+ "+" +:+ t) = 0).
  { rewrite !occurrences_app. simpl. lia. }
  replace (l +:+ "+" +:+ t +:+ "@" +:+ d) with ((l +:+ "+" +:+ t) +:+ String "@" d).
  - rewrite (Split_app _ _ _ Hlocal), (Split_none _ _ Had).
    change (l +:+ "+" +:+ t) with (l +:+ String "+" t). by rewrite (Split_app _ _ _ Hpl).
  - by rewrite append_assoc.
Qed.

Lemma sanitizeEmail_untagged (l d : string) :
  occurrences "+" l = 0 -> occurrences "@" l = 0 -> occurrences "@" d = 0 ->
  sanitizeEmail (l +:+ "@" +:+ d) = l +:+ "@" +:+ d.
Proof.
  intros Hpl Hal Had. unfold sanitizeEmail.
  change (l +:+ "@" +:+ d) with (l +:+ String "@" d).
  by rewrite (Split_app _ _ _ Hal), (Split_none _ _ Had), (Split_none _ _ Hpl).
Qed.

Lemma constructEmail_tagged (l t d ol od : string) :
  occurrences "+" l = 0 -> occurrences "@" l = 0 ->
  occurrences "+" t = 0 -> occurrences "@" t = 0 -> occurrences "@" d = 0 ->
  occurrences "@" ol = 0 -> occurrences "@" od = 0 ->
  constructEmail (l +:+ "+" +:+ t +:+ "@" +:+ d) (ol +:+ "@" +:+ od)
  = ol +:+ "+" +:+ t +:+ "@" +:+ od.
Proof.
  intros Hpl Hal Hpt Hat Had Hol Hod. unfold constructEmail.
  assert (Hlocal : occurrences "@" (l +:+ "+" +:+ t) = 0).
  { rewrite !occurrences_app. simpl. lia. }
  replace (l +:+ "+" +:+ t +:+ "@" +:+ d) with ((l +:+ "+" +:+ t) +:+ String "@" d).
  - rewrite (Split_app _ _ _ Hlocal), (Split_none _ _ Had).
    change (l +:+ "+" +:+ t) with (l +:+ String "+" t).
    rewrite (Split_app _ _ _ Hpl), (Split_none _ _ Hpt).
    change (ol +:+ "@" +:+ od) with (ol +:+ String "@" od).
    by rewrite (Split_app _ _ _ Hol), (Split_none _ _ Hod).
  - by rewrite append_assoc.
Qed.

Lemma constructEmail_untagged (l d owned : string) :
  occurrences "+" l = 0 -> occurrences "@" l = 0 -> occurrences "@" d = 0 ->
  constructEmail (l +:+ "@" +:+ d) owned = owned.
Proof.
  intros Hpl Hal Had. unfold constructEmail.
  change (l +:+ "@" +:+ d) with (l +:+ String "@" d).
  by rewrite (Split_app _ _ _ Hal), (Split_none _ _ Had), (Split_none _ _ Hpl).
Qed.

(** Every other case: a header or an owned email that is not one local
    part and one domain, or a local part of the header that does not hold
    exactly one ['+']. *)
Lemma constructEmail_other (headerEmail addressEmail : string) :
  occurrences "@" headerEmail <> 1 \/
  occurrences "+" (hd "" (Split headerEmail "@")) <> 1 \/
  occurrences "@" addressEmail <> 1 ->
  constructEmail headerEmail addressEmail = addressEmail.
Proof.
  intros Hother. unfold constructEmail.
  pose proof (Split_length "@" headerEmail) as Hheader.
  destruct (Split headerEmail "@") as [| hl [| hd [| ? ?]]]; try done.
  simpl in Hother, Hheader.
  pose proof (Split_length "+" hl) as Hlocal.
  destruct (Split hl "+") as [| base [| tag [| ? ?]]]; try done.
  pose proof (Split_length "@" addressEmail) as Haddress.
  destruct (Split addressEmail "@") as [| ol [| od [| ? ?]]]; try done.
  simpl in Hlocal, Haddress. lia.
Qed.

(** An address with one ['@'] is a local part and a domain; a local part
    with one ['+'] is a base and a tag. *)
Lemma one_separator (c : ascii) (s : string) :
  occurrences c s = 1 ->
  exists l d, s = l +:+ String c d /\ Split s c = [l; d] /\
              occurrences c l = 0 /\ occurrences c d = 0.
Proof.
  intros Hone. pose proof (Split_length c s) as Hlen.
  destruct (Split s c) as [| l [| d [| ? ?]]] eqn:Hsplit; simpl in Hlen; try lia.
  exists l, d. by apply Split_two_inv in Hsplit as (-> & Hl & Hd).
Qed.

Lemma IndexFunc_none {A} (l : list A) (f : A -> bool) :
  (forall x, x ∈ l -> f x = false) -> IndexFunc l f = None.
Proof.
  induction l as [| x l IH]; intros Hall; simpl; [done |].
  rewrite (Hall x) by (apply elem_of_cons; by left).
  rewrite IH; [done |]. intros y Hy. apply Hall, elem_of_cons. by right.
Qed.

Lemma IndexFunc_first (before : list string) (owned : string) (after : list string)
      (f : string -> bool) :
  (forall x, x ∈ before -> f x = false) -> f owned = true ->
  exists idx, IndexFunc (before ++ owned :: after) f = Some idx /\
              nth idx (before ++ owned :: after) "" = owned.
Proof.
  induction before as [| x before IH]; intros Hall Howned; simpl.
  - rewrite Howned. by exists 0.
  - rewrite (Hall x) by (apply elem_of_cons; by left).
    destruct IH as (idx & -> & Hnth); [| done |].
    + intros y Hy. apply Hall, elem_of_cons. by right.
    + by exists (Datatypes.S idx).
Qed.

Section SanitizeSender.
Context `{Library}.

(** C3, as the code has it.  Let [header] be the address of the sender
    (the return path when the message names none).  When no owned email
    equals it, its plus tag stripped, under [strings.EqualFold], the
    sanitizer fails with the address-not-owned error.  Otherwise let
    [owned] be the first owned email that does; the sanitizer accepts the
    message and writes one address as that of the sender.  For a header
    [l+t@d], one ['@'] and one ['+'] in its local part, and an owned email
    [ol@od] with one ['@'], the address written is [ol+t@od]: the local part
    and the domain of the owned email, with the tag of the header.  In
    every other case, so for a header without ['+'] in its local part and
    for a header with two of them or more, the address written is the owned
    email, and a tag of the header is lost.  The two cases leave nothing
    out. *)
Theorem sanitizeParsedMessage_sender (message : Message) (from : string)
        (to emails : list string) :
  let header := senderAddress message from in
  ((forall email, email ∈ emails -> EqualFold email (sanitizeEmail header) = false) ->
   sanitizeParsedMessage message from to emails = Err (ErrAddressNotOwned header)) /\
  (forall (before : list string) (owned : string) (after : list string),
      emails = before ++ owned :: after ->
      (forall email, email ∈ before -> EqualFold email (sanitizeEmail header) = false) ->
      EqualFold owned (sanitizeEmail header) = true ->
      exists (sanitized : Message) (written : string),
        sanitizeParsedMessage message from to emails = Ok sanitized /\
        Address <$> Sender sanitized = Some written /\
        (forall l t d ol od : string,
            header = l +:+ "+" +:+ t +:+ "@" +:+ d ->
            owned = ol +:+ "@" +:+ od ->
            occurrences "+" l = 0 -> occurrences "@" l = 0 ->
            occurrences "+" t = 0 -> occurrences "@" t = 0 -> occurrences "@" d = 0 ->
            occurrences "@" ol = 0 -> occurrences "@" od = 0 ->
            written = ol +:+ "+" +:+ t +:+ "@" +:+ od) /\
        (occurrences "@" header <> 1 \/
         occurrences "+" (hd "" (Split header "@")) <> 1 \/
         occurrences "@" owned <> 1 ->
         written = owned) /\
        (occurrences "@" header = 1 ->
         occurrences "+" (hd "" (Split header "@")) = 1 ->
         occurrences "@" owned = 1 ->
         exists l t d ol od : string,
           header = l +:+ "+" +:+ t +:+ "@" +:+ d /\
           owned = ol +:+ "@" +:+ od /\
           occurrences "+" l = 0 /\ occurrences "@" l = 0 /\
           occurrences "+" t = 0 /\ occurrences "@" t = 0 /\ occurrences "@" d = 0 /\
           occurrences "@" ol = 0 /\ occurrences "@" od = 0)).
Proof.
  intros header.
  assert (Hsender : exists sender,
             Address sender = header /\
             sanitizeParsedMessage message from to emails
             = match IndexFunc emails (fun email => EqualFold email (sanitizeEmail header)) with
               | None => Err (ErrAddressNotOwned header)
               | Some idx =>
                   Ok (fold_left addBCC to
                         (withToList
                            (withSender message
                               (withAddress sender (constructEmail header (nth idx emails ""))))
                            (List.filter (fun addr => slicesContains to (Address addr))
                                         (ToList message))))
               end).
  { unfold sanitizeParsedMessage, header, senderAddress.
    destruct (Sender message) as [sender |].
    - destruct (String.eqb (Address sender) "") eqn:Hempty.
      + by exists (withAddress sender from).
      + by exists sender.
    - by exists {| Name := ""; Address := from |}. }
  destruct Hsender as (sender & Haddress & ->).
  split.
  - intros Hnone. by rewrite IndexFunc_none.
  - intros before owned after -> Hbefore Howned.
    destruct (IndexFunc_first before owned after
                (fun email => EqualFold email (sanitizeEmail header)) Hbefore Howned)
      as (idx & -> & ->).
    eexists _, (constructEmail header owned). split; [done |]. split.
    { match goal with
      | |- context [fold_left addBCC to ?m] =>
          destruct (addBCC_loop to m) as (-> & _)
      end.
      done. }
    clearbody header. clear. split; [| split].
    + intros l t d ol od -> -> Hpl Hal Hpt Hat Had Hol Hod.
      by apply constructEmail_tagged.
    + apply constructEmail_other.
    + intros Hheader Hlocal Haddress.
      apply one_separator in Hheader as (hl & d & -> & Hsplit & Hhl & Hd).
      rewrite Hsplit in Hlocal. simpl in Hlocal.
      apply one_separator in Hlocal as (l & t & -> & _ & Hl & Ht).
      apply one_separator in Haddress as (ol & od & -> & _ & Hol & Hod).
      rewrite occurrences_app in Hhl. simpl in Hhl.
      exists l, t, d, ol, od. rewrite append_assoc. split_and!; try done; lia.
Qed.

End SanitizeSender.

(** ** The sanitizer on concrete messages *)

Section SanitizeScenarios.
#[local] Existing Instances Fake.library Fake.runtime.

Import Fake (owned, noOptions, mailbox, address, letter).

(** BCC synthesis: envelope [a, b, c], header To [a] and Cc [b]. *)
Lemma sanitizeParsedMessage_recipients_witness :
  let to := ["a@example.com"; "b@example.com"; "c@example.com"] in
  let message := letter "alice@svc" ["a@example.com"] ["b@example.com"] in
  exists sanitized,
    sanitizeParsedMessage message "alice@svc" to ["alice@svc"] = Ok sanitized /\
    BCCList sanitized = [address "c@example.com"].
Proof.
  intros to message. eexists. split; [vm_compute; reflexivity |].
  destruct (sanitizeParsedMessage_recipients (H := Fake.library) message _ "alice@svc" to
              ["alice@svc"] eq_refl) as (_ & _ & _ & _ & Hexact & _).
  apply Hexact.
  intros m r Hr. simpl. unfold Fake.allRecipients. rewrite !elem_of_app. by right; right.
Defined.

(** A recipient of the envelope that the header names in Bcc, and
    neither in To nor in Cc: the sanitizer appends nothing, the [BCCList]
    stays as it was, where the claim has the recipient appended. *)
Lemma header_bcc_not_appended_counterexample :
  let to := ["a@example.com"; "c@example.com"] in
  let message :=
    withBCCList (letter "alice@svc" ["a@example.com"] []) [address "c@example.com"] in
  "c@example.com" ∈ to /\
  ("c@example.com" ∉ addresses (ToList message) ++ addresses (CCList message)) /\
  exists sanitized,
    sanitizeParsedMessage message "alice@svc" to ["alice@svc"] = Ok sanitized /\
    BCCList sanitized = BCCList message /\
    BCCList sanitized <> BCCList message ++ [address "c@example.com"].
Proof.
  intros to message. split; [apply elem_of_cons; right; apply elem_of_cons; by left |].
  split.
  - simpl. intros Hin. apply list_elem_of_singleton in Hin. discriminate.
  - eexists. split; [vm_compute; reflexivity |]. split; [reflexivity |]. discriminate.
Qed.

(** Plus-tag preservation: header [alice+work@svc], owned [Alice@svc]. *)
Lemma sanitizeParsedMessage_sender_witness :
  let message := letter "alice+work@svc" [] [] in
  exists sanitized,
    sanitizeParsedMessage message "alice@svc" [] ["Bob@svc"; "Alice@svc"] = Ok sanitized /\
    Address <$> Sender sanitized = Some "Alice+work@svc".
Proof.
  intros message.
  destruct (sanitizeParsedMessage_sender message "alice@svc" [] ["Bob@svc"; "Alice@svc"])
    as [_ Howned].
  destruct (Howned ["Bob@svc"] "Alice@svc" [])
    as (sanitized & written & Hrun & Hsender & Htagged & _).
  - reflexivity.
  - intros email Hin. apply list_elem_of_singleton in Hin as ->. reflexivity.
  - reflexivity.
  - exists sanitized. split; [exact Hrun |]. rewrite Hsender. f_equal.
    apply (Htagged "alice" "work" "svc" "Alice" "svc"); reflexivity.
Defined.

(** A local part with two ['+']: the sanitizer accepts the sender as
    [alice@svc] with the tag [a+b] stripped, and rewrites it to the owned
    email without any tag. *)
Lemma plus_tag_dropped_counterexample :
  let header := "alice+a+b@svc" in
  let owned := "Alice@svc" in
  EqualFold owned (sanitizeEmail header) = true /\
  withPlusTag owned (plusTag header) = "Alice+a+b@svc" /\
  exists sanitized,
    sanitizeParsedMessage (letter header [] []) "alice@svc" [] [owned] = Ok sanitized /\
    Address <$> Sender sanitized = Some "Alice@svc" /\
    Address <$> Sender sanitized <> Some (withPlusTag owned (plusTag header)).
Proof.
  intros header owned. split; [reflexivity |]. split; [reflexivity |].
  eexists. split; [vm_compute; reflexivity |]. split; [reflexivity |].
  vm_compute. discriminate.
Qed.

End SanitizeScenarios.

(** ** The safe ordered map *)

Section SafeMap.
Import Safe.
Context {K V : Type} `{EqDecision K}.
Implicit Types (m : Map K V) (ops : list (Op K V)) (k : K) (v : V).

(** *** The operations on the entries *)

Lemma find_None k m : find k m = None <-> k ∉ m.*1.
Proof.
  unfold find. induction m as [| [k' v'] m IH]; simpl.
  - split; [intros _ Hin; by apply elem_of_nil in Hin | done].
  - rewrite not_elem_of_cons. case_bool_decide as Hk; simpl in *.
    + split; [done | intros [Hne _]; by subst].
    + rewrite IH. split; [intros Hm; split; [by intros -> | done] | by intros [_ Hm]].
Qed.

Lemma find_Some k v m : find k m = Some v -> (k, v) ∈ m.
Proof.
  unfold find. induction m as [| [k' v'] m IH]; simpl; [done |].
  case_bool_decide as Hk; simpl in *.
  - intros Heq. simplify_eq. apply elem_of_cons. by left.
  - intros Hm. apply elem_of_cons. right. by apply IH.
Qed.

Lemma remove_absent k m : k ∉ m.*1 -> remove k m = m.
Proof.
  unfold remove. induction m as [| [k' v'] m IH]; simpl; [done |].
  rewrite not_elem_of_cons. intros [Hne Hm].
  rewrite bool_decide_eq_false_2 by (by intros ->). simpl. by rewrite IH.
Qed.

Lemma apply_delete k m : apply m (OpDelete k) = remove k m.
Proof.
  simpl. unfold GetDelete. destruct (find k m) eqn:Hfind; simpl; [done |].
  symmetry. by apply remove_absent, find_None.
Qed.

Lemma elem_of_remove k m (e : K * V) : e ∈ remove k m <-> e.1 <> k /\ e ∈ m.
Proof.
  unfold remove. rewrite list_elem_of_In, List.filter_In, <- list_elem_of_In.
  rewrite negb_true_iff, bool_decide_eq_false. tauto.
Qed.

Lemma keys_remove k k' m : k' ∈ (remove k m).*1 <-> k' <> k /\ k' ∈ m.*1.
Proof.
  rewrite !list_elem_of_fmap. split.
  - intros ([k0 v0] & -> & [Hne Hin]%elem_of_remove). split; [done |]. by exists (k0, v0).
  - intros [Hne ([k0 v0] & -> & Hin)]. exists (k0, v0). split; [done |].
    by apply elem_of_remove.
Qed.

Lemma NoDup_remove k m : NoDup m.*1 -> NoDup (remove k m).*1.
Proof.
  unfold remove. induction m as [| [k' v'] m IH]; simpl; [done |].
  rewrite NoDup_cons. intros [Hnew Hm]. case_bool_decide as Hk; simpl; [by apply IH |].
  apply NoDup_cons. split; [| by apply IH].
  intros Hin. apply Hnew. by apply (keys_remove k k' m) in Hin as [_ Hin].
Qed.

Lemma MapSet_fresh k v m : k ∉ m.*1 -> MapSet k v m = m ++ [(k, v)].
Proof.
  induction m as [| [k' v'] m IH]; simpl; [done |].
  rewrite not_elem_of_cons. intros [Hne Hm].
  destruct (decide (k' = k)) as [-> | _]; [done |]. by rewrite IH.
Qed.

Lemma update_other k v m : k ∉ m.*1 -> map (update k v) m = m.
Proof.
  induction m as [| [k' v'] m IH]; simpl; [done |].
  rewrite not_elem_of_cons. intros [Hne Hm]. rewrite IH by done.
  unfold update. simpl. destruct (decide (k' = k)) as [-> | _]; done.
Qed.

Lemma MapSet_present k v m : NoDup m.*1 -> k ∈ m.*1 -> MapSet k v m = map (update k v) m.
Proof.
  induction m as [| [k' v'] m IH]; simpl.
  - intros _ Hin. by apply elem_of_nil in Hin.
  - rewrite NoDup_cons, elem_of_cons. intros [Hnew Hm] Hin. unfold update at 1. simpl.
    destruct (decide (k' = k)) as [-> | Hne].
    + by rewrite update_other.
    + destruct Hin as [-> | Hin]; [done |]. by rewrite IH.
Qed.

Lemma keys_update k v m : (map (update k v) m).*1 = m.*1.
Proof.
  induction m as [| [k' v'] m IH]; [done |].
  change (map (update k v) ((k', v') :: m)) with (update k v (k', v') :: map (update k v) m).
  rewrite !fmap_cons, IH. f_equal.
  unfold update. simpl. by destruct (decide (k' = k)) as [-> | _].
Qed.

Lemma keys_MapSet k v k' m :
  NoDup m.*1 -> (k' ∈ (MapSet k v m).*1 <-> k' = k \/ k' ∈ m.*1).
Proof.
  intros Hm. destruct (decide (k ∈ m.*1)) as [Hin | Hout].
  - rewrite MapSet_present, keys_update by done. split; [by right | by intros [-> | ?]].
  - rewrite MapSet_fresh, fmap_app, elem_of_app by done. simpl.
    rewrite list_elem_of_singleton. tauto.
Qed.

Lemma NoDup_MapSet k v m : NoDup m.*1 -> NoDup (MapSet k v m).*1.
Proof.
  intros Hm. destruct (decide (k ∈ m.*1)) as [Hin | Hout].
  - rewrite MapSet_present by done. by rewrite keys_update.
  - rewrite MapSet_fresh, fmap_app by done. simpl. apply NoDup_app.
    split; [done |]. split; [| apply NoDup_singleton].
    intros k' Hk' ->%list_elem_of_singleton. done.
Qed.

(** *** The history *)

Lemma track_position k ops (now : nat) (cur : option (nat * V)) :
  fst (fold_left (track k) ops (now, cur)) = now + length ops.
Proof.
  revert now cur. induction ops as [| op ops IH]; intros now cur; simpl; [lia |].
  rewrite IH. lia.
Qed.

Lemma surviving_snoc k ops (op : Op K V) :
  surviving k (ops ++ [op]) = snd (track k (length ops, surviving k ops) op).
Proof.
  unfold surviving. rewrite fold_left_app. simpl.
  rewrite (surjective_pairing (fold_left (track k) ops (0, None))).
  by rewrite track_position.
Qed.

Lemma surviving_set k k' v ops :
  surviving k' (ops ++ [OpSet k v])
  = if decide (k = k')
    then Some (match surviving k' ops with
               | Some (at_, _) => (at_, v)
               | None => (length ops, v)
               end)
    else surviving k' ops.
Proof.
  rewrite surviving_snoc. simpl. destruct (decide (k = k')); [| done].
  by destruct (surviving k' ops) as [[at_ v0] |].
Qed.

Lemma surviving_delete k k' ops :
  surviving k' (ops ++ [OpDelete k]) = if decide (k = k') then None else surviving k' ops.
Proof. by rewrite surviving_snoc. Qed.

Lemma surviving_before k ops (at_ : nat) v :
  surviving k ops = Some (at_, v) -> at_ < length ops.
Proof.
  revert at_ v. induction ops as [| op ops IH] using rev_ind; intros at_ v; [done |].
  rewrite length_app. simpl. destruct op as [k' v' | k'].
  - rewrite surviving_set. destruct (decide (k' = k)) as [-> | _].
    + destruct (surviving k ops) as [[at0 v0] |] eqn:Hold; intros Heq; simplify_eq; [| lia].
      specialize (IH _ _ eq_refl). lia.
    + intros Hold. specialize (IH _ _ Hold). lia.
  - rewrite surviving_delete. destruct (decide (k' = k)); [done |].
    intros Hold. specialize (IH _ _ Hold). lia.
Qed.

Lemma run_snoc ops (op : Op K V) : run (ops ++ [op]) = apply (run ops) op.
Proof. unfold run. by rewrite fold_left_app. Qed.

Lemma run_NoDup ops : NoDup (run ops).*1.
Proof.
  induction ops as [| op ops IH] using rev_ind; [apply NoDup_nil_2 |].
  rewrite run_snoc. destruct op as [k v | k].
  - by apply NoDup_MapSet.
  - rewrite apply_delete. by apply NoDup_remove.
Qed.

(** The keys of the map are the keys that survive its history. *)
Lemma run_keys ops k : k ∈ (run ops).*1 <-> is_Some (surviving k ops).
Proof.
  induction ops as [| op ops IH] using rev_ind.
  - unfold run, surviving. simpl. split; [intros Hin; by apply elem_of_nil in Hin |].
    by intros [? ?].
  - rewrite run_snoc. destruct op as [k' v' | k'].
    + simpl. rewrite keys_MapSet by apply run_NoDup. rewrite surviving_set, IH.
      destruct (decide (k' = k)) as [-> | Hne]; [split; eauto |].
      split; [by intros [-> | ?] | by right].
    + rewrite apply_delete, keys_remove, surviving_delete, IH.
      destruct (decide (k' = k)) as [-> | Hne].
      * split; [by intros [? _] | by intros [? ?]].
      * split; [by intros [_ ?] | intros ?; split; [by intros -> | done]].
Qed.

End SafeMap.

Section SafeMapHistory.
Import Safe.
Context {K V : Type} `{EqDecision K}.
Implicit Types (m : Map K V) (ops : list (Op K V)) (k : K) (v : V).
Implicit Types (state : K -> option (nat * V)).

Lemma collect_app state (t : nat) ops1 ops2 :
  collect state t (ops1 ++ ops2)
  = collect state t ops1 ++ collect state (t + length ops1) ops2.
Proof.
  revert t. induction ops1 as [| op ops1 IH]; intros t; simpl.
  - by rewrite Nat.add_0_r.
  - rewrite IH. replace (Datatypes.S t + length ops1) with (t + Datatypes.S (length ops1)) by lia.
    by destruct (inserted state t op).
Qed.

(** Deleting [k] from the state takes its entry out of the list. *)
Lemma collect_delete state state' k (t : nat) ops :
  (forall k', k' <> k -> state' k' = state k') -> state' k = None ->
  collect state' t ops = remove k (collect state t ops).
Proof.
  intros Hother Hk. revert t. induction ops as [| op ops IH]; intros t; simpl; [done |].
  rewrite IH. destruct op as [k0 v0 | k0]; simpl; [| done].
  destruct (decide (k0 = k)) as [-> | Hne].
  - rewrite Hk. destruct (state k) as [[at_ v1] |]; [| done].
    destruct (decide (at_ = t)); [| done].
    unfold remove. simpl. by rewrite bool_decide_eq_true_2.
  - rewrite (Hother k0 Hne). destruct (state k0) as [[at_ v1] |]; [| done].
    destruct (decide (at_ = t)); [| done].
    unfold remove. simpl. by rewrite bool_decide_eq_false_2.
Qed.

(** A new value for the surviving key [k] changes its entry in place. *)
Lemma collect_update state state' k v (at_ : nat) (v0 : V) (t : nat) ops :
  (forall k', k' <> k -> state' k' = state k') ->
  state k = Some (at_, v0) -> state' k = Some (at_, v) ->
  collect state' t ops = map (update k v) (collect state t ops).
Proof.
  intros Hother Hold Hnew. revert t. induction ops as [| op ops IH]; intros t; simpl; [done |].
  rewrite IH. destruct op as [k0 v1 | k0]; simpl; [| done].
  destruct (decide (k0 = k)) as [-> | Hne].
  - rewrite Hold, Hnew. destruct (decide (at_ = t)); [| done].
    simpl. unfold update at 2. simpl. by rewrite decide_True.
  - rewrite (Hother k0 Hne). destruct (state k0) as [[at0 v2] |]; [| done].
    destruct (decide (at0 = t)); [| done].
    simpl. unfold update at 2. simpl. by rewrite decide_False.
Qed.

(** A key inserted later than the operations read leaves their entries
    as they are. *)
Lemma collect_later state state' k v (now t : nat) ops :
  (forall k', k' <> k -> state' k' = state k') ->
  state k = None -> state' k = Some (now, v) -> t + length ops <= now ->
  collect state' t ops = collect state t ops.
Proof.
  intros Hother Hold Hnew. revert t. induction ops as [| op ops IH]; intros t; simpl; [done |].
  intros Hnow. rewrite IH by lia. destruct op as [k0 v1 | k0]; simpl; [| done].
  destruct (decide (k0 = k)) as [-> | Hne].
  - rewrite Hold, Hnew. destruct (decide (now = t)); [lia | done].
  - by rewrite (Hother k0 Hne).
Qed.

(** The map a history leaves holds the surviving entries of the history
    in the order of their insertion. *)
Lemma run_survivors ops : run ops = survivors ops.
Proof.
  induction ops as [| op ops IH] using rev_ind; [done |].
  rewrite run_snoc. unfold survivors. rewrite collect_app. simpl.
  pose proof (run_NoDup ops) as Hnodup. pose proof (run_keys ops) as Hkeys.
  destruct op as [k v | k].
  - simpl. rewrite surviving_set, decide_True by done.
    destruct (surviving k ops) as [[at_ v0] |] eqn:Hold.
    + pose proof (surviving_before _ _ _ _ Hold) as Hbefore.
      rewrite decide_False, app_nil_r by lia.
      rewrite (collect_update (fun k' => surviving k' ops) _ k v at_ v0).
      * rewrite MapSet_present, IH; [done | done |].
        apply Hkeys. rewrite Hold. eauto.
      * intros k' Hne. rewrite surviving_set. by rewrite decide_False.
      * done.
      * rewrite surviving_set, decide_True by done. by rewrite Hold.
    + rewrite decide_True by done.
      rewrite (collect_later (fun k' => surviving k' ops) _ k v (length ops)).
      * rewrite MapSet_fresh, IH; [done |].
        intros Hin%Hkeys. rewrite Hold in Hin. by destruct Hin.
      * intros k' Hne. rewrite surviving_set. by rewrite decide_False.
      * done.
      * rewrite surviving_set, decide_True by done. by rewrite Hold.
      * simpl. lia.
  - rewrite apply_delete, app_nil_r, IH.
    symmetry. apply collect_delete.
    + intros k' Hne. rewrite surviving_delete. by rewrite decide_False.
    + rewrite surviving_delete. by rewrite decide_True.
Qed.

Lemma Index_lookup {A} m (n : nat) k v (visit : K -> V -> A -> A) (a : A) :
  m !! n = Some (k, v) -> Index (Z.of_nat n) visit m a = (true, visit k v a).
Proof.
  intros Hlookup. unfold Index. pose proof (lookup_lt_Some _ _ _ Hlookup) as Hlt.
  assert ((Z.of_nat n <? 0)%Z || (Z.of_nat (length m) <=? Z.of_nat n)%Z = false) as ->.
  { apply orb_false_iff. split; [apply Z.ltb_ge | apply Z.leb_gt]; lia. }
  by rewrite Nat2Z.id, Hlookup.
Qed.

(** C9. [Index] at a position outside [0, size) answers false and leaves
    the visitor uncalled; [GetDelete] of a key the map does not hold
    answers false, leaves the visitor uncalled and the map as it was; after
    any history of sets and deletes the map holds the surviving entries in
    the order of their insertion, so that [Index] at [n] visits the [n]-th
    of them.  After inserting [a], then [b], then deleting [b], position 0
    still holds [a]. *)
Theorem Index_follows_insertion_order :
  (forall (A : Type) m (i : Z) (visit : K -> V -> A -> A) (a : A),
      (i < 0 \/ Z.of_nat (length m) <= i)%Z -> Index i visit m a = (false, a)) /\
  (forall (A : Type) m k (visit : V -> A -> A) (a : A),
      Has k m = false -> GetDelete k visit m a = (false, a, m)) /\
  (forall ops, run ops = survivors ops) /\
  (forall (A : Type) ops (n : nat) k v (visit : K -> V -> A -> A) (a : A),
      survivors ops !! n = Some (k, v) ->
      Index (Z.of_nat n) visit (run ops) a = (true, visit k v a)) /\
  (forall (A : Type) (ka kb : K) (va vb : V) (visit : K -> V -> A -> A) (a : A),
      ka <> kb ->
      Index 0 visit (run [OpSet ka va; OpSet kb vb; OpDelete kb]) a = (true, visit ka va a)).
Proof.
  split; [| split; [| split; [| split]]].
  - intros A m i visit a Hout. unfold Index.
    assert ((i <? 0)%Z || (Z.of_nat (length m) <=? i)%Z = true) as ->; [| done].
    apply orb_true_iff. destruct Hout; [left; by apply Z.ltb_lt | right; by apply Z.leb_le].
  - intros A m k visit a. unfold Has, GetDelete. by destruct (find k m).
  - apply run_survivors.
  - intros A ops n k v visit a Hn. apply Index_lookup. by rewrite run_survivors.
  - intros A ka kb va vb visit a Hne.
    apply (Index_lookup _ 0).
    change (run [OpSet ka va; OpSet kb vb; OpDelete kb])
      with (apply (apply (apply NewMap (OpSet ka va)) (OpSet kb vb)) (OpDelete kb)).
    rewrite apply_delete.
    assert (apply (apply NewMap (OpSet ka va)) (OpSet kb vb) = [(ka, va); (kb, vb)]) as ->.
    { simpl. by rewrite decide_False. }
    unfold remove. simpl.
    rewrite (bool_decide_eq_false_2 (ka = kb)) by done.
    by rewrite (bool_decide_eq_true_2 (kb = kb)).
Qed.

End SafeMapHistory.

(** The test of the package, step by step, on the map as the design
    document describes it (the ordering on keys the test hands to [NewMap]
    left out).  A visitor notes what it is shown. *)
Example TestSafe_Map :
  let note (k v : string) (seen : list (string * string)) := seen ++ [(k, v)] in
  let value (v : string) (seen : list string) := seen ++ [v] in
  let m0 : Safe.Map string string := Safe.NewMap in
  let m1 := Safe.MapSet "a" "b" m0 in
  let m2 := Safe.MapSet "b" "c" m1 in
  let m3 := snd (Safe.GetDelete "b" value m2 []) in
  Safe.Has "a" m1 = true /\ Safe.Has "b" m1 = false /\
  Safe.Has "b" m2 = true /\
  Safe.HasFunc (fun key _ => String.eqb key "b") m2 = true /\
  Safe.Get "b" value m2 [] = (true, ["c"]) /\
  Safe.Index 0 note m2 [] = (true, [("a", "b")]) /\
  Safe.Index 1 note m2 [] = (true, [("b", "c")]) /\
  Safe.Index 2 note m2 [] = (false, []) /\
  fst (Safe.GetDelete "b" value m2 []) = (true, ["c"]) /\
  Safe.Has "b" m3 = false /\
  Safe.GetDelete "b" value m3 [] = (false, [], m3) /\
  Safe.Index 0 note m3 [] = (true, [("a", "b")]) /\
  Safe.Values (fun vals (_ : list string) => vals) m3 [] = ["b"].
Proof. repeat split; reflexivity. Qed.

Lemma Index_follows_insertion_order_witness :
  let note (k v : string) (seen : list (string * string)) := seen ++ [(k, v)] in
  let history := [Safe.OpSet "a" "b"; Safe.OpSet "b" "c"; Safe.OpDelete "b"] in
  Safe.Index 0 note (Safe.run history) [] = (true, [("a", "b")]) /\
  Safe.Index 1 note (Safe.run history) [] = (false, []) /\
  Safe.GetDelete "b" (fun v seen => seen ++ [v]) (Safe.run history) []
  = (false, [], Safe.run history).
Proof.
  intros note history.
  destruct (@Index_follows_insertion_order string string _)
    as (Hout & Habsent & _ & Hnth & _).
  split; [| split].
  - apply (Hnth _ history 0 "a" "b" note []). reflexivity.
  - apply Hout. right. vm_compute. discriminate.
  - apply Habsent. reflexivity.
Defined.

(** * Further properties of the send path *)

(** ** [sanitizeEmail] and [constructEmail] *)

Lemma sanitizeEmail_cases (email : string) :
  (exists l d, Split email "@" = [l; d] /\
               sanitizeEmail email = hd "" (Split l "+") +:+ "@" +:+ d) \/
  (length (Split email "@") <> 2 /\ sanitizeEmail email = email).
Proof.
  unfold sanitizeEmail. destruct (Split email "@") as [| l [| d [| x rest]]]; simpl.
  - right. split; [lia | done].
  - right. split; [lia | done].
  - left. by exists l, d.
  - right. split; [lia | done].
Qed.

Lemma sanitizeEmail_twice (email : string) :
  sanitizeEmail (sanitizeEmail email) = sanitizeEmail email.
Proof.
  destruct (sanitizeEmail_cases email) as [(l & d & Hsplit & Heq) | [_ Heq]].
  - rewrite Heq. apply Split_two_inv in Hsplit as (_ & Hl & Hd).
    apply sanitizeEmail_untagged.
    + apply hd_Split_free.
    + pose proof (hd_Split_occurrences "+" "@" l). lia.
    + exact Hd.
  - by rewrite !Heq.
Qed.

(** X1. Stripping the tag twice is stripping it once. *)
Theorem sanitizeEmail_idempotent (email : string) :
  sanitizeEmail (sanitizeEmail email) = sanitizeEmail email.
Proof. apply sanitizeEmail_twice. Qed.

(** X2. An address with one ['@'] loses what stands between the first ['+']
    of its local part and the ['@'], and nothing else; an address without
    ['@'], or with several, is left as it is. *)
Theorem sanitizeEmail_strips_tag (email : string) :
  (occurrences "@" email = 1 ->
   exists l rest d : string,
     email = l +:+ rest +:+ "@" +:+ d /\
     sanitizeEmail email = l +:+ "@" +:+ d /\
     occurrences "+" l = 0 /\ occurrences "@" l = 0 /\
     occurrences "@" rest = 0 /\ occurrences "@" d = 0 /\
     (rest = "" \/ exists tag, rest = String "+" tag)) /\
  (occurrences "@" email <> 1 -> sanitizeEmail email = email).
Proof.
  pose proof (Split_length "@" email) as Hlen. split.
  - intros Hone. destruct (sanitizeEmail_cases email) as [(l & d & Hsplit & ->) | [Hno _]];
      [| lia].
    apply Split_two_inv in Hsplit as (-> & Hl & Hd).
    destruct (Split l "+") as [| h pieces] eqn:Hplus.
    { pose proof (Split_length "+" l) as Hl2. rewrite Hplus in Hl2. simpl in Hl2. lia. }
    simpl. destruct (Split_cons_inv "+" l h pieces Hplus) as [Hh [[_ ->] | (tag & -> & _)]].
    + exists h, "", d. rewrite append_nil. split_and!; try done. by left.
    + rewrite occurrences_app in Hl. simpl in Hl.
      exists h, (String "+" tag), d. rewrite append_assoc.
      split_and!; try done; try lia; [simpl; lia |]. right. by exists tag.
  - intros Hmany. destruct (sanitizeEmail_cases email) as [(l & d & Hsplit & _) | [_ ->]];
      [| done].
    rewrite Hsplit in Hlen. simpl in Hlen. lia.
Qed.

(** Whatever the header, the owned email survives the rewriting: the
    rewritten address, stripped of its tag, is the owned email stripped of
    its tag. *)
Lemma sanitizeEmail_constructEmail (headerEmail addressEmail : string) :
  sanitizeEmail (constructEmail headerEmail addressEmail) = sanitizeEmail addressEmail.
Proof.
  unfold constructEmail.
  destruct (Split headerEmail "@") as [| hl [| hd [| ? ?]]] eqn:Hheader; try done.
  destruct (Split hl "+") as [| base [| tag [| ? ?]]] eqn:Hlocal; try done.
  destruct (Split addressEmail "@") as [| ol [| od [| ? ?]]] eqn:Haddress; try done.
  apply Split_two_inv in Hheader as (_ & Hhl & _).
  apply Split_two_inv in Hlocal as (-> & _ & _).
  rewrite occurrences_app in Hhl. simpl in Hhl.
  unfold sanitizeEmail at 2. rewrite Haddress.
  apply Split_two_inv in Haddress as (_ & Hol & Hod).
  unfold sanitizeEmail.
  replace (ol +:+ "+" +:+ tag +:+ "@" +:+ od) with ((ol +:+ String "+" tag) +:+ String "@" od)
    by (by rewrite append_assoc).
  rewrite Split_app by (rewrite occurrences_app; simpl; lia).
  rewrite (Split_none "@" od Hod). by rewrite hd_Split_app.
Qed.

Lemma IndexFunc_Some {A} (l : list A) (f : A -> bool) (idx : nat) (d : A) :
  IndexFunc l f = Some idx -> nth idx l d ∈ l /\ f (nth idx l d) = true.
Proof.
  revert idx. induction l as [| x l IH]; intros idx; simpl; [done |].
  destruct (f x) eqn:Hx.
  - intros Heq. simplify_eq. simpl. split; [apply elem_of_cons; by left | done].
  - destruct (IndexFunc l f) as [i |]; simpl; intros Heq; simplify_eq.
    destruct (IH i eq_refl) as [Hin Hf]. simpl. split; [apply elem_of_cons; by right | done].
Qed.

(** ** The folding of ASCII strings *)

Lemma toLower_at_sign (x : ascii) :
  Ascii.eqb (Fake.toLower x) (Fake.toLower "@") = Ascii.eqb x "@".
Proof. destruct x as [[] [] [] [] [] [] [] []]; reflexivity. Qed.

Lemma toLower_plus_sign (x : ascii) :
  Ascii.eqb (Fake.toLower x) (Fake.toLower "+") = Ascii.eqb x "+".
Proof. destruct x as [[] [] [] [] [] [] [] []]; reflexivity. Qed.

Lemma caseless_at : caseless "@".
Proof. exact toLower_at_sign. Qed.

Lemma caseless_plus : caseless "+".
Proof. exact toLower_plus_sign. Qed.

Lemma caseless_eqb (c a b : ascii) :
  caseless c -> Ascii.eqb (Fake.toLower a) (Fake.toLower b) = true ->
  Ascii.eqb a c = Ascii.eqb b c.
Proof.
  intros Hc Heq%Ascii.eqb_eq. rewrite <- (Hc a), <- (Hc b). by rewrite Heq.
Qed.

Lemma EqualFoldASCII_refl (s : string) : Fake.EqualFoldASCII s s = true.
Proof. induction s as [| a s IH]; simpl; [done |]. by rewrite Ascii.eqb_refl, IH. Qed.

Lemma EqualFoldASCII_sym (s t : string) : Fake.EqualFoldASCII s t = Fake.EqualFoldASCII t s.
Proof.
  revert t. induction s as [| a s IH]; intros [| b t]; simpl; try done.
  by rewrite IH, Ascii.eqb_sym.
Qed.

Lemma EqualFoldASCII_trans (s t u : string) :
  Fake.EqualFoldASCII s t = true -> Fake.EqualFoldASCII t u = true ->
  Fake.EqualFoldASCII s u = true.
Proof.
  revert t u. induction s as [| a s IH]; intros [| b t] [| c u]; simpl; try done.
  intros [Hab Hst]%andb_true_iff [Hbc Htu]%andb_true_iff.
  apply Ascii.eqb_eq in Hab, Hbc. rewrite Hab, Hbc, Ascii.eqb_refl. simpl. by eapply IH.
Qed.

Lemma EqualFoldASCII_app (a a' b b' : string) :
  Fake.EqualFoldASCII a a' = true -> Fake.EqualFoldASCII b b' = true ->
  Fake.EqualFoldASCII (a +:+ b) (a' +:+ b') = true.
Proof.
  revert a'. induction a as [| x a IH]; intros [| x' a']; simpl; try done.
  intros [Hx Ha]%andb_true_iff Hb. by rewrite Hx, IH.
Qed.

(** ASCII strings that differ in case only split at the same places. *)
Lemma Split_EqualFoldASCII (c : ascii) (s t : string) :
  caseless c -> Fake.EqualFoldASCII s t = true ->
  Forall2 (fun p q => Fake.EqualFoldASCII p q = true) (Split s c) (Split t c).
Proof.
  intros Hc. revert t. induction s as [| a s IH]; intros [| b t]; simpl; try done.
  - intros _. by repeat constructor.
  - intros [Hab Hst]%andb_true_iff. rewrite (caseless_eqb c a b Hc Hab).
    specialize (IH t Hst). destruct (Ascii.eqb b c).
    + constructor; [done | exact IH].
    + destruct IH as [| p q ps qs Hpq Hrest].
      * repeat constructor. simpl. by rewrite Hab.
      * constructor; [| done]. simpl. by rewrite Hab, Hpq.
Qed.

(** The laws of folding hold of the folding of ASCII. *)
Lemma Fake_FoldLaws : @FoldLaws Fake.library.
Proof.
  split.
  - exact EqualFoldASCII_refl.
  - exact EqualFoldASCII_sym.
  - exact EqualFoldASCII_trans.
  - intros sep s t [-> | ->].
    + exact (Split_EqualFoldASCII "@" s t caseless_at).
    + exact (Split_EqualFoldASCII "+" s t caseless_plus).
  - intros sep a b c d Hsep Hac Hbd. apply EqualFoldASCII_app; [exact Hac |].
    simpl. rewrite Ascii.eqb_refl. exact Hbd.
Qed.

(** ** Case folding, by its laws *)

Section Folding.
Context `{Library} `{!FoldLaws}.

(** The same test on the other side of a fold. *)
Lemma EqualFold_right (s t u : string) :
  EqualFold t u = true -> EqualFold s t = EqualFold s u.
Proof.
  intros Htu. destruct (EqualFold s u) eqn:Hsu.
  - apply (EqualFold_trans s u t); [done |]. by rewrite EqualFold_sym.
  - destruct (EqualFold s t) eqn:Hst; [| done].
    by rewrite (EqualFold_trans s t u Hst Htu) in Hsu.
Qed.

(** A string equal under folding to one of two pieces has two pieces. *)
Lemma fold_two (sep : ascii) (s t l d : string) :
  sep = "@"%char \/ sep = "+"%char ->
  EqualFold s t = true -> Split t sep = [l; d] ->
  exists sl sd, Split s sep = [sl; sd] /\ EqualFold sl l = true /\ EqualFold sd d = true.
Proof.
  intros Hsep Hfold Hsplit. pose proof (EqualFold_Split sep s t Hsep Hfold) as Hpieces.
  rewrite Hsplit in Hpieces.
  apply Forall2_cons_inv_r in Hpieces as (sl & rest & Hl & Hpieces & ->).
  apply Forall2_cons_inv_r in Hpieces as (sd & rest' & Hd & Hpieces & ->).
  apply Forall2_nil_inv_r in Hpieces as ->. by exists sl, sd.
Qed.

Lemma fold_hd (sep : ascii) (s t : string) :
  sep = "@"%char \/ sep = "+"%char ->
  EqualFold s t = true ->
  EqualFold (hd "" (Split s sep)) (hd "" (Split t sep)) = true.
Proof.
  intros Hsep Hfold. destruct (EqualFold_Split sep s t Hsep Hfold); simpl; [| done].
  apply EqualFold_refl.
Qed.

Lemma sanitizeEmail_fold (email email' : string) :
  EqualFold email email' = true ->
  EqualFold (sanitizeEmail email) (sanitizeEmail email') = true.
Proof.
  intros Hfold.
  pose proof (EqualFold_Split "@" email email' (or_introl eq_refl) Hfold) as Hsplit.
  unfold sanitizeEmail.
  destruct Hsplit as [| l l' ? ? Hl [| d d' ? ? Hd [| ? ? ? ? _ _]]]; try done.
  apply (EqualFold_join "@"); [by left | | exact Hd].
  apply fold_hd; [by right | exact Hl].
Qed.

(** X3. The test of ownership takes header addresses that are equal under
    [strings.EqualFold] alike: their stripped forms are equal under
    folding, and pick the same owned email. *)
Theorem sanitizeEmail_case_insensitive (email email' : string) :
  EqualFold email email' = true ->
  EqualFold (sanitizeEmail email) (sanitizeEmail email') = true /\
  forall emails : list string,
    IndexFunc emails (fun owned => EqualFold owned (sanitizeEmail email))
    = IndexFunc emails (fun owned => EqualFold owned (sanitizeEmail email')).
Proof.
  intros Hfold. pose proof (sanitizeEmail_fold _ _ Hfold) as Hstripped.
  split; [done |]. intros emails.
  induction emails as [| owned emails IH]; simpl; [done |].
  by rewrite (EqualFold_right owned _ _ Hstripped), IH.
Qed.

(** An owned email that matches a stripped address holds no tag itself. *)
Lemma owned_is_stripped (owned email : string) :
  EqualFold owned (sanitizeEmail email) = true -> sanitizeEmail owned = owned.
Proof.
  intros Hfold. destruct (sanitizeEmail_cases email) as [(l & d & Hsplit & Heq) | [Hlen Heq]].
  - rewrite Heq in Hfold. apply Split_two_inv in Hsplit as (_ & Hl & Hd).
    assert (Hfree : occurrences "+" (hd "" (Split l "+")) = 0) by apply hd_Split_free.
    assert (Hat : occurrences "@" (hd "" (Split l "+")) = 0).
    { pose proof (hd_Split_occurrences "+" "@" l). lia. }
    remember (hd "" (Split l "+")) as h eqn:Hh. clear Hh.
    destruct (fold_two "@" owned (h +:+ "@" +:+ d) h d) as (ol & od & Hos & Hol & Hod);
      [by left | exact Hfold | |].
    { change (h +:+ "@" +:+ d) with (h +:+ String "@" d).
      by rewrite (Split_app _ _ _ Hat), (Split_none _ _ Hd). }
    pose proof (EqualFold_Split "+" ol h (or_intror eq_refl) Hol) as Hplus.
    rewrite (Split_none "+" h Hfree) in Hplus.
    apply Forall2_cons_inv_r in Hplus as (x & rest & _ & Hrest & Hsplit).
    apply Forall2_nil_inv_r in Hrest as ->.
    unfold sanitizeEmail. rewrite Hos, Hsplit. simpl.
    apply Split_cons_inv in Hsplit as [_ [[_ ->] | (tail & _ & Hnil)]].
    + by apply Split_two_inv in Hos as (-> & _ & _).
    + pose proof (Split_length "+" tail) as Htail. rewrite Hnil in Htail. simpl in Htail. lia.
  - rewrite Heq in Hfold.
    pose proof (EqualFold_Split "@" owned email (or_introl eq_refl) Hfold) as Hpieces.
    apply Forall2_length in Hpieces. unfold sanitizeEmail.
    destruct (Split owned "@") as [| ol [| od [| ? ?]]]; try done.
Qed.

(** The rewritten address is equal under folding to the header, as long
    as the local part of the header holds at most one ['+']. *)
Lemma constructEmail_fold (headerEmail owned : string) :
  occurrences "+" (hd "" (Split headerEmail "@")) <= 1 ->
  EqualFold owned (sanitizeEmail headerEmail) = true ->
  EqualFold (constructEmail headerEmail owned) headerEmail = true.
Proof.
  intros Hplus Howned. unfold constructEmail.
  destruct (sanitizeEmail_cases headerEmail) as [(l & d & Hsplit & Heq) | [Hlen Heq]].
  - rewrite Hsplit in Hplus |- *. simpl in Hplus.
    apply Split_two_inv in Hsplit as (-> & Hl & Hd).
    pose proof (Split_length "+" l) as Hpieces.
    destruct (Split l "+") as [| base [| tag [| ? ?]]] eqn:Hlocal; simpl in Hpieces; try lia.
    + simpl in Heq. apply Split_cons_inv in Hlocal as [_ [[_ <-] | (? & _ & Hnil)]].
      * rewrite Heq in Howned. exact Howned.
      * pose proof (Split_length "+" x) as Hx. rewrite Hnil in Hx. simpl in Hx. lia.
    + simpl in Heq. apply Split_two_inv in Hlocal as (-> & Hbase & Htag).
      rewrite occurrences_app in Hl. simpl in Hl.
      rewrite Heq in Howned.
      destruct (fold_two "@" owned (base +:+ "@" +:+ d) base d) as (ol & od & Hos & Hol & Hod);
        [by left | exact Howned | |].
      { change (base +:+ "@" +:+ d) with (base +:+ String "@" d).
        rewrite Split_app by lia. by rewrite (Split_none _ _ Hd). }
      rewrite Hos.
      replace (ol +:+ "+" +:+ tag +:+ "@" +:+ od)
        with ((ol +:+ String "+" tag) +:+ String "@" od) by (by rewrite append_assoc).
      apply (EqualFold_join "@"); [by left | | exact Hod].
      apply (EqualFold_join "+"); [by right | exact Hol | apply EqualFold_refl].
  - rewrite Heq in Howned.
    destruct (Split headerEmail "@") as [| l [| d [| ? ?]]]; simpl in Hlen; try done.
Qed.

End Folding.

(** ** More on the sanitizer *)

Section SanitizeMore.
Context `{Library}.

Lemma addBCC_loop_frame (to : list string) (message : Message) :
  let sanitized := fold_left addBCC to message in
  MIMEBody sanitized = MIMEBody message /\ RichBody sanitized = RichBody message /\
  PlainBody sanitized = PlainBody message /\ Attachments sanitized = Attachments message /\
  MIMEType sanitized = MIMEType message /\ Subject sanitized = Subject message /\
  References sanitized = References message /\ ExternalID sanitized = ExternalID message.
Proof.
  revert message. induction to as [| r to IH]; intros message; simpl; [done |].
  specialize (IH (addBCC message r)). simpl in IH.
  destruct IH as (-> & -> & -> & -> & -> & -> & -> & ->).
  unfold addBCC. by destruct (slicesContains (Recipients message) r).
Qed.

Lemma sanitizeParsedMessage_Ok_sender (message sanitized : Message) (from : string)
      (to emails : list string) :
  sanitizeParsedMessage message from to emails = Ok sanitized ->
  exists (idx : nat) (name : string),
    IndexFunc emails (fun email => EqualFold email (sanitizeEmail (senderAddress message from)))
    = Some idx /\
    Sender sanitized
    = Some {| Name := name;
              Address := constructEmail (senderAddress message from) (nth idx emails "") |}.
Proof.
  unfold sanitizeParsedMessage, senderAddress.
  set (sender := match Sender message with
                 | Some sender => if String.eqb (Address sender) "" then withAddress sender from
                                  else sender
                 | None => {| Name := ""; Address := from |}
                 end).
  assert (Haddress : Address sender
                     = match Sender message with
                       | Some sender => if String.eqb (Address sender) "" then from
                                        else Address sender
                       | None => from
                       end).
  { subst sender. destruct (Sender message) as [s |]; [| done].
    by destruct (String.eqb (Address s) ""). }
  rewrite <- Haddress. destruct (IndexFunc emails _) as [idx |] eqn:Hidx; [| done].
  intros Heq. simplify_eq. exists idx, (Name sender). split; [done |].
  match goal with
  | |- context [fold_left addBCC to ?m] => destruct (addBCC_loop to m) as (-> & _)
  end.
  done.
Qed.

(** X6. The sanitizer writes the sender, the To list and the Bcc list of a
    message it accepts, and nothing else. *)
Theorem sanitizeParsedMessage_frame (message sanitized : Message) (from : string)
        (to emails : list string) :
  sanitizeParsedMessage message from to emails = Ok sanitized ->
  MIMEBody sanitized = MIMEBody message /\ RichBody sanitized = RichBody message /\
  PlainBody sanitized = PlainBody message /\ Attachments sanitized = Attachments message /\
  MIMEType sanitized = MIMEType message /\ Subject sanitized = Subject message /\
  References sanitized = References message /\ ExternalID sanitized = ExternalID message /\
  CCList sanitized = CCList message.
Proof.
  intros Hrun. apply sanitizeParsedMessage_Ok in Hrun as (sender & ->).
  match goal with
  | |- context [fold_left addBCC to ?m] =>
      pose proof (addBCC_loop_frame to m) as Hframe;
      pose proof (addBCC_loop to m) as (_ & _ & Hcc & _)
  end.
  simpl in Hframe, Hcc. destruct Hframe as (? & ? & ? & ? & ? & ? & ? & ?).
  by split_and!.
Qed.

(** X7. No envelope recipient is lost and none is invented: every
    recipient of the envelope is a To, Cc or Bcc address of the sanitized
    message, every To address of the sanitized message is a recipient of
    the envelope, and so is every Bcc address the header did not name. *)
Theorem sanitized_recipients_cover_envelope (message sanitized : Message) (from : string)
        (to emails : list string) :
  sanitizeParsedMessage message from to emails = Ok sanitized ->
  (forall r, r ∈ to ->
             r ∈ addresses (ToList sanitized) ++ addresses (CCList sanitized)
                 ++ addresses (BCCList sanitized)) /\
  (forall r, r ∈ addresses (ToList sanitized) -> r ∈ to) /\
  (forall r, r ∈ addresses (BCCList sanitized) -> r ∈ addresses (BCCList message) \/ r ∈ to).
Proof.
  intros Hrun. apply sanitizeParsedMessage_Ok in Hrun as (sender & ->).
  match goal with
  | |- context [fold_left addBCC to ?m] =>
      pose proof (addBCC_loop to m) as (_ & Hto & Hcc & added & Hbcc & Hsub & _ & Hcover)
  end.
  simpl in Hto, Hcc, Hbcc, Hcover. rewrite Hto, Hcc, Hbcc. split_and!.
  - intros r Hr. rewrite <- Hbcc.
    destruct (decide (r ∈ addresses (List.filter
                (fun addr => slicesContains to (Address addr)) (ToList message))
                ++ addresses (CCList message))) as [Hold | Hnew].
    + rewrite app_assoc. apply elem_of_app. by left.
    + rewrite app_assoc. apply elem_of_app. right. by apply Hcover.
  - intros r (addr & -> & Hin)%list_elem_of_fmap.
    apply list_elem_of_In, List.filter_In in Hin as [_ Hin].
    by apply slicesContains_elem_of.
  - intros r Hr. unfold addresses in Hr. rewrite fmap_app, elem_of_app in Hr.
    destruct Hr as [Hr | Hr]; [by left | right].
    rewrite <- list_fmap_compose in Hr. simpl in Hr.
    apply list_elem_of_fmap in Hr as (r' & -> & Hr'). simpl.
    exact (elem_of_sublist _ _ _ Hr' Hsub).
Qed.

End SanitizeMore.

Section SanitizeFold.
Context `{Library} `{!FoldLaws}.

(** X4. The sender of a message the sanitizer accepts belongs to the user:
    its address, stripped of its tag, is one of the owned emails, one that
    equals the checked address, stripped of its tag, under
    [strings.EqualFold]. *)
Theorem sanitized_sender_is_owned (message sanitized : Message) (from : string)
        (to emails : list string) :
  sanitizeParsedMessage message from to emails = Ok sanitized ->
  exists (sender : MailAddress) (owned : string),
    Sender sanitized = Some sender /\
    owned ∈ emails /\
    EqualFold owned (sanitizeEmail (senderAddress message from)) = true /\
    sanitizeEmail (Address sender) = owned.
Proof.
  intros Hrun. apply sanitizeParsedMessage_Ok_sender in Hrun as (idx & name & Hidx & Hsender).
  apply (IndexFunc_Some _ _ _ "") in Hidx as [Hin Hfold].
  eexists _, (nth idx emails ""). split; [exact Hsender |]. split; [done |].
  split; [done |]. simpl. rewrite sanitizeEmail_constructEmail.
  by eapply owned_is_stripped.
Qed.

(** X5. When the local part of the checked address holds at most one
    ['+'], the address the sanitizer writes is equal to it under
    [strings.EqualFold]. *)
Theorem sanitized_sender_same_fold (message sanitized : Message) (from : string)
        (to emails : list string) :
  sanitizeParsedMessage message from to emails = Ok sanitized ->
  occurrences "+" (hd "" (Split (senderAddress message from) "@")) <= 1 ->
  exists sender : MailAddress,
    Sender sanitized = Some sender /\
    EqualFold (Address sender) (senderAddress message from) = true.
Proof.
  intros Hrun Hplus.
  apply sanitizeParsedMessage_Ok_sender in Hrun as (idx & name & Hidx & Hsender).
  apply (IndexFunc_Some _ _ _ "") in Hidx as [_ Hfold].
  eexists. split; [exact Hsender |]. simpl. by apply constructEmail_fold.
Qed.

End SanitizeFold.

(** ** More on the session *)

Section SessionMore.
Context `{Library} `{GoRuntime}.

Lemma withFromAddrID_same (session : smtpSession) :
  withFromAddrID session (fromAddrID session) = session.
Proof. by destruct session. Qed.

Lemma withTo_same (session : smtpSession) : withTo session (to session) = session.
Proof. by destruct session. Qed.

(** What the loop over the owned emails leaves: the session with a new
    [fromAddrID] at most, which is the former one or the id of an owned email
    that passes the test. *)
Lemma selectFromAddrID_result (matches : string -> bool) (session : smtpSession) :
  let session' := selectFromAddrID matches session in
  session' = withFromAddrID session (fromAddrID session') /\
  (fromAddrID session' = fromAddrID session \/
   exists email, emails session !! fromAddrID session' = Some email /\ matches email = true).
Proof.
  unfold selectFromAddrID. rewrite selectFromAddrID_fold. simpl. split; [done |].
  destruct (last (List.filter _ _)) as [[id email] |] eqn:Hlast; simpl; [| by left].
  right. apply last_Some_elem_of, list_elem_of_In, List.filter_In in Hlast as [Hin Hm].
  apply list_elem_of_In in Hin. rewrite rangeMap_perm in Hin.
  apply elem_of_map_to_list in Hin. by exists email.
Qed.

Lemma selectFromAddrID_unique (matches : string -> bool) (session : smtpSession)
      (id email : string) :
  emails session !! id = Some email -> matches email = true ->
  (forall id' email', emails session !! id' = Some email' -> matches email' = true -> id' = id) ->
  selectFromAddrID matches session = withFromAddrID session id.
Proof.
  intros Hid Hm Huniq. unfold selectFromAddrID. rewrite selectFromAddrID_fold.
  set (hits := List.filter (fun e => matches (snd e)) (rangeMap (emails session))).
  assert (Hhits : forall e, e ∈ hits -> fst e = id).
  { intros [id' email'] Hin. apply list_elem_of_In, List.filter_In in Hin as [Hin Hm'].
    apply list_elem_of_In in Hin. rewrite rangeMap_perm in Hin.
    apply elem_of_map_to_list in Hin. simpl in *. eauto. }
  assert (Hin : (id, email) ∈ hits).
  { apply list_elem_of_In, List.filter_In. split; [| done].
    apply list_elem_of_In. rewrite rangeMap_perm. by apply elem_of_map_to_list. }
  destruct (last hits) as [e |] eqn:Hlast.
  - apply last_Some_elem_of, Hhits in Hlast. simpl. by rewrite Hlast.
  - apply last_None in Hlast. rewrite Hlast in Hin. by apply elem_of_nil in Hin.
Qed.

(** X8. A [Mail] accepted on a session without return path leaves in
    [fromAddrID] the id of an owned email that equals the given address
    under [strings.EqualFold], and changes nothing else. *)
Theorem Mail_accepts_owned_only (session session' : smtpSession) (from : string)
        (opts : MailOptions) :
  fromAddrID session = "" ->
  Mail session from opts = (None, session') ->
  unsupportedOptions session opts = false /\
  fromAddrID session' <> "" /\
  session' = withFromAddrID session (fromAddrID session') /\
  exists email, emails session !! fromAddrID session' = Some email /\
                EqualFold from email = true.
Proof.
  intros Hfresh. unfold Mail. destruct (unsupportedOptions session opts); [done |].
  destruct (selectFromAddrID_result (fun email => EqualFold from email) session)
    as [Hframe Hfound].
  destruct (String.eqb (fromAddrID (selectFromAddrID _ session)) "") eqn:Hempty; [done |].
  intros Heq. simplify_eq. apply String.eqb_neq in Hempty.
  split; [done |]. split; [done |]. split; [done |].
  destruct Hfound as [Hsame | Hfound]; [| done].
  by rewrite Hsame, Hfresh in Hempty.
Qed.

Lemma Mail_frame (session : smtpSession) (from : string) (opts : MailOptions) :
  let session' := snd (Mail session from opts) in
  session' = withFromAddrID session (fromAddrID session').
Proof.
  unfold Mail.
  destruct (unsupportedOptions session opts); simpl; [by rewrite withFromAddrID_same |].
  destruct (selectFromAddrID_result (fun email => EqualFold from email) session)
    as [Hframe _].
  by destruct (String.eqb _ _).
Qed.

Lemma Rcpt_frame (session : smtpSession) (recipient : string) :
  let session' := snd (Rcpt session recipient) in
  session' = withTo session (to session') /\ to session `prefix_of` to session'.
Proof.
  unfold Rcpt.
  destruct (String.eqb recipient ""); simpl; [by rewrite withTo_same |].
  destruct (slicesContains (to session) recipient); simpl.
  - by rewrite withTo_same.
  - split; [done |]. by apply prefix_app_r.
Qed.

Lemma Data_frame {S : Type} (client : Client S) (session : smtpSession) (r : Reader)
      (w : World S) :
  let session' := snd (fst (fst (Data client session r w))) in
  session' = withFromAddrID session (fromAddrID session').
Proof.
  unfold Data.
  destruct (String.eqb (fromAddrID session) ""); simpl; [by rewrite withFromAddrID_same |].
  destruct (length (to session) =? 0)%nat; simpl; [by rewrite withFromAddrID_same |].
  destruct (parserNew r) as [[parser | e] r']; simpl; [| by rewrite withFromAddrID_same].
  set (session1 := match getMessageSender parser with
                   | Some sender => selectFromAddrID _ session
                   | None => session
                   end).
  assert (Hframe : session1 = withFromAddrID session (fromAddrID session1)).
  { subst session1. destruct (getMessageSender parser).
    - apply selectFromAddrID_result.
    - by rewrite withFromAddrID_same. }
  destruct (addrKRs session1 !! fromAddrID session1) as [addrKR |]; [| done].
  destruct (FirstKey addrKR) as [firstAddrKR | e]; [| done].
  by destruct (sendWithKey _ _ _ _ _ _ _ _ _ _ _) as [[message | e] w'].
Qed.

(** X9. What the operations write.  [Mail] writes [fromAddrID] and nothing
    else; [Rcpt] writes [to], only by adding at its end; [Data] writes
    [fromAddrID] and nothing else. *)
Theorem session_operations_frame {S : Type} (client : Client S) (session : smtpSession) :
  (forall from opts,
      let session' := snd (Mail session from opts) in
      session' = withFromAddrID session (fromAddrID session')) /\
  (forall recipient,
      let session' := snd (Rcpt session recipient) in
      session' = withTo session (to session') /\ to session `prefix_of` to session') /\
  (forall r w,
      let session' := snd (fst (fst (Data client session r w))) in
      session' = withFromAddrID session (fromAddrID session')).
Proof.
  split_and!.
  - apply Mail_frame.
  - apply Rcpt_frame.
  - apply Data_frame.
Qed.

Lemma Rcpt_tidy (session : smtpSession) (recipient : string) :
  tidyRecipients session -> tidyRecipients (snd (Rcpt session recipient)).
Proof.
  intros [Hnodup Hempty]. split; [by apply Rcpt_NoDup |].
  unfold Rcpt. destruct (String.eqb recipient "") eqn:Hrecipient; [done |].
  destruct (slicesContains (to session) recipient); simpl; [done |].
  apply String.eqb_neq in Hrecipient.
  rewrite elem_of_app, list_elem_of_singleton. intros [? | ?]; by subst.
Qed.

(** X10. The recipients of a session never hold an address twice and never
    hold the empty address: this is true of a new session and after
    [Reset] and [Logout], and [Mail], [Rcpt] and [Data] keep it true. *)
Theorem session_recipients_tidy {S : Type} (client : Client S) :
  (forall userID addrID addrMode emails settings userKR addrKRs,
      tidyRecipients (newSMTPSession userID addrID addrMode emails settings userKR addrKRs)) /\
  (forall session, tidyRecipients (Reset session)) /\
  (forall session, tidyRecipients (snd (Logout session))) /\
  (forall session from opts,
      tidyRecipients session -> tidyRecipients (snd (Mail session from opts))) /\
  (forall session recipient,
      tidyRecipients session -> tidyRecipients (snd (Rcpt session recipient))) /\
  (forall session r w,
      tidyRecipients session -> tidyRecipients (snd (fst (fst (Data client session r w))))).
Proof.
  assert (Hnew : forall l : list string, l = [] -> NoDup l /\ "" ∉ l).
  { intros l ->. split; [apply NoDup_nil_2 | apply not_elem_of_nil]. }
  split_and!.
  - intros. by apply Hnew.
  - intros. by apply Hnew.
  - intros. by apply Hnew.
  - intros session from opts Htidy.
    unfold tidyRecipients. by rewrite (Mail_frame session from opts).
  - intros session recipient. apply Rcpt_tidy.
  - intros session r w Htidy.
    unfold tidyRecipients. by rewrite (Data_frame client session r w).
Qed.

(** X11. A run of [Rcpt] commands: whatever their answers, the recipients
    afterwards are the former ones followed by new ones, and an address is
    among them exactly when it was before or was the non-empty argument of
    one of the commands. *)
Theorem Rcpt_sequence (session : smtpSession) (arguments : list string) :
  let session' := fold_left (fun session recipient => snd (Rcpt session recipient))
                            arguments session in
  to session `prefix_of` to session' /\
  (forall r, r ∈ to session' <-> r ∈ to session \/ (r ∈ arguments /\ r <> "")) /\
  (tidyRecipients session -> tidyRecipients session') /\
  session' = withTo session (to session').
Proof.
  revert session. induction arguments as [| recipient arguments IH]; intros session; simpl.
  - split_and!; [done | | done | by rewrite withTo_same].
    intros r. split; [by left |]. intros [? | [Hin _]]; [done |]. by apply elem_of_nil in Hin.
  - destruct (IH (snd (Rcpt session recipient))) as (Hprefix & Hin & Htidy & Hframe).
    assert (Hstep : snd (Rcpt session recipient)
                    = withTo session (to (snd (Rcpt session recipient))) /\
                    to session `prefix_of` to (snd (Rcpt session recipient)) /\
                    forall r, r ∈ to (snd (Rcpt session recipient))
                              <-> r ∈ to session \/ (r = recipient /\ r <> "")).
    { unfold Rcpt. destruct (String.eqb recipient "") eqn:Hrecipient; simpl.
      - apply String.eqb_eq in Hrecipient as ->.
        split_and!; [by rewrite withTo_same | done |].
        intros r. split; [by left | by intros [? | [-> ?]]].
      - apply String.eqb_neq in Hrecipient.
        destruct (slicesContains (to session) recipient) eqn:Hold; simpl.
        + apply slicesContains_elem_of in Hold.
          split_and!; [by rewrite withTo_same | done |].
          intros r. split; [by left | by intros [? | [-> ?]]].
        + split_and!; [done | by apply prefix_app_r |].
          intros r. rewrite elem_of_app, list_elem_of_singleton.
          split; [intros [? | ->]; [by left | by right] |].
          intros [? | [-> ?]]; [by left | by right]. }
    destruct Hstep as (Hframe1 & Hprefix1 & Hin1).
    split_and!.
    + by etrans.
    + intros r. rewrite Hin, Hin1, elem_of_cons. clear. tauto.
    + intros Hsession. by apply Htidy, Rcpt_tidy.
    + rewrite Hframe. rewrite Hframe1 at 1. done.
Qed.

End SessionMore.

(** ** The return path, the case of its letters and the order of the map *)

Section MailOrder.
Context `{Library}.

Lemma selectFromAddrID_ext `{GoRuntime} (matches matches' : string -> bool)
      (session : smtpSession) :
  (forall email, matches email = matches' email) ->
  selectFromAddrID matches session = selectFromAddrID matches' session.
Proof.
  intros Hext. unfold selectFromAddrID. rewrite !selectFromAddrID_fold.
  do 4 f_equal. apply List.filter_ext. intros [id email]. apply Hext.
Qed.

(** With one match at most, the loop over the owned emails ends the same
    in whatever order the map is visited. *)
Lemma selectFromAddrID_order (first second : GoRuntime) (matches : string -> bool)
      (session : smtpSession) :
  (forall id id' email email',
      emails session !! id = Some email -> emails session !! id' = Some email' ->
      matches email = true -> matches email' = true -> id = id') ->
  selectFromAddrID (H0 := first) matches session
  = selectFromAddrID (H0 := second) matches session.
Proof.
  intros Huniq.
  destruct (existsb (fun e => matches (snd e)) (map_to_list (emails session))) eqn:Hany.
  - apply existsb_exists in Hany as ([id email] & Hin & Hm). simpl in Hm.
    apply list_elem_of_In, elem_of_map_to_list in Hin.
    rewrite (selectFromAddrID_unique (H0 := first) matches session id email); [| done | done |].
    + rewrite (selectFromAddrID_unique (H0 := second) matches session id email); [done | done | done |].
      intros id' email' Hid' Hm'. by apply (Huniq id' id email' email).
    + intros id' email' Hid' Hm'. by apply (Huniq id' id email' email).
  - assert (Hnone : forall id email, emails session !! id = Some email -> matches email = false).
    { intros id email Hid. destruct (matches email) eqn:Hm; [| done].
      rewrite <- Hany. symmetry. apply existsb_exists. exists (id, email).
      split; [| done]. by apply list_elem_of_In, elem_of_map_to_list. }
    rewrite (selectFromAddrID_no_match (H0 := first)) by done.
    by rewrite (selectFromAddrID_no_match (H0 := second)).
Qed.

(** X14. [Mail] reads the return path up to folding, in whatever order the
    map of the owned emails is visited: when at most one owned address has
    an email equal to the return path under [strings.EqualFold], two
    addresses equal under folding get the same answer and leave the same
    session, also when the two calls visit the map in different orders. *)
Theorem Mail_case_insensitive `{!FoldLaws} (first second : GoRuntime)
        (session : smtpSession) (from from' : string) (opts : MailOptions) :
  EqualFold from from' = true ->
  (forall id id' email email',
      emails session !! id = Some email -> emails session !! id' = Some email' ->
      EqualFold from email = true -> EqualFold from email' = true -> id = id') ->
  Mail (H0 := first) session from opts = Mail (H0 := second) session from' opts.
Proof.
  intros Hfold Huniq. unfold Mail. destruct (unsupportedOptions session opts); [done |].
  rewrite (selectFromAddrID_ext (H0 := second) (fun email => EqualFold from' email)
                                (fun email => EqualFold from email)).
  - by rewrite (selectFromAddrID_order first second (fun email => EqualFold from email)
                   session Huniq).
  - intros email. destruct (EqualFold from email) eqn:Hemail.
    + apply (EqualFold_trans _ from); [| done]. by rewrite EqualFold_sym.
    + destruct (EqualFold from' email) eqn:Hemail'; [| done].
      rewrite <- Hemail. symmetry. by apply (EqualFold_trans _ from').
Qed.

End MailOrder.

(** ** More on [Data] *)

Section DataMore.
Context `{Library} `{GoRuntime} {S : Type} (client : Client S).

(** X12. Past its guards and with a message it can read, [Data] takes the
    sending address from the From header: no header address, or one that
    matches no owned email, leaves [fromAddrID] as [Mail] set it; one that,
    without its plus tag, equals under [strings.EqualFold] the email of
    exactly one owned address makes that address the sending one. *)
Theorem Data_takes_sender_from_header (session : smtpSession) (r r' : Reader) (w : World S)
        (parser : Parser) :
  fromAddrID session <> "" -> to session <> [] ->
  parserNew r = (Ok parser, r') ->
  let session' := snd (fst (fst (Data client session r w))) in
  (getMessageSender parser = None -> session' = session) /\
  (forall sender,
      getMessageSender parser = Some sender ->
      (forall id email, emails session !! id = Some email ->
                        EqualFold email (sanitizeEmail sender) = false) ->
      session' = session) /\
  (forall sender id email,
      getMessageSender parser = Some sender ->
      emails session !! id = Some email ->
      EqualFold email (sanitizeEmail sender) = true ->
      (forall id' email', emails session !! id' = Some email' ->
                          EqualFold email' (sanitizeEmail sender) = true -> id' = id) ->
      session' = withFromAddrID session id).
Proof.
  intros Hfrom Hto Hparser.
  assert (Hrun : forall session1,
             match getMessageSender parser with
             | Some sender =>
                 selectFromAddrID (fun email => EqualFold email (sanitizeEmail sender)) session
             | None => session
             end = session1 ->
             snd (fst (fst (Data client session r w))) = session1).
  { intros session1 Hsession1. unfold Data.
    rewrite (eqb_empty_false _ Hfrom).
    destruct (to session) as [| recipient recipients] eqn:Hrecipients; [done |]. simpl.
    rewrite Hparser, Hsession1.
    destruct (addrKRs session1 !! fromAddrID session1) as [addrKR |]; [| done].
    destruct (FirstKey addrKR) as [firstAddrKR | e]; [| done].
    by destruct (sendWithKey _ _ _ _ _ _ _ _ _ _ _) as [[message | e] w']. }
  simpl. split_and!.
  - intros Hnone. apply Hrun. by rewrite Hnone.
  - intros sender Hsender Hforeign. apply Hrun. rewrite Hsender.
    by apply selectFromAddrID_no_match.
  - intros sender id email Hsender Hid Hmatch Huniq. apply Hrun. rewrite Hsender.
    by apply (selectFromAddrID_unique _ _ id email).
Qed.

(** X13. A [Data] that answers an error has put no event on the channel;
    and unless the error is the one of [sendWithKey], wrapped as a failure
    to send, it has left the whole world as it was. *)
Theorem Data_failure_leaves_no_event (session session' : smtpSession) (r r' : Reader)
        (w w' : World S) (err : error) :
  Data client session r w = (Some err, session', r', w') ->
  eventCh w' = eventCh w /\
  (w' = w \/ exists cause, err = ErrWrapped "failed to send message" cause).
Proof.
  intros Hrun. split.
  - pose proof (Data_world client session r w) as Hw. rewrite Hrun in Hw.
    by destruct Hw as (_ & _ & _ & _ & Hevent).
  - revert Hrun. unfold Data.
    destruct (String.eqb (fromAddrID session) ""); [intros; simplify_eq; by left |].
    destruct (length (to session) =? 0)%nat; [intros; simplify_eq; by left |].
    destruct (parserNew r) as [[parser | e] r1]; [| intros; simplify_eq; by left].
    set (session1 := match getMessageSender parser with
                     | Some sender => selectFromAddrID _ session
                     | None => session
                     end).
    clearbody session1.
    destruct (addrKRs session1 !! fromAddrID session1) as [addrKR |];
      [| intros; simplify_eq; by left].
    destruct (FirstKey addrKR) as [firstAddrKR | e]; [| intros; simplify_eq; by left].
    destruct (sendWithKey _ _ _ _ _ _ _ _ _ _ _) as [[message | e] w1]; [done |].
    intros; simplify_eq. right. by eexists.
Qed.

(** The sanitizer refuses a message whose sender is foreign. *)
Lemma sanitizeParsedMessage_foreign (message : Message) (sender : MailAddress)
      (from : string) (to : list string) (owned : gmap string string) :
  Sender message = Some sender -> foreign owned (Address sender) ->
  sanitizeParsedMessage message from to (mapsValues owned)
  = Err (ErrAddressNotOwned (Address sender)).
Proof.
  intros Hsender [Hempty Hforeign]. unfold sanitizeParsedMessage. rewrite Hsender.
  rewrite (eqb_empty_false _ Hempty). rewrite IndexFunc_none; [done |].
  intros email Hin. rewrite mapsValues_perm in Hin.
  apply list_elem_of_fmap in Hin as ([id email'] & -> & Hin).
  apply elem_of_map_to_list in Hin. by apply (Hforeign id).
Qed.

(** [sendWithKey] gives up on such a message before it turns to the API. *)
Lemma sendWithKey_foreign (addrID : string) (addrMode : AddressMode) (userKR addrKR : KeyRing)
      (settings : MailSettings) (from : string) (to : list string)
      (owned : gmap string string) (parser : Parser) (w : World S) :
  (forall p message,
      handedOver parser p -> ParseWithParser p = Ok message ->
      exists sender, Sender message = Some sender /\ foreign owned (Address sender)) ->
  exists e, sendWithKey client addrID addrMode userKR addrKR settings from to
                        (mapsValues owned) parser w = (Err e, w).
Proof.
  intros Hforeign.
  assert (Hparse : forall p, handedOver parser p ->
             exists e,
               bind (wrap "failed to parse message" (lift (ParseWithParser p)))
                 (fun message =>
                    bind (wrap "failed to sanitize message"
                            (lift (sanitizeParsedMessage message from to (mapsValues owned))))
                      (fun message : Message =>
                         bind (wrap "failed to get parent ID"
                                 (getParentID client addrID addrMode (References message)))
                           (fun parentID =>
                              bind (wrap "failed to create draft"
                                      (onAPI (createDraftWithAttachments client addrKR message parentID)))
                                (fun '(draft, attKeys) =>
                                   bind (wrap "failed to get recipients"
                                           (onAPI (getRecipients client userKR settings
                                                     (Recipients message) (MIMEType message))))
                                     (fun recipients =>
                                        bind (wrap "failed to create packages"
                                                (lift (createSendReq addrKR (MIMEBody message)
                                                         (RichBody message) (PlainBody message)
                                                         recipients attKeys)))
                                          (fun req =>
                                             bind (wrap "failed to send draft"
                                                     (onAPI (SendDraft client (ID draft) req)))
                                               (fun res => ret res))))))) w
               = (Err e, w)).
  { intros p Hp. unfold bind at 1. unfold wrap at 1. unfold lift at 1.
    destruct (ParseWithParser p) as [message | e] eqn:Hmessage; simpl; [| by eexists].
    destruct (Hforeign p message Hp Hmessage) as (sender & Hsender & Hnot).
    unfold bind at 1. unfold wrap at 1. unfold lift at 1.
    rewrite (sanitizeParsedMessage_foreign message sender) by done. simpl. by eexists. }
  unfold sendWithKey. unfold bind at 1.
  destruct (attachPublicKeyEnabled settings).
  - unfold bind at 1. unfold wrap at 1. unfold lift at 1.
    destruct (GetKey addrKR 0) as [key | e]; simpl; [| by eexists].
    unfold bind at 1. unfold wrap at 1. unfold lift at 1.
    destruct (GetArmoredPublicKey key) as [pubKey | e]; simpl; [| by eexists].
    apply Hparse. right. by eexists _, _.
  - simpl. apply Hparse. by left.
Qed.

(** X15. [Data] sends nothing for a sender the user does not own.  When
    every message the library parses from what [r] holds names a foreign
    sender, [Data] answers an error and leaves the world as it was: no
    call on the API, no event. *)
Theorem Data_refuses_foreign_sender (session : smtpSession) (r : Reader) (w : World S) :
  (forall parser r' p message,
      parserNew r = (Ok parser, r') -> handedOver parser p ->
      ParseWithParser p = Ok message ->
      exists sender, Sender message = Some sender /\
                     foreign (emails session) (Address sender)) ->
  exists err session' r', Data client session r w = (Some err, session', r', w).
Proof.
  intros Hforeign. unfold Data.
  destruct (String.eqb (fromAddrID session) ""); [by eexists _, _, _ |].
  destruct (length (to session) =? 0)%nat; [by eexists _, _, _ |].
  destruct (parserNew r) as [[parser | e] r1] eqn:Hparser; [| by eexists _, _, _].
  set (session1 := match getMessageSender parser with
                   | Some sender => selectFromAddrID _ session
                   | None => session
                   end).
  assert (Hemails : emails session1 = emails session).
  { subst session1. destruct (getMessageSender parser); [apply selectFromAddrID_frame | done]. }
  clearbody session1.
  destruct (addrKRs session1 !! fromAddrID session1) as [addrKR |]; [| by eexists _, _, _].
  destruct (FirstKey addrKR) as [firstAddrKR | e]; [| by eexists _, _, _].
  match goal with
  | |- context [sendWithKey client ?a ?b ?c ?d ?e ?f ?g (mapsValues ?o) ?i w] =>
      destruct (sendWithKey_foreign a b c d e f g o i w) as (cause & ->)
  end.
  - intros p message Hp Hmessage. rewrite Hemails. by eapply Hforeign.
  - by eexists _, _, _.
Qed.

(** X21. The envelope and the message.  On a session that has answered
    [nil] to a [Mail] and then to a [Rcpt], [Data] answers neither of the two
    envelope errors: it goes on to read the message, and the reader comes
    back as the parser of the message leaves it. *)
Theorem accepted_envelope_reaches_parser (session session1 session2 : smtpSession)
        (from recipient : string) (opts : MailOptions) (r : Reader) (w : World S) :
  Mail session from opts = (None, session1) ->
  Rcpt session1 recipient = (None, session2) ->
  fst (fst (fst (Data client session2 r w))) <> Some ErrInvalidReturnPath /\
  fst (fst (fst (Data client session2 r w))) <> Some ErrInvalidRecipient /\
  snd (fst (Data client session2 r w)) = snd (parserNew r).
Proof.
  intros Hmail Hrcpt.
  assert (Hfrom : fromAddrID session1 <> "").
  { revert Hmail. unfold Mail. destruct (unsupportedOptions session opts); [done |].
    destruct (String.eqb (fromAddrID (selectFromAddrID _ session)) "") eqn:Hempty; [done |].
    intros Heq. simplify_eq. by apply String.eqb_neq. }
  assert (Hsession2 : fromAddrID session2 = fromAddrID session1 /\ to session2 <> []).
  { revert Hrcpt. unfold Rcpt. destruct (String.eqb recipient ""); [done |].
    destruct (slicesContains (to session1) recipient) eqn:Hold; simpl; intros Heq; simplify_eq.
    - split; [done |]. apply slicesContains_elem_of in Hold. intros Hnil.
      rewrite Hnil in Hold. by apply elem_of_nil in Hold.
    - split; [done |]. simpl. intros Hnil. by apply app_eq_nil in Hnil as [_ ?]. }
  destruct Hsession2 as [Hsame Hto]. rewrite <- Hsame in Hfrom.
  unfold Data. rewrite (eqb_empty_false _ Hfrom).
  destruct (to session2) as [| first rest] eqn:Hrecipients; [done |]. simpl.
  destruct (parserNew r) as [[parser | e] r1]; [| done].
  set (session3 := match getMessageSender parser with
                   | Some sender => selectFromAddrID _ session2
                   | None => session2
                   end).
  clearbody session3.
  destruct (addrKRs session3 !! fromAddrID session3) as [addrKR |]; [| done].
  destruct (FirstKey addrKR) as [firstAddrKR | e]; [| done].
  by destruct (sendWithKey _ _ _ _ _ _ _ _ _ _ _) as [[message | e] w1].
Qed.

End DataMore.

(** ** More on the resolver of the parent message *)

Section Traces.
Context {S : Type}.

Lemma traced_ret {A} (Q : result A -> list Call -> Prop) (a : A) :
  Q (Ok a) [] -> traced Q (ret a : M S A).
Proof. intros HQ w. exists []. simpl. by rewrite app_nil_r. Qed.

Lemma traced_bind {A B} (Q1 : result A -> list Call -> Prop)
      (Q2 : A -> result B -> list Call -> Prop) (Q : result B -> list Call -> Prop)
      (m : M S A) (k : A -> M S B) :
  traced Q1 m -> (forall a, traced (Q2 a) (k a)) ->
  (forall a r new1 new2, Q1 (Ok a) new1 -> Q2 a r new2 -> Q r (new1 ++ new2)) ->
  (forall e new1, Q1 (Err e) new1 -> Q (Err e) new1) ->
  traced Q (bind m k).
Proof.
  intros Hm Hk Hok Herr w. destruct (Hm w) as (new1 & Hcalls1 & HQ1). unfold bind.
  destruct (m w) as [[a | e] w1]; simpl in *.
  - destruct (Hk a w1) as (new2 & Hcalls2 & HQ2). exists (new1 ++ new2).
    rewrite Hcalls2, Hcalls1, app_assoc. split; [done |]. by eapply Hok.
  - exists new1. split; [done |]. by apply Herr.
Qed.

Lemma traced_call {A} (Q : result A -> list Call -> Prop) (context : string)
      (f : S -> result A * S) (record : result A -> Call) :
  (forall r, Q (wrapErr context r) [record r]) -> traced Q (wrap context (call f record)).
Proof.
  intros HQ w. unfold wrap, call. destruct (f (api w)) as [r s]. exists [record r]. simpl.
  split; [done |]. apply HQ.
Qed.

Lemma traced_forRange {A X} (Q : list X -> result A -> list Call -> Prop)
      (Qstep : X -> result A -> list Call -> Prop)
      (xs : list X) (body : A -> X -> M S A) (a : A) :
  (forall a, Q [] (Ok a) []) ->
  (forall a x, traced (Qstep x) (body a x)) ->
  (forall x xs a r new1 new2,
      Qstep x (Ok a) new1 -> Q xs r new2 -> Q (x :: xs) r (new1 ++ new2)) ->
  (forall x xs e new1, Qstep x (Err e) new1 -> Q (x :: xs) (Err e) new1) ->
  traced (Q xs) (forRange xs body a).
Proof.
  intros Hnil Hbody Hok Herr. revert a. induction xs as [| x xs IH]; intros a; simpl.
  - by apply traced_ret.
  - apply (traced_bind (Qstep x) (fun _ => Q xs)); [apply Hbody | apply IH | |].
    + intros a' r new1 new2. apply Hok.
    + intros e new1. apply Herr.
Qed.

Lemma traced_weaken {A} (Q Q' : result A -> list Call -> Prop) (m : M S A) :
  (forall r new, Q r new -> Q' r new) -> traced Q m -> traced Q' m.
Proof.
  intros Himpl Hm w. destruct (Hm w) as (new & Hcalls & HQ). exists new. auto.
Qed.

Lemma stopsAtRefusal_app {A B} (a : A) (r : result B) (new1 new2 : list Call) :
  stopsAtRefusal (Ok a) new1 -> stopsAtRefusal r new2 -> stopsAtRefusal r (new1 ++ new2).
Proof.
  simpl. intros H1 H2. destruct r as [b | e]; simpl in *.
  - by apply Forall_app.
  - destruct H2 as (before & c & -> & Hbefore & Hc). exists (new1 ++ before), c.
    rewrite app_assoc. split; [done |]. split; [by apply Forall_app | done].
Qed.

Lemma stopsAtRefusal_Err {A B} (e : error) (new : list Call) :
  stopsAtRefusal (Err e : result A) new -> stopsAtRefusal (Err e : result B) new.
Proof. done. Qed.

Lemma deletionsFollowDrafts_app (new1 new2 : list Call) :
  deletionsFollowDrafts new1 -> deletionsFollowDrafts new2 ->
  deletionsFollowDrafts (new1 ++ new2).
Proof.
  intros H1 H2 before id answer after Heq.
  apply app_eq_app in Heq as [l [[-> Heq] | [-> Heq]]].
  - destruct l as [| c l]; simpl in Heq.
    + subst new2.
      destruct (H2 [] id answer after eq_refl) as (filter & found & draft & Hin & _).
      by apply elem_of_nil in Hin.
    + simplify_eq. eapply H1. reflexivity.
  - destruct (H2 l id answer after Heq) as (filter & found & draft & Hin & Hrest).
    exists filter, found, draft. split; [| done]. apply elem_of_app. by right.
Qed.

Lemma deletionsFollowDrafts_queries (new : list Call) :
  Forall (fun c => isQuery c = true) new -> deletionsFollowDrafts new.
Proof.
  intros Hall before id answer after ->.
  apply Forall_app in Hall as [_ Hall]. by apply Forall_cons in Hall as [? _].
Qed.

End Traces.

Section ParentMore.
Context `{Library} `{GoRuntime} {S : Type} (client : Client S).

Lemma references_split (references : list string) :
  (length (internalReferences references) + length (externalReferences references)
   = length references)%nat.
Proof.
  unfold internalReferences, externalReferences. rewrite length_map.
  induction references as [| ref references IH]; simpl; [done |].
  destruct (Contains ref InternalIDDomain); simpl; lia.
Qed.

(** X16. Whatever the directory answers, [getParentID] stops at the first
    call that is refused and returns the error of that call, wrapped as a
    failure to get the metadata or to delete the message: a run that
    returns a parent was answered on every call, a run that returns an
    error was answered on every call but its last. *)
Theorem getParentID_stops_at_refusal (addrID : string) (addrMode : AddressMode)
        (references : list string) (w : World S) :
  exists new,
    calls (snd (getParentID client addrID addrMode references w)) = calls w ++ new /\
    match fst (getParentID client addrID addrMode references w) with
    | Ok _ => Forall answered new
    | Err e => exists before c,
        new = before ++ [c] /\ Forall answered before /\ refusal c = Some e
    end.
Proof.
  cut (traced stopsAtRefusal (getParentID client addrID addrMode references)).
  { intros Hrun. exact (Hrun w). }
  assert (Hquery : forall filter,
             traced stopsAtRefusal
               (wrap "failed to get message metadata" (getAllMessageMetadata client filter))).
  { intros filter. apply traced_call. intros [found | e]; simpl.
    - by repeat constructor.
    - exists [], (CallGetAllMessageMetadata filter (Err e)). by repeat constructor. }
  unfold getParentID. destruct (collectReferences references) as [internal external].
  apply (traced_bind stopsAtRefusal (fun _ => stopsAtRefusal)).
  - apply (traced_forRange (fun _ => stopsAtRefusal) (fun _ => stopsAtRefusal)).
    + intros a. by constructor.
    + intros parentID ref. unfold scanInternal.
      apply (traced_bind stopsAtRefusal (fun _ => stopsAtRefusal)); [apply Hquery | | |].
      * intros metadata.
        apply (traced_forRange (fun _ => stopsAtRefusal) (fun _ => stopsAtRefusal)).
        -- intros a. by constructor.
        -- intros p md. unfold scanMetadata.
           destruct (negb (IsDraft md)); [apply traced_ret; by constructor |].
           apply (traced_bind stopsAtRefusal (fun _ => stopsAtRefusal)).
           ++ apply traced_call. intros [[] | e]; simpl.
              ** by repeat constructor.
              ** exists [], (CallDeleteMessage (ID md) (Err e)). by repeat constructor.
           ++ intros _. apply traced_ret. by constructor.
           ++ intros a r new1 new2. apply stopsAtRefusal_app.
           ++ intros e new1. apply stopsAtRefusal_Err.
        -- intros x xs a r new1 new2. apply stopsAtRefusal_app.
        -- intros x xs e new1. apply stopsAtRefusal_Err.
      * intros a r new1 new2. apply stopsAtRefusal_app.
      * intros e new1. apply stopsAtRefusal_Err.
    + intros x xs a r new1 new2. apply stopsAtRefusal_app.
    + intros x xs e new1. apply stopsAtRefusal_Err.
  - intros parentID. destruct (_ && _); [| apply traced_ret; by constructor].
    apply (traced_bind stopsAtRefusal (fun _ => stopsAtRefusal)); [apply Hquery | | |].
    + intros [| only [| ? ?]]; apply traced_ret; by constructor.
    + intros a r new1 new2. apply stopsAtRefusal_app.
    + intros e new1. apply stopsAtRefusal_Err.
  - intros a r new1 new2. apply stopsAtRefusal_app.
  - intros e new1. apply stopsAtRefusal_Err.
Qed.

(** X17. [getParentID] deletes drafts only, and only drafts the directory
    has just shown it: whatever the answers, every deletion it asks for
    follows a query by id of this run whose answer holds a draft with the
    id deleted. *)
Theorem getParentID_deletes_drafts_only (addrID : string) (addrMode : AddressMode)
        (references : list string) (w : World S) :
  exists new,
    calls (snd (getParentID client addrID addrMode references w)) = calls w ++ new /\
    deletionsFollowDrafts new.
Proof.
  cut (traced (fun _ => deletionsFollowDrafts)
         (getParentID client addrID addrMode references)).
  { intros Hrun. exact (Hrun w). }
  pose (draftOf := fun (metadata : list MessageMetadata) (c : Call) =>
          exists draft answer, c = CallDeleteMessage (ID draft) answer /\
                               draft ∈ metadata /\ IsDraft draft = true).
  assert (Hdrafts : forall metadata parentID,
             traced (fun _ => Forall (draftOf metadata))
               (forRange metadata (scanMetadata client) parentID)).
  { intros metadata parentID.
    apply (traced_forRange (fun metadata _ => Forall (draftOf metadata))
             (fun md _ => Forall (draftOf [md]))).
    - intros a. by constructor.
    - intros p md. unfold scanMetadata.
      destruct (IsDraft md) eqn:Hdraft; simpl; [| apply traced_ret; by constructor].
      apply (traced_bind (fun _ => Forall (draftOf [md])) (fun _ _ new => new = [])).
      + apply traced_call. intros r. repeat constructor.
        exists md, r. split; [done |]. split; [by apply list_elem_of_singleton | done].
      + intros _. by apply traced_ret.
      + intros a r new1 new2 Hnew1 ->. by rewrite app_nil_r.
      + done.
    - intros md rest a r new1 new2 Hnew1 Hnew2. apply Forall_app. split.
      + eapply Forall_impl; [exact Hnew1 |]. intros c (draft & answer & -> & Hin & Hd).
        exists draft, answer. apply list_elem_of_singleton in Hin as ->.
        split; [done |]. split; [apply elem_of_cons; by left | done].
      + eapply Forall_impl; [exact Hnew2 |]. intros c (draft & answer & -> & Hin & Hd).
        exists draft, answer. split; [done |]. split; [apply elem_of_cons; by right | done].
    - intros md rest e new1 Hnew1.
      eapply Forall_impl; [exact Hnew1 |]. intros c (draft & answer & -> & Hin & Hd).
      exists draft, answer. apply list_elem_of_singleton in Hin as ->.
      split; [done |]. split; [apply elem_of_cons; by left | done]. }
  assert (Hquery : forall key value,
             traced (fun r new => exists answer,
                         new = [CallGetAllMessageMetadata
                                  (metadataFilter key value addrID addrMode) answer] /\
                         r = wrapErr "failed to get message metadata" answer)
               (wrap "failed to get message metadata"
                  (getAllMessageMetadata client (metadataFilter key value addrID addrMode)))).
  { intros key value. apply traced_call. intros r. by exists r. }
  unfold getParentID. destruct (collectReferences references) as [internal external].
  apply (traced_bind (fun _ => deletionsFollowDrafts) (fun _ _ => deletionsFollowDrafts)).
  - apply (traced_forRange (fun _ _ => deletionsFollowDrafts) (fun _ _ => deletionsFollowDrafts)).
    + intros a. by apply deletionsFollowDrafts_queries.
    + intros parentID ref. unfold scanInternal.
      eapply traced_bind; [apply (Hquery "ID" ref) | intros metadata; apply Hdrafts | |].
      * intros metadata r new1 new2 (answer & -> & Hanswer) Hnew2.
        destruct answer as [found | e]; simpl in Hanswer; simplify_eq.
        intros before id answer after Heq.
        destruct before as [| c before]; simpl in Heq; simplify_eq.
        assert (Hin : CallDeleteMessage id answer ∈ before ++ CallDeleteMessage id answer :: after).
        { apply elem_of_app. right. apply elem_of_cons. by left. }
        rewrite Forall_forall in Hnew2. apply Hnew2 in Hin as (draft & answer' & Heq & Hin & Hd).
        simplify_eq.
        eexists _, _, draft.
        split; [apply elem_of_cons; left; reflexivity |].
        split; [by rewrite metadataFilter_key |]. done.
      * intros e new1 (answer & -> & _). apply deletionsFollowDrafts_queries. by repeat constructor.
    + intros x xs a r new1 new2. apply deletionsFollowDrafts_app.
    + done.
  - intros parentID. destruct (_ && _); [| apply traced_ret; by apply deletionsFollowDrafts_queries].
    eapply traced_bind; [apply (Hquery "ExternalID") | | |].
    + intros metadata.
      apply (traced_weaken (fun _ new => new = [])); [| by destruct metadata as [| only [| ? ?]]; apply traced_ret].
      intros r new Hnew. exact Hnew.
    + simpl. intros metadata r new1 new2 (answer & -> & _) ->.
      apply deletionsFollowDrafts_queries. by repeat constructor.
    + intros e new1 (answer & -> & _). apply deletionsFollowDrafts_queries. by repeat constructor.
  - intros a r new1 new2. apply deletionsFollowDrafts_app.
  - done.
Qed.

(** X18. [getParentID] asks the directory at most once for each reference
    of the header, whatever the answers: one query for each internal
    reference, at most one more when there is an external one. *)
Theorem getParentID_query_bound (addrID : string) (addrMode : AddressMode)
        (references : list string) (w : World S) :
  exists new,
    calls (snd (getParentID client addrID addrMode references w)) = calls w ++ new /\
    length (List.filter isQuery new)
    <= length (internalReferences references)
       + (if externalReferences references is [] then 0 else 1)
    <= length references.
Proof.
  pose (atMost := fun (n : nat) (new : list Call) => length (List.filter isQuery new) <= n).
  assert (Happ : forall n1 n2 new1 new2,
             atMost n1 new1 -> atMost n2 new2 -> atMost (n1 + n2) (new1 ++ new2)).
  { unfold atMost. intros n1 n2 new1 new2 H1 H2. rewrite List.filter_app, length_app. lia. }
  cut (traced (fun _ => atMost (length (internalReferences references)
                                + (if externalReferences references is [] then 0 else 1)))
         (getParentID client addrID addrMode references)).
  { intros Hrun. destruct (Hrun w) as (new & Hcalls & Hnew). exists new.
    split; [done |]. split; [exact Hnew |].
    pose proof (references_split references).
    destruct (externalReferences references); simpl in *; lia. }
  assert (Hquery : forall filter,
             traced (fun _ => atMost 1)
               (wrap "failed to get message metadata" (getAllMessageMetadata client filter))).
  { intros filter. apply traced_call. intros r. unfold atMost. simpl. lia. }
  unfold getParentID. rewrite collectReferences_sorted.
  generalize (internalReferences references) (externalReferences references).
  intros internal external.
  apply (traced_bind (fun _ => atMost (length internal))
           (fun _ _ => atMost (if external is [] then 0 else 1))).
  - apply (traced_forRange (fun xs _ => atMost (length xs)) (fun _ _ => atMost 1)).
    + intros a. unfold atMost. simpl. lia.
    + intros parentID ref. unfold scanInternal.
      apply (traced_bind (fun _ => atMost 1) (fun _ _ => atMost 0)); [apply Hquery | | |].
      * intros metadata.
        apply (traced_forRange (fun _ _ => atMost 0) (fun _ _ => atMost 0)).
        -- intros a. unfold atMost. simpl. lia.
        -- intros p md. unfold scanMetadata.
           destruct (negb (IsDraft md)); [apply traced_ret; unfold atMost; simpl; lia |].
           apply (traced_bind (fun _ => atMost 0) (fun _ _ => atMost 0)).
           ++ apply traced_call. intros r. unfold atMost. simpl. lia.
           ++ intros _. apply traced_ret. unfold atMost. simpl. lia.
           ++ intros a r new1 new2. apply (Happ 0 0).
           ++ done.
        -- intros x xs a r new1 new2. apply (Happ 0 0).
        -- done.
      * intros a r new1 new2. apply (Happ 1 0).
      * intros e new1. done.
    + intros x xs a r new1 new2. apply (Happ 1 (length xs)).
    + intros x xs e new1. unfold atMost. simpl. lia.
  - intros parentID.
    destruct external as [| ref external]; simpl.
    + rewrite andb_false_r. apply traced_ret. unfold atMost. simpl. lia.
    + destruct (_ && _); [| apply traced_ret; unfold atMost; simpl; lia].
      apply (traced_bind (fun _ => atMost 1) (fun _ _ => atMost 0)); [apply Hquery | | |].
      * intros [| only [| ? ?]]; apply traced_ret; unfold atMost; simpl; lia.
      * intros a r new1 new2. apply (Happ 1 0).
      * done.
  - intros a r new1 new2. apply Happ.
  - intros e new1. unfold atMost. lia.
Qed.

End ParentMore.

(** ** The send preferences of a recipient *)

Section SendPrefs.
Import Contacts.
Context `{Contacts.Library} {S : Type} (client : Contacts.Client S).

Lemma IndexFunc_at {A} (before : list A) (x : A) (after : list A) (f : A -> bool) :
  Forall (fun y => f y = false) before -> f x = true ->
  IndexFunc (before ++ x :: after) f = Some (length before).
Proof.
  intros Hbefore Hx. induction Hbefore as [| y before Hy _ IH]; simpl.
  - by rewrite Hx.
  - by rewrite Hy, IH.
Qed.

(** X19. [getContactSettings] looks the recipient up by exact equality of
    the email, case included.  When the contact emails the API answers
    hold none equal to the recipient, it returns the empty settings and
    asks nothing more; otherwise it asks for one contact, the one of the
    first contact email equal to the recipient, and returns the settings
    of that contact or, wrapped, the error of that call. *)
Theorem getContactSettings_exact_match (userKR : KeyRing) (recipient : string)
        (s s1 : S) (log : list Request) (contacts : list ContactEmail) :
  GetAllContactEmails client recipient s = (Ok contacts, s1) ->
  (Forall (fun contact => Email contact <> recipient) contacts ->
     getContactSettings client userKR recipient (s, log)
     = (Ok noContactSettings, (s1, log ++ [AskContactEmails recipient]))) /\
  (forall before contact after,
      contacts = before ++ contact :: after ->
      Forall (fun contact => Email contact <> recipient) before ->
      Email contact = recipient ->
      getContactSettings client userKR recipient (s, log)
      = (match fst (GetContact client (ContactID contact) s1) with
         | Ok found => GetSettings found userKR recipient
         | Err err => Err (ErrWrapped "failed to get contact" err)
         end,
         (snd (GetContact client (ContactID contact) s1),
          (log ++ [AskContactEmails recipient]) ++ [AskContact (ContactID contact)]))).
Proof.
  intros Hemails. unfold getContactSettings, ask. simpl. rewrite Hemails. split.
  - intros Hnone. rewrite IndexFunc_none; [done |].
    intros contact Hin. rewrite Forall_forall in Hnone.
    by apply String.eqb_neq, Hnone.
  - intros before contact after -> Hbefore Hcontact.
    rewrite (IndexFunc_at before contact after).
    + rewrite app_nth2, Nat.sub_diag by lia. simpl.
      by destruct (GetContact client (ContactID contact) s1) as [[found | err] s2].
    + eapply Forall_impl; [exact Hbefore |]. intros c Hc. by apply String.eqb_neq.
    + by apply String.eqb_eq.
Qed.

(** X20. [getSendPrefs] asks for the public keys of the recipient first.
    Refused, it asks nothing else and returns that error wrapped as a
    failure to get the public keys; answered, it goes on with the contact
    emails of the recipient and then with one contact at most: three
    requests at most, in this order. *)
Theorem getSendPrefs_requests (userKR : KeyRing) (settings : MailSettings)
        (recipient : string) (mimeType : MIMEType) (s : S) (log : list Request) :
  let out := getSendPrefs client userKR settings recipient mimeType (s, log) in
  exists more,
    snd (snd out) = log ++ AskPublicKeys recipient :: more /\
    (more = [] \/ more = [AskContactEmails recipient] \/
     exists contactID, more = [AskContactEmails recipient; AskContact contactID]) /\
    match fst (GetPublicKeys client recipient s) with
    | Err err => more = [] /\ fst out = Err (ErrWrapped "failed to get public keys" err)
    | Ok _ => more <> []
    end.
Proof.
  unfold getSendPrefs, ask. simpl.
  destruct (GetPublicKeys client recipient s) as [[[pubKeys recType] | err] s1]; simpl.
  - unfold getContactSettings, ask. simpl.
    destruct (GetAllContactEmails client recipient s1) as [[contacts | err] s2]; simpl.
    + destruct (IndexFunc contacts _) as [idx |]; simpl.
      * destruct (GetContact client _ s2) as [[found | err] s3]; simpl.
        -- destruct (GetSettings found userKR recipient); simpl;
             (eexists; split; [by rewrite <- !app_assoc |]; split; [right; right; by eexists | done]).
        -- eexists. split; [by rewrite <- !app_assoc |]. split; [right; right; by eexists | done].
      * eexists. split; [by rewrite <- !app_assoc |]. split; [right; by left | done].
    + eexists. split; [by rewrite <- !app_assoc |]. split; [right; by left | done].
  - exists []. split; [done |]. split; [by left | done].
Qed.

End SendPrefs.

(** ** The further properties on the directory kept in memory *)

Section MoreScenarios.
#[local] Existing Instances Fake.library Fake.runtime Fake_FoldLaws.

Import Fake (owned, noOptions, mailbox, address, letter).

Lemma owned_lookup (addrID fromAddrID : string) (to : list string) (id email : string) :
  emails (Fake.session owned addrID fromAddrID to) !! id = Some email ->
  (id = "a1" /\ email = "alice@svc") \/ (id = "a2" /\ email = "bob@svc").
Proof.
  intros Hin. change (emails _) with (list_to_map owned : gmap string string) in Hin.
  apply elem_of_list_to_map_2 in Hin.
  apply elem_of_cons in Hin as [Heq | Hin]; [simplify_eq; by left |].
  apply list_elem_of_singleton in Hin. simplify_eq. by right.
Qed.

Lemma sanitizeEmail_strips_tag_witness :
  sanitizeEmail "alice+work@svc" = "alice@svc" /\
  sanitizeEmail "alice@svc@svc" = "alice@svc@svc".
Proof.
  split.
  - destruct (sanitizeEmail_strips_tag "alice+work@svc") as [Hone _].
    destruct (Hone eq_refl) as (l & rest & d & _ & _ & _). reflexivity.
  - apply (proj2 (sanitizeEmail_strips_tag "alice@svc@svc")). discriminate.
Defined.

Lemma sanitizeEmail_case_insensitive_witness :
  EqualFold (sanitizeEmail "Alice+work@Svc") (sanitizeEmail "alice+WORK@svc") = true.
Proof.
  refine (proj1 (sanitizeEmail_case_insensitive "Alice+work@Svc" "alice+WORK@svc" _)).
  reflexivity.
Defined.

Lemma sanitized_sender_is_owned_witness :
  exists sender owned,
    Sender (withSender (letter "alice+work@svc" [] []) (address "Alice+work@svc")) = Some sender /\
    owned ∈ ["Bob@svc"; "Alice@svc"] /\
    sanitizeEmail (Address sender) = owned.
Proof.
  destruct (sanitized_sender_is_owned (letter "alice+work@svc" [] [])
              (withSender (letter "alice+work@svc" [] []) (address "Alice+work@svc"))
              "alice@svc" [] ["Bob@svc"; "Alice@svc"])
    as (sender & owned & Hsender & Hin & _ & Hstripped); [reflexivity |].
  exists sender, owned. split; [exact Hsender |]. split; [exact Hin | exact Hstripped].
Defined.

Lemma sanitized_sender_same_fold_witness :
  exists sender : MailAddress,
    Sender (withSender (letter "alice+work@svc" [] []) (address "Alice+work@svc")) = Some sender /\
    EqualFold (Address sender) "alice+work@svc" = true.
Proof.
  apply (sanitized_sender_same_fold (letter "alice+work@svc" [] []) _
           "alice@svc" [] ["Bob@svc"; "Alice@svc"]).
  - reflexivity.
  - vm_compute. lia.
Defined.

Lemma sanitizeParsedMessage_frame_witness :
  exists sanitized,
    sanitizeParsedMessage (letter "alice@svc" ["a@example.com"] ["b@example.com"])
      "alice@svc" ["c@example.com"] ["alice@svc"] = Ok sanitized /\
    Subject sanitized = "hi" /\ CCList sanitized = [address "b@example.com"].
Proof.
  eexists. split; [vm_compute; reflexivity |].
  destruct (sanitizeParsedMessage_frame (H := Fake.library)
              (letter "alice@svc" ["a@example.com"] ["b@example.com"]) _
              "alice@svc" ["c@example.com"] ["alice@svc"] eq_refl)
    as (_ & _ & _ & _ & _ & Hsubject & _ & _ & Hcc).
  split; [exact Hsubject | exact Hcc].
Defined.

Lemma sanitized_recipients_cover_envelope_witness :
  exists sanitized,
    sanitizeParsedMessage (letter "alice@svc" ["a@example.com"; "z@example.com"] ["b@example.com"])
      "alice@svc" ["a@example.com"; "c@example.com"] ["alice@svc"] = Ok sanitized /\
    "c@example.com" ∈ addresses (ToList sanitized) ++ addresses (CCList sanitized)
                       ++ addresses (BCCList sanitized).
Proof.
  eexists. split; [vm_compute; reflexivity |].
  destruct (sanitized_recipients_cover_envelope (H := Fake.library)
              (letter "alice@svc" ["a@example.com"; "z@example.com"] ["b@example.com"]) _
              "alice@svc" ["a@example.com"; "c@example.com"] ["alice@svc"] eq_refl)
    as (Hcover & _).
  apply Hcover. apply elem_of_cons. right. apply elem_of_cons. by left.
Defined.

Lemma Mail_accepts_owned_only_witness :
  let session := Fake.session owned "a1" "" [] in
  let session' := snd (Mail session "BOB@svc" noOptions) in
  fromAddrID session' <> "" /\
  exists email, emails session !! fromAddrID session' = Some email /\
                EqualFold "BOB@svc" email = true.
Proof.
  intros session session'.
  destruct (Mail_accepts_owned_only session session' "BOB@svc" noOptions eq_refl)
    as (_ & Hset & _ & Howned).
  - vm_compute. reflexivity.
  - split; [exact Hset | exact Howned].
Defined.

Lemma Mail_case_insensitive_witness :
  let session := Fake.session owned "a1" "" [] in
  Mail session "BOB@svc" noOptions = Mail session "bob@SVC" noOptions.
Proof.
  intros session. apply (Mail_case_insensitive Fake.runtime Fake.runtime).
  - reflexivity.
  - intros id id' email email' Hid Hid' Hfold Hfold'.
    apply owned_lookup in Hid as [[-> ->] | [-> ->]];
      apply owned_lookup in Hid' as [[-> ->] | [-> ->]]; done.
Defined.

Lemma session_recipients_tidy_witness :
  let session := Fake.session owned "a1" "a1" ["carol@example.com"] in
  tidyRecipients (snd (Rcpt session "dave@example.com")).
Proof.
  intros session.
  destruct (session_recipients_tidy Fake.client) as (_ & _ & _ & _ & Hrcpt & _).
  apply Hrcpt. split.
  - apply NoDup_singleton.
  - intros Hin. apply list_elem_of_singleton in Hin. discriminate.
Defined.

Lemma Rcpt_sequence_witness :
  let session := Fake.session owned "a1" "a1" ["carol@example.com"] in
  let arguments := ["dave@example.com"; ""; "carol@example.com"; "dave@example.com"] in
  "dave@example.com" ∈ to (fold_left (fun session recipient => snd (Rcpt session recipient))
                             arguments session).
Proof.
  intros session arguments.
  destruct (Rcpt_sequence session arguments) as (_ & Hin & _).
  apply Hin. right. split; [| discriminate]. apply elem_of_cons. by left.
Defined.

Lemma Data_takes_sender_from_header_witness :
  let session := Fake.session owned "a1" "a1" ["carol@example.com"] in
  let r := list_byte_of_string "Bob+news@svc" in
  snd (fst (fst (Data Fake.client session r (Fake.world [])))) = withFromAddrID session "a2".
Proof.
  intros session r.
  destruct (Data_takes_sender_from_header Fake.client session r [] (Fake.world [])
              "Bob+news@svc") as (_ & _ & Hheader).
  - discriminate.
  - discriminate.
  - reflexivity.
  - apply (Hheader "Bob+news@svc" "a2" "bob@svc").
    + reflexivity.
    + reflexivity.
    + reflexivity.
    + intros id' email' Hlookup Hfold.
      apply owned_lookup in Hlookup as [[-> ->] | [-> ->]]; [discriminate | reflexivity].
Defined.

Lemma Data_failure_leaves_no_event_witness :
  let session := Fake.session owned "a1" "a1" ["carol@example.com"] in
  let out := Data Fake.client session (list_byte_of_string "mallory@elsewhere.example")
                  (Fake.world []) in
  eventCh (snd out) = [].
Proof.
  intros session out.
  refine (proj1 (Data_failure_leaves_no_event Fake.client session (snd (fst (fst out)))
                   (list_byte_of_string "mallory@elsewhere.example") (snd (fst out))
                   (Fake.world []) (snd out)
                   (ErrWrapped "failed to send message"
                      (ErrWrapped "failed to sanitize message"
                         (ErrAddressNotOwned "mallory@elsewhere.example"))) _)).
  vm_compute. reflexivity.
Defined.

Lemma accepted_envelope_reaches_parser_witness :
  let session := Fake.session owned "a1" "" [] in
  let session1 := snd (Mail session "bob@svc" noOptions) in
  let session2 := snd (Rcpt session1 "carol@example.com") in
  let r := list_byte_of_string "bob@svc" in
  fst (fst (fst (Data Fake.client session2 r (Fake.world [])))) <> Some ErrInvalidReturnPath /\
  fst (fst (fst (Data Fake.client session2 r (Fake.world [])))) <> Some ErrInvalidRecipient /\
  snd (fst (Data Fake.client session2 r (Fake.world []))) = [].
Proof.
  intros session session1 session2 r.
  apply (accepted_envelope_reaches_parser Fake.client session session1 session2
           "bob@svc" "carol@example.com" noOptions r (Fake.world [])).
  - vm_compute. reflexivity.
  - vm_compute. reflexivity.
Defined.

Lemma Data_refuses_foreign_sender_witness :
  let session := Fake.session owned "a1" "a1" ["carol@example.com"] in
  let r := list_byte_of_string "mallory+alice@elsewhere.example" in
  exists err session' r',
    Data Fake.client session r (Fake.world mailbox) = (Some err, session', r', Fake.world mailbox).
Proof.
  intros session r. apply Data_refuses_foreign_sender.
  intros parser r' p message Hparser Hp Hmessage.
  assert (p = "mallory+alice@elsewhere.example") as ->.
  { simpl in Hparser. destruct Hp as [-> | (pubKey & name & ->)]; by simplify_eq. }
  simpl in Hmessage. simplify_eq. eexists. split; [reflexivity |].
  split; [discriminate |].
  intros id email Hlookup.
  apply owned_lookup in Hlookup as [[-> ->] | [-> ->]]; reflexivity.
Defined.

End MoreScenarios.

Section ContactScenarios.
#[local] Existing Instance FakeContacts.library.

Import Contacts.

(** The recipient [carol@example.com] in a book that holds her three
    times: the entry in capitals is passed over, the first of the two
    others is the one asked for. *)
Lemma getContactSettings_exact_match_witness :
  getContactSettings FakeContacts.client tt "carol@example.com" (FakeContacts.book, [])
  = (Ok "settings of c2"%string,
     (FakeContacts.book, [AskContactEmails "carol@example.com"; AskContact "c2"])).
Proof.
  destruct (getContactSettings_exact_match FakeContacts.client tt "carol@example.com"
              FakeContacts.book FakeContacts.book [] FakeContacts.book eq_refl)
    as [_ Hfirst].
  apply (Hfirst [ {| Email := "Carol@example.com"; ContactID := "c1" |} ]
                {| Email := "carol@example.com"; ContactID := "c2" |}
                [ {| Email := "carol@example.com"; ContactID := "c3" |} ]).
  - reflexivity.
  - constructor; [discriminate | constructor].
  - reflexivity.
Defined.

End ContactScenarios.
